(** * client-go: priority work queue and strategic merge patch

    Shallow embedding of [util/workqueue/priority_queue.go] and of the
    strategic-merge-patch engine ([package strategicpatch]), with the
    properties of the specification stated and proved over it. *)

From stdpp Require Import gmap strings list fin_maps sorting.
From Stdlib Require Import ZArith Lia Ascii.

Local Open Scope Z_scope.

(** * Part A: the priority work queue *)

Module WorkQueue.

(** The higher the priority value, the higher the priority. *)
Definition defaultMinPriority : Z := 0.
Definition defaultMaxPriority : Z := 12.

(** What a call to [Get] observes.  [GetWait] is the call parked in
    [q.cond.Wait()] (no item and not shutting down); [GetShutdown] is the
    return value [(nil, true)]; [GetItem x] is [(x, false)]; [GetPanic] is
    the index-out-of-range panic of [q.priorityQueue[currentPriority][0]]
    on an empty bucket. *)
Inductive GetOutcome (T : Type) : Type :=
  | GetItem (item : T)
  | GetShutdown
  | GetWait
  | GetPanic.
Arguments GetItem {T} item.
Arguments GetShutdown {T}.
Arguments GetWait {T}.
Arguments GetPanic {T}.

Section queue.
Context {T : Type} `{Countable T}.

(** [PriorityType]: the fields guarded by the mutex.  Go's [int] priorities
    are integers that are only compared and used as map keys; the metrics
    sink, the clock and the condition variable carry no queue state. *)
Record PriorityType : Type := mkPriorityType {
  minPriority : Z;
  maxPriority : Z;
  getPriorityFunc : T → Z;
  priorityQueue : gmap Z (list T);
  dirty : gset T;
  processing : gset T;
  shuttingDown : bool;
  drain : bool
}.

Definition newPriorityQueue (maxP : Z) (f : T → Z) : PriorityType :=
  {| minPriority := defaultMinPriority;
     maxPriority := maxP;
     getPriorityFunc := f;
     priorityQueue := ∅;
     dirty := ∅;
     processing := ∅;
     shuttingDown := false;
     drain := false |}.

Definition NewNamedPriority (maxP : Z) (f : T → Z) : PriorityType :=
  newPriorityQueue maxP f.

Definition NewPriority : PriorityType :=
  NewNamedPriority defaultMaxPriority (λ _, defaultMinPriority).

(** [q.priorityQueue[p]]: reading a missing key of a Go map gives the nil
    slice. *)
Definition bucket (q : PriorityType) (p : Z) : list T :=
  default [] (priorityQueue q !! p).

Definition with_priorityQueue (q : PriorityType) (pq : gmap Z (list T)) : PriorityType :=
  {| minPriority := minPriority q; maxPriority := maxPriority q;
     getPriorityFunc := getPriorityFunc q; priorityQueue := pq;
     dirty := dirty q; processing := processing q;
     shuttingDown := shuttingDown q; drain := drain q |}.

Definition with_dirty (q : PriorityType) (d : gset T) : PriorityType :=
  {| minPriority := minPriority q; maxPriority := maxPriority q;
     getPriorityFunc := getPriorityFunc q; priorityQueue := priorityQueue q;
     dirty := d; processing := processing q;
     shuttingDown := shuttingDown q; drain := drain q |}.

Definition with_processing (q : PriorityType) (p : gset T) : PriorityType :=
  {| minPriority := minPriority q; maxPriority := maxPriority q;
     getPriorityFunc := getPriorityFunc q; priorityQueue := priorityQueue q;
     dirty := dirty q; processing := p;
     shuttingDown := shuttingDown q; drain := drain q |}.

Definition with_drain (q : PriorityType) (b : bool) : PriorityType :=
  {| minPriority := minPriority q; maxPriority := maxPriority q;
     getPriorityFunc := getPriorityFunc q; priorityQueue := priorityQueue q;
     dirty := dirty q; processing := processing q;
     shuttingDown := shuttingDown q; drain := b |}.

Definition with_shuttingDown (q : PriorityType) (b : bool) : PriorityType :=
  {| minPriority := minPriority q; maxPriority := maxPriority q;
     getPriorityFunc := getPriorityFunc q; priorityQueue := priorityQueue q;
     dirty := dirty q; processing := processing q;
     shuttingDown := b; drain := drain q |}.

Definition clipInt (v min max : Z) : Z :=
  if decide (v < min) then min
  else if decide (v > max) then max
  else v.

(** [q.priorityQueue[p] = append(q.priorityQueue[p], item)] *)
Definition enqueue (q : PriorityType) (p : Z) (item : T) : PriorityType :=
  with_priorityQueue q (<[p := bucket q p ++ [item]]> (priorityQueue q)).

(** [Add] marks item as needing processing. *)
Definition Add (item : T) (q : PriorityType) : PriorityType :=
  if shuttingDown q then q
  else if decide (item ∈ dirty q) then q
  else
    let q1 := with_dirty q ({[item]} ∪ dirty q) in
    if decide (item ∈ processing q1) then q1
    else
      let priority := getPriorityFunc q1 item in
      let priority := clipInt priority (minPriority q1) (maxPriority q1) in
      enqueue q1 priority item.

(** The loop [for i := q.minPriority; i <= q.maxPriority; i++] of
    [lenNoLock], started at [i] with [steps] iterations left. *)
Fixpoint lenFrom (q : PriorityType) (i : Z) (steps : nat) : nat :=
  match steps with
  | O => O
  | S k => (length (bucket q i) + lenFrom q (i + 1) k)%nat
  end.

(** Number of priority levels visited by the loops over
    [minPriority .. maxPriority]. *)
Definition levels (q : PriorityType) : nat :=
  Z.to_nat (maxPriority q - minPriority q + 1).

Definition lenNoLock (q : PriorityType) : nat :=
  lenFrom q (minPriority q) (levels q).

Definition Len (q : PriorityType) : nat := lenNoLock q.

(** The loop [for i := q.maxPriority; i >= q.minPriority; i--] of [Get],
    which breaks at the first non-empty bucket. *)
Fixpoint scanDown (q : PriorityType) (i : Z) (steps : nat) : option Z :=
  match steps with
  | O => None
  | S k =>
      match bucket q i with
      | [] => scanDown q (i - 1) k
      | _ :: _ => Some i
      end
  end.

(** [Get]: the outcome of the call and the state it leaves. *)
Definition Get (q : PriorityType) : GetOutcome T * PriorityType :=
  if decide (lenNoLock q = O) then
    if shuttingDown q then (GetShutdown, q) else (GetWait, q)
  else
    let currentPriority :=
      default (maxPriority q + 1) (scanDown q (maxPriority q) (levels q)) in
    match bucket q currentPriority with
    | [] => (GetPanic, q)
    | item :: rest =>
        let q1 := with_priorityQueue q (<[currentPriority := rest]> (priorityQueue q)) in
        let q2 := with_processing q1 ({[item]} ∪ processing q1) in
        let q3 := with_dirty q2 (dirty q2 ∖ {[item]}) in
        (GetItem item, q3)
    end.

(** [Done] marks item as done processing; if it was marked dirty again
    meanwhile, it is re-added to the queue. *)
Definition Done (item : T) (q : PriorityType) : PriorityType :=
  let q1 := with_processing q (processing q ∖ {[item]}) in
  if decide (item ∈ dirty q1) then
    let priority := getPriorityFunc q1 item in
    enqueue q1 priority item
  else q1.

Definition setDrain (shouldDrain : bool) (q : PriorityType) : PriorityType :=
  with_drain q shouldDrain.

Definition shutdown (q : PriorityType) : PriorityType :=
  with_shuttingDown q true.

Definition ShutDown (q : PriorityType) : PriorityType :=
  shutdown (setDrain false q).

(** The state change of [ShutDownWithDrain]; the caller then waits until
    [processing] is empty or [drain] is reset. *)
Definition ShutDownWithDrain (q : PriorityType) : PriorityType :=
  shutdown (setDrain true q).

Definition ShuttingDown (q : PriorityType) : bool := shuttingDown q.

(** An operation inserted nothing: every bucket afterwards is a suffix of
    what it was before. *)
Definition no_insertion (q q' : PriorityType) : Prop :=
  ∀ p, bucket q' p `suffix_of` bucket q p.

(** Every bucket that holds an item has a level within
    [minPriority .. maxPriority]. *)
Definition buckets_in_range (q : PriorityType) : Prop :=
  ∀ p item, item ∈ bucket q p → minPriority q ≤ p ≤ maxPriority q.

(** [isProcessing] indicates if there are still items on the work queue
    being processed. *)
Definition isProcessing (q : PriorityType) : bool :=
  bool_decide (size (processing q) ≠ O).

Definition shouldDrain (q : PriorityType) : bool := drain q.

(** The condition [q.isProcessing() && q.shouldDrain()] of the loop in
    which [ShutDownWithDrain] waits: the call returns once it is false. *)
Definition drainWaits (q : PriorityType) : bool :=
  isProcessing q && shouldDrain q.

(** ** Runs of the queue *)

(** The calls of a client, and the state they leave when made one after
    the other under the mutex. *)
Inductive Call : Type :=
  | CallAdd (item : T)
  | CallGet
  | CallDone (item : T)
  | CallShutDown
  | CallShutDownWithDrain.

Definition call (c : Call) (q : PriorityType) : PriorityType :=
  match c with
  | CallAdd item => Add item q
  | CallGet => (Get q).2
  | CallDone item => Done item q
  | CallShutDown => ShutDown q
  | CallShutDownWithDrain => ShutDownWithDrain q
  end.

Definition calls (cs : list Call) (q : PriorityType) : PriorityType :=
  foldl (λ q c, call c q) q cs.

(** The contract of [Get]: "You must call Done with item when you have
    finished processing it" - [Done] is called for items that are being
    processed. *)
Fixpoint doneOnlyProcessing (cs : list Call) (q : PriorityType) : bool :=
  match cs with
  | [] => true
  | c :: cs' =>
      match c with
      | CallDone item => bool_decide (item ∈ processing q)
      | _ => true
      end && doneOnlyProcessing cs' (call c q)
  end.

(** The comment on the field [priorityQueue]: "Every element of queue
    should be in the dirty set and not in the processing set"; and no item
    sits in the buckets twice. *)
Definition queue_consistent (q : PriorityType) : Prop :=
  (∀ p item, item ∈ bucket q p → item ∈ dirty q ∧ item ∉ processing q) ∧
  (∀ p1 p2 i j item,
     bucket q p1 !! i = Some item → bucket q p2 !! j = Some item → p1 = p2 ∧ i = j).

(** The buckets from level [i] downwards, [steps] of them, each from its
    head: the order in which the loop of [Get] reaches the items. *)
Fixpoint queuedFrom (q : PriorityType) (i : Z) (steps : nat) : list T :=
  match steps with
  | O => []
  | S k => bucket q i ++ queuedFrom q (i - 1) k
  end.



(** The items returned by [n] calls of [Get] in a row, up to the first one
    that returns no item. *)
Fixpoint getMany (n : nat) (q : PriorityType) : list T :=
  match n with
  | O => []
  | S k =>
      match Get q with
      | (GetItem item, q') => item :: getMany k q'
      | _ => []
      end
  end.

End queue.

Arguments PriorityType T {_ _}.
Arguments Call T : clear implicits.

End WorkQueue.

(** * Part B: the strategic merge patch engine *)

Module StrategicPatch.

(** ** JSON values

    What [json.Unmarshal] produces into an [interface{}]: [nil], [bool],
    [float64], [string], [[]interface{}] and [map[string]interface{}].
    Numbers are only compared and printed by the engine; their payload is
    kept as an integer. *)
#[local] Unset Elimination Schemes.
Inductive JSON : Type :=
  | JNull
  | JBool (b : bool)
  | JNumber (n : Z)
  | JString (s : string)
  | JArray (l : list JSON)
  | JObject (m : gmap string JSON).
#[local] Set Elimination Schemes.

(** [JSONMap] is [map[string]interface{}]. *)
Abbreviation JSONMap := (gmap string JSON).

(** Nesting depth of a value, used to size the recursion budget of the
    engine's mutually recursive functions. *)
Fixpoint depth (j : JSON) : nat :=
  match j with
  | JArray l => S (foldr (λ v acc, depth v `max` acc)%nat O l)
  | JObject m => S (map_fold (λ _ v acc, depth v `max` acc)%nat O m)
  | _ => O
  end.

Definition depthMap (m : JSONMap) : nat := depth (JObject m).

(** [reflect.DeepEqual] on unmarshalled JSON values. *)
Fixpoint DeepEqual (a b : JSON) : bool :=
  match a, b with
  | JNull, JNull => true
  | JBool x, JBool y => bool_decide (x = y)
  | JNumber x, JNumber y => bool_decide (x = y)
  | JString x, JString y => bool_decide (x = y)
  | JArray l1, JArray l2 =>
      (fix go (l1 l2 : list JSON) : bool :=
         match l1, l2 with
         | [], [] => true
         | x :: l1, y :: l2 => DeepEqual x y && go l1 l2
         | _, _ => false
         end) l1 l2
  | JObject m1, JObject m2 =>
      bool_decide (size m1 = size m2) &&
      map_fold (λ k v acc,
        match m2 !! k with Some v' => DeepEqual v v' | None => false end && acc)
        true m1
  | _, _ => false
  end.

(** [reflect.TypeOf] of an unmarshalled value; [None] is the nil type of
    the nil interface. *)
Inductive jtype : Type := TBool | TFloat64 | TString | TSlice | TMap.

Global Instance jtype_eq_dec : EqDecision jtype.
Proof. solve_decision. Defined.

Definition TypeOf (v : JSON) : option jtype :=
  match v with
  | JNull => None
  | JBool _ => Some TBool
  | JNumber _ => Some TFloat64
  | JString _ => Some TString
  | JArray _ => Some TSlice
  | JObject _ => Some TMap
  end.

(** ** Errors *)

Inductive error : Type :=
  | ErrBadJSONDoc
  | ErrNoListOfLists
  | ErrBadPatchFormatForPrimitiveList
  | ErrInvalidDirective            (* invalid value for special key: $patch *)
  | ErrBadArgType (expected received : string)
  | ErrNoMergeKey (m : JSONMap) (mergeKey : string)
  | ErrBadPatchType (v : JSON) (m : JSONMap)   (* unknown patch type: v in map: m *)
  | ErrNoMergeKeyForLists          (* cannot merge lists without merge key *)
  | ErrDeleteWithoutMergeKey       (* delete patch type with no merge key defined *)
  | ErrMergeDirectiveInList        (* merging lists cannot yet be specified in the patch *)
  | ErrNotAMap (index : nat)       (* value for key index is not a map. *)
  | ErrElementTypesDiffer          (* list element types are not identical *)
  | ErrNoElements                  (* no elements in any of the given slices *)
  | ErrInvalidElementType          (* invalid element type in merging list *)
  | ErrMergeKeyNotFound (mergeKey : string) (m : JSONMap)
  | ErrUnknownType
  | ErrLookup (msg : string)       (* failure reported by the metadata provider *)
  | ErrPreconditionFailed (patch : JSONMap)
  | ErrConflict (patch changed : JSONMap)
  | ErrPanic                       (* a Go run-time panic *)
  | OutOfFuel.                     (* recursion budget of the model exhausted *)

Inductive result (A : Type) : Type :=
  | Ok (a : A)
  | Err (e : error).
Arguments Ok {A} a.
Arguments Err {A} e.

Global Instance result_ret : MRet result := λ A a, Ok a.
Global Instance result_bind : MBind result := λ A B f m,
  match m with Ok a => f a | Err e => Err e end.
Global Instance result_fmap : FMap result := λ A B f m,
  match m with Ok a => Ok (f a) | Err e => Err e end.

(** [r] is the value [a], or an error of the engine (not the exhaustion of
    the model's recursion budget). *)
Definition returnsOrFails {A : Type} (r : result A) (a : A) : Prop :=
  r = Ok a ∨ ∃ e, r = Err e ∧ e ≠ OutOfFuel.

(** A [for] loop over a slice whose body may return an error. *)
Fixpoint foldM {A B : Type} (f : B → A → result B) (b : B) (l : list A) : result B :=
  match l with
  | [] => Ok b
  | x :: l' => b' ← f b x; foldM f b' l'
  end.

(** [for k, v := range m]: Go visits the entries of a map in an unspecified
    order; the model visits them in the order of [map_to_list]. *)
Definition rangeM {A B : Type} (f : B → string → A → result B) (b : B)
    (m : gmap string A) : result B :=
  foldM (λ acc kv, f acc kv.1 kv.2) b (map_to_list m).

(** ** Constants *)

Definition directiveMarker : string := "$patch".
Definition deleteDirective : string := "delete".
Definition replaceDirective : string := "replace".
Definition mergeDirective : string := "merge".
Definition deleteFromPrimitiveListDirectivePrefix : string := "$deleteFromPrimitiveList".

(** ** The patch metadata provider and the Go library

    [forkedjson.LookupPatchMetadata], [reflect] types, [fmt.Sprintf] and
    [sort.Sort] live outside the engine; the engine is parameterised by
    them. *)

Inductive kind : Type := KStruct | KPtr | KOther (name : string).

Record Schema : Type := mkSchema {
  rtype : Type;
  (** [t.Kind()] *)
  Kind : rtype → kind;
  (** [t.Elem()]; [None] where [reflect] panics *)
  Elem : rtype → option rtype;
  (** [forkedjson.LookupPatchMetadata t field]:
      element type, patch strategy and patch merge key, or an error *)
  LookupPatchMetadata : rtype → string → result (rtype * string * string)
}.

Record GoLib : Type := mkGoLib {
  (** [fmt.Sprintf("%v", x)] *)
  Sprintf_v : JSON → string;
  (** [fmt.Sprintf("%s", x)] *)
  Sprintf_s : JSON → string;
  (** [sort.Sort] on a slice with the given [Less] on elements *)
  sort_Sort : (JSON → JSON → bool) → list JSON → list JSON
}.

(** What the engine relies on of [sort.Sort]: it rearranges the slice. *)
Definition SortPermutes (Go : GoLib) : Prop :=
  ∀ less l, sort_Sort Go less l ≡ₚ l.

Section engine.
Context (Sch : Schema) (Go : GoLib).

Abbreviation rtype := (rtype Sch).

(** ** Helpers *)

(** Go's [<] on strings (bytewise lexicographic). *)
Definition strLt (a b : string) : bool :=
  match String.compare a b with Lt => true | _ => false end.

Definition strEq (a b : string) : bool := bool_decide (a = b).

(** [sort.StringsAreSorted([]string{a, b})] *)
Definition StringsAreSorted2 (a b : string) : bool := negb (strLt b a).

(** [strings.SplitN(k, "/", 2)]: [None] when [k] has no ["/"] (one
    substring), otherwise what stands before and after the first one. *)
Fixpoint splitSlash (k : string) : option (string * string) :=
  match k with
  | EmptyString => None
  | String c k' =>
      if Ascii.eqb c "/"%char then Some (EmptyString, k')
      else match splitSlash k' with
           | Some (a, b) => Some (String c a, b)
           | None => None
           end
  end.

(** [a == b] on two interface values: a run-time panic when both hold the
    same uncomparable type (slice or map). *)
Definition ifaceEq (a b : JSON) : result bool :=
  match a, b with
  | JArray _, JArray _ => Err ErrPanic
  | JObject _, JObject _ => Err ErrPanic
  | _, _ => Ok (DeepEqual a b)
  end.

(** [==] where the operands are scalars. *)
Definition scalarEq (a b : JSON) : bool :=
  match ifaceEq a b with Ok r => r | Err _ => false end.

(** [v == "replace"] and the like: the interface holds that very string. *)
Definition isString (v : JSON) (s : string) : bool :=
  match v with JString s' => strEq s' s | _ => false end.

(** [if t.Kind() == reflect.Ptr { t = t.Elem() }] *)
Definition derefPtr (t : rtype) : result rtype :=
  match Kind Sch t with
  | KPtr => match Elem Sch t with Some t' => Ok t' | None => Err ErrPanic end
  | _ => Ok t
  end.

Definition elemOf (t : rtype) : result rtype :=
  match Elem Sch t with Some t' => Ok t' | None => Err ErrPanic end.

(** [getTagStructType]; [dataStruct = None] is the nil interface. *)
Definition getTagStructType (dataStruct : option rtype) : result rtype :=
  match dataStruct with
  | None => Err (ErrBadArgType "struct" "nil")
  | Some t =>
      t ← derefPtr t;
      match Kind Sch t with
      | KStruct => Ok t
      | KPtr => Err (ErrBadArgType "struct" "ptr")
      | KOther name => Err (ErrBadArgType "struct" name)
      end
  end.

(** [sliceElementType(slices...)]: the loop over all elements of all the
    given slices, with [prevType] as loop state. *)
Definition sliceElementTypeStep (prevType : option jtype) (v : JSON) : result (option jtype) :=
  let currentType := TypeOf v in
  match prevType with
  | None =>
      match currentType with
      | None => Err ErrPanic          (* prevType.Kind() on the nil type *)
      | Some TSlice => Err ErrNoListOfLists
      | Some _ => Ok currentType
      end
  | Some _ =>
      if decide (prevType = currentType) then Ok currentType
      else Err ErrElementTypesDiffer
  end.

Definition sliceElementType (slices : list (list JSON)) : result jtype :=
  prevType ← foldM (λ prev s, foldM sliceElementTypeStep prev s) None slices;
  match prevType with
  | None => Err ErrNoElements
  | Some t => Ok t
  end.

(** [SortableSliceOfScalars.Less] and [SortableSliceOfMaps.Less] *)
Definition lessScalars (x y : JSON) : bool :=
  StringsAreSorted2 (Sprintf_v Go x) (Sprintf_v Go y).

(** [ss.s[i][ss.k]]: a missing key reads as [nil]. *)
Definition fieldOf (v : JSON) (k : string) : JSON :=
  match v with
  | JObject m => default JNull (m !! k)
  | _ => JNull
  end.

Definition lessMaps (fieldName : string) (x y : JSON) : bool :=
  StringsAreSorted2 (Sprintf_v Go (fieldOf x fieldName)) (Sprintf_v Go (fieldOf y fieldName)).

Definition sortScalars (s : list JSON) : list JSON := sort_Sort Go lessScalars s.

(** A slice is sorted by the printed keys of its elements: no key is below
    the key of an element before it. *)
Definition sortedBy (key : JSON → string) (l : list JSON) : Prop :=
  StronglySorted (λ a b, strLt (key b) (key a) = false) l.

(** What the walks over two sorted lists rely on of [sort.Sort]: with a
    [Less] that is [sort.StringsAreSorted] on printed keys, it leaves the
    slice sorted by these keys. *)
Definition SortSorts : Prop :=
  ∀ (key : JSON → string) (l : list JSON),
    sortedBy key (sort_Sort Go (λ x y, StringsAreSorted2 (key x) (key y)) l).

(** The inner loop of [uniqifyScalars] for one [i]: [x] is [s[i]], [l] is
    [s[i+1 .. length]]; a duplicate at [j] is overwritten by the last
    element, the slice shrinks by one and position [j] is looked at again. *)
Fixpoint uniqifyInner (steps : nat) (x : JSON) (l : list JSON) : list JSON :=
  match steps with
  | O => l
  | S n =>
      match l with
      | [] => []
      | y :: l' =>
          if scalarEq x y then
            match last l' with
            | None => []
            | Some z => uniqifyInner n x (z :: removelast l')
            end
          else y :: uniqifyInner n x l'
      end
  end.

(** The outer loop of [uniqifyScalars]. *)
Fixpoint uniqifyOuter (steps : nat) (s : list JSON) : list JSON :=
  match steps with
  | O => s
  | S n =>
      match s with
      | [] => []
      | x :: l => x :: uniqifyOuter n (uniqifyInner (length l) x l)
      end
  end.

Definition uniqifyScalars (s : list JSON) : list JSON := uniqifyOuter (length s) s.

Definition uniqifyAndSortScalars (s : list JSON) : list JSON :=
  sortScalars (uniqifyScalars s).

(** ** Creating patches *)

(** [v.(map[string]interface{})] with the error of [errBadArgTypeFmt]; the
    message names [reflect.TypeOf(v).Kind()], which panics on [nil]. *)
Definition kindString (t : jtype) : string :=
  match t with
  | TBool => "bool" | TFloat64 => "float64" | TString => "string"
  | TSlice => "slice" | TMap => "map"
  end.

Definition asMap (v : JSON) : result JSONMap :=
  match v with
  | JObject m => Ok m
  | _ => match TypeOf v with
         | Some t => Err (ErrBadArgType "map[string]interface{}" (kindString t))
         | None => Err ErrPanic
         end
  end.

(** The loop of [diffListsOfScalars]; [steps] bounds the number of
    iterations by the elements left on both sides. *)
Fixpoint diffScalarsLoop (steps : nat) (ignoreChangesAndAdditions ignoreDeletions : bool)
    (originalScalars modifiedScalars addList deletionList : list JSON)
    : list JSON * list JSON :=
  match steps with
  | O => (addList, deletionList)
  | S n =>
      let add modifiedValue :=
        if ignoreChangesAndAdditions then addList else addList ++ [modifiedValue] in
      let del originalValue :=
        if ignoreDeletions then deletionList else deletionList ++ [originalValue] in
      match originalScalars, modifiedScalars with
      | [], [] => (addList, deletionList)
      | [], m :: ms =>
          diffScalarsLoop n ignoreChangesAndAdditions ignoreDeletions [] ms (add m) deletionList
      | o :: os, [] =>
          diffScalarsLoop n ignoreChangesAndAdditions ignoreDeletions os [] addList (del o)
      | o :: os, m :: ms =>
          let originalString := Sprintf_v Go o in
          let modifiedString := Sprintf_v Go m in
          if strEq originalString modifiedString then
            diffScalarsLoop n ignoreChangesAndAdditions ignoreDeletions os ms addList deletionList
          else if strLt modifiedString originalString then
            diffScalarsLoop n ignoreChangesAndAdditions ignoreDeletions (o :: os) ms (add m) deletionList
          else
            diffScalarsLoop n ignoreChangesAndAdditions ignoreDeletions os (m :: ms) addList (del o)
      end
  end.

(** [sortScalars] sorts its argument in place; the model sorts a copy. *)
Definition diffListsOfScalars (original modified : list JSON)
    (ignoreChangesAndAdditions ignoreDeletions : bool) : list JSON * list JSON :=
  let originalScalars := sortScalars original in
  let modifiedScalars := sortScalars modified in
  diffScalarsLoop (length originalScalars + length modifiedScalars)
    ignoreChangesAndAdditions ignoreDeletions originalScalars modifiedScalars [] [].

(** [sortMergeListsByNameArray] as the engine calls it ([recurse = false]). *)
Definition sortMergeListsByNameArray (s : list JSON) (mergeKey : string) : result (list JSON) :=
  match s with
  | [] => Ok s
  | _ =>
      t ← sliceElementType [s];
      if decide (t = TMap) then Ok (sort_Sort Go (lessMaps mergeKey) s)
      else Ok (uniqifyAndSortScalars s)
  end.

(** The element of a merging list and the value of its merge key. *)
Definition mergeKeyOf (v : JSON) (mergeKey : string) : result (JSONMap * JSON) :=
  m ← asMap v;
  match m !! mergeKey with
  | Some x => Ok (m, x)
  | None => Err (ErrNoMergeKey m mergeKey)
  end.

Definition deleteDirectiveFor (mergeKey : string) (originalValue : JSON) : JSON :=
  JObject (<[directiveMarker := JString deleteDirective]> {[ mergeKey := originalValue ]}).

Section diff.
(** The recursive call [diffMaps(original, modified, t, ...)] on values one
    level down. *)
Variable diffMaps_rec : JSONMap → JSONMap → rtype → bool → bool → result JSONMap.

(** The labelled loop [loopB] of [diffListsOfMaps] over [modifiedSorted]
    with its inner loop over [originalSorted]; it returns the patch, and
    what is left of both lists when it ends. *)
Fixpoint diffListsOfMapsLoop (t : rtype) (mergeKey : string)
    (ignoreChangesAndAdditions ignoreDeletions : bool)
    (modifiedSorted : list JSON) {struct modifiedSorted}
    : list JSON → list JSON → result (list JSON * list JSON * list JSON) :=
  match modifiedSorted with
  | [] => λ originalSorted patch, Ok (patch, originalSorted, [])
  | mv :: modifiedRest =>
      λ originalSorted patch,
      '(modifiedMap, modifiedValue) ← mergeKeyOf mv mergeKey;
      (fix inner (originalSorted patch : list JSON) {struct originalSorted} :=
         match originalSorted with
         | [] => Ok (patch, [], mv :: modifiedRest)            (* break *)
         | ov :: originalRest =>
             '(originalMap, originalValue) ← mergeKeyOf ov mergeKey;
             let originalString := Sprintf_v Go originalValue in
             let modifiedString := Sprintf_v Go modifiedValue in
             if negb (strLt originalString modifiedString) then
               if strEq originalString modifiedString then
                 patchValue ← diffMaps_rec originalMap modifiedMap t
                                ignoreChangesAndAdditions ignoreDeletions;
                 let patch :=
                   if bool_decide (0 < size patchValue)%nat
                   then patch ++ [JObject (<[mergeKey := modifiedValue]> patchValue)]
                   else patch in
                 diffListsOfMapsLoop t mergeKey ignoreChangesAndAdditions ignoreDeletions
                   modifiedRest originalRest patch
               else
                 let patch :=
                   if ignoreChangesAndAdditions then patch else patch ++ [JObject modifiedMap] in
                 diffListsOfMapsLoop t mergeKey ignoreChangesAndAdditions ignoreDeletions
                   modifiedRest (ov :: originalRest) patch
             else
               let patch :=
                 if ignoreDeletions then patch
                 else patch ++ [deleteDirectiveFor mergeKey originalValue] in
               inner originalRest patch
         end) originalSorted patch
  end.

Definition diffListsOfMaps (original modified : list JSON) (t : rtype) (mergeKey : string)
    (ignoreChangesAndAdditions ignoreDeletions : bool) : result (list JSON) :=
  originalSorted ← sortMergeListsByNameArray original mergeKey;
  modifiedSorted ← sortMergeListsByNameArray modified mergeKey;
  '(patch, originalLeft, modifiedLeft) ←
    diffListsOfMapsLoop t mergeKey ignoreChangesAndAdditions ignoreDeletions
      modifiedSorted originalSorted [];
  patch ←
    (if ignoreDeletions then Ok patch
     else foldM (λ patch ov,
            '(_, originalValue) ← mergeKeyOf ov mergeKey;
            Ok (patch ++ [deleteDirectiveFor mergeKey originalValue])) patch originalLeft);
  Ok (if ignoreChangesAndAdditions then patch else patch ++ modifiedLeft).

Definition diffLists (original modified : list JSON) (t : rtype) (mergeKey : string)
    (ignoreChangesAndAdditions ignoreDeletions : bool) : result (list JSON * list JSON) :=
  match original with
  | [] =>
      match modified with
      | [] => Ok ([], [])
      | _ => if ignoreChangesAndAdditions then Ok ([], []) else Ok (modified, [])
      end
  | _ =>
      elementType ← sliceElementType [original; modified];
      match elementType with
      | TMap =>
          patchList ← diffListsOfMaps original modified t mergeKey
                        ignoreChangesAndAdditions ignoreDeletions;
          Ok (patchList, [])
      | TSlice => Err ErrNoListOfLists
      | _ => Ok (diffListsOfScalars original modified ignoreChangesAndAdditions ignoreDeletions)
      end
  end.

(** The body of [for key, modifiedValue := range modified] in [diffMaps]. *)
Definition diffMapsStep (original : JSONMap) (t : rtype)
    (ignoreChangesAndAdditions ignoreDeletions : bool)
    (patch : JSONMap) (key : string) (modifiedValue : JSON) : result JSONMap :=
  (* patch[key] = modifiedValue, unless changes and additions are ignored *)
  let emit := if ignoreChangesAndAdditions then patch else <[key := modifiedValue]> patch in
  match original !! key with
  | None => Ok emit                                  (* key was added *)
  | Some originalValue =>
      (* the code after the [switch]: compare the values *)
      let compare :=
        if ignoreChangesAndAdditions then patch
        else if DeepEqual originalValue modifiedValue then patch
        else <[key := modifiedValue]> patch in
      if strEq key directiveMarker then
        match originalValue, modifiedValue with
        | JString originalString, JString modifiedString =>
            Ok (if strEq modifiedString originalString then patch
                else <[directiveMarker := modifiedValue]> patch)
        | _, _ => Err ErrInvalidDirective
        end
      else if negb (bool_decide (TypeOf originalValue = TypeOf modifiedValue)) then
        Ok emit                                      (* types have changed *)
      else
        match originalValue, modifiedValue with
        | JObject originalValueTyped, JObject modifiedValueTyped =>
            match LookupPatchMetadata Sch t key with
            | Err e =>
                if DeepEqual originalValue modifiedValue then Ok patch else Err e
            | Ok (fieldType, fieldPatchStrategy, _) =>
                if strEq fieldPatchStrategy replaceDirective then Ok emit
                else
                  patchValue ← diffMaps_rec originalValueTyped modifiedValueTyped fieldType
                                 ignoreChangesAndAdditions ignoreDeletions;
                  Ok (if bool_decide (0 < size patchValue)%nat
                      then <[key := JObject patchValue]> patch else patch)
            end
        | JArray originalValueTyped, JArray modifiedValueTyped =>
            match LookupPatchMetadata Sch t key with
            | Err e =>
                if DeepEqual originalValue modifiedValue then Ok patch else Err e
            | Ok (fieldType, fieldPatchStrategy, fieldPatchMergeKey) =>
                if strEq fieldPatchStrategy mergeDirective then
                  elemType ← elemOf fieldType;
                  '(addList, deletionList) ←
                    diffLists originalValueTyped modifiedValueTyped elemType
                      fieldPatchMergeKey ignoreChangesAndAdditions ignoreDeletions;
                  let patch :=
                    if bool_decide (0 < length addList)%nat
                    then <[key := JArray addList]> patch else patch in
                  let parallelDeletionListKey :=
                    deleteFromPrimitiveListDirectivePrefix +:+ "/" +:+ key in
                  Ok (if bool_decide (0 < length deletionList)%nat
                      then <[parallelDeletionListKey := JArray deletionList]> patch
                      else patch)
                else Ok compare
            end
        | _, _ => Ok compare
        end
  end.

(** One level of [diffMaps]: the loop over [modified], then the nils for
    the keys of [original] that [modified] lacks. *)
Definition diffMapsBody (original modified : JSONMap) (t : rtype)
    (ignoreChangesAndAdditions ignoreDeletions : bool) : result JSONMap :=
  t ← derefPtr t;
  patch ← rangeM (diffMapsStep original t ignoreChangesAndAdditions ignoreDeletions)
            ∅ modified;
  if ignoreDeletions then Ok patch
  else
    rangeM (λ patch key _,
        Ok (match modified !! key with
            | Some _ => patch
            | None => <[key := JNull]> patch
            end))
      patch original.

End diff.

(** [diffMaps] returns a (recursive) strategic merge patch that yields
    [modified] when applied to [original].  [fuel] bounds the nesting depth
    the recursion may descend. *)
Fixpoint diffMaps (fuel : nat) (original modified : JSONMap) (t : rtype)
    (ignoreChangesAndAdditions ignoreDeletions : bool) : result JSONMap :=
  match fuel with
  | O => Err OutOfFuel
  | S n =>
      diffMapsBody (diffMaps n) original modified t
        ignoreChangesAndAdditions ignoreDeletions
  end.

(** The recursion budget for a call on two documents: more than either
    nests. *)
Definition fuelFor (a b : JSONMap) : nat := S (depthMap a `max` depthMap b).

(** A precondition function of package [mergepatch]. *)
Definition PreconditionFunc : Type := JSONMap → bool.

(** [for _, fn := range fns { if !fn(patchMap) { return nil, ErrPreconditionFailed } }] *)
Definition checkPreconditions (fns : list PreconditionFunc) (patchMap : JSONMap) : result unit :=
  foldM (λ (_ : unit) (fn : PreconditionFunc),
           if fn patchMap then Ok () else Err (ErrPreconditionFailed patchMap)) () fns.

(** [CreateTwoWayMergeMapPatch] creates a patch from an original and a
    modified JSON object. *)
Definition CreateTwoWayMergeMapPatch (original modified : JSONMap)
    (dataStruct : option rtype) (fns : list PreconditionFunc) : result JSONMap :=
  t ← getTagStructType dataStruct;
  patchMap ← diffMaps (fuelFor original modified) original modified t false false;
  _ ← checkPreconditions fns patchMap;
  Ok patchMap.

(** [CreateTwoWayMergePatch] on documents already unmarshalled by
    [json.Unmarshal] (an empty byte slice is the empty object); the result
    is the map handed to [json.Marshal]. *)
Definition CreateTwoWayMergePatch (original modified : JSONMap)
    (dataStruct : option rtype) (fns : list PreconditionFunc) : result JSONMap :=
  CreateTwoWayMergeMapPatch original modified dataStruct fns.

(** ** Applying patches *)

(** [findMapInSliceBasedOnKeyValue]: the first map of [m] (from index
    [index] on) whose entry [key] equals [value], with its index. *)
Fixpoint findMapInSliceFrom (index : nat) (m : list JSON) (key : string) (value : JSON)
    : result (option (JSONMap * nat)) :=
  match m with
  | [] => Ok None
  | v :: m' =>
      match v with
      | JObject typedV =>
          match typedV !! key with
          | Some valueToMatch =>
              same ← ifaceEq valueToMatch value;
              if same : bool then Ok (Some (typedV, index))
              else findMapInSliceFrom (S index) m' key value
          | None => findMapInSliceFrom (S index) m' key value
          end
      | _ => Err (ErrNotAMap index)
      end
  end.

Definition findMapInSliceBasedOnKeyValue (m : list JSON) (key : string) (value : JSON)
    : result (option (JSONMap * nat)) :=
  findMapInSliceFrom O m key value.

(** The test [ok && valueToMatch == value] of that loop on an element [v]:
    [v] is a map whose entry [key] equals [value]; or [v] is a map whose
    entry [key] is missing or differs. *)
Definition keyMatches (key : string) (value : JSON) (v : JSON) : Prop :=
  ∃ m x, v = JObject m ∧ m !! key = Some x ∧ ifaceEq x value = Ok true.

Definition keyDiffers (key : string) (value : JSON) (v : JSON) : Prop :=
  ∃ m, v = JObject m ∧
    (m !! key = None ∨ ∃ x, m !! key = Some x ∧ ifaceEq x value = Ok false).

(** The same test as a function, for elements that are maps. *)
Definition keyMatchesb (key : string) (value : JSON) (v : JSON) : bool :=
  match v with
  | JObject m => match m !! key with Some x => scalarEq x value | None => false end
  | _ => false
  end.

(** Whether an element of a patch list carries a [$patch] directive. *)
Definition hasDirective (v : JSON) : bool :=
  match v with
  | JObject m => bool_decide (is_Some (m !! directiveMarker))
  | _ => false
  end.

(** A value that is no slice and no map, so that [==] on it cannot panic. *)
Definition isScalar (v : JSON) : bool :=
  match v with JArray _ | JObject _ => false | _ => true end.

(** The loop of [deleteFromSlice] over the two sorted lists. *)
Fixpoint deleteFromSliceLoop (steps : nat) (currentScalars toDeleteScalars mergedList : list JSON)
    : list JSON :=
  match steps with
  | O => mergedList ++ currentScalars
  | S n =>
      match currentScalars, toDeleteScalars with
      | c :: cs, d :: ds =>
          let originalString := Sprintf_v Go c in
          let modifiedString := Sprintf_v Go d in
          if strEq originalString modifiedString then
            deleteFromSliceLoop n cs (d :: ds) mergedList
          else if strLt modifiedString originalString then
            deleteFromSliceLoop n (c :: cs) ds mergedList
          else
            deleteFromSliceLoop n cs (d :: ds) (mergedList ++ [c])
      | _, _ => mergedList ++ currentScalars
      end
  end.

(** [deleteFromSlice] uses the parallel list to delete the items in a list
    of scalars. *)
Definition deleteFromSlice (current toDelete : list JSON) : list JSON :=
  let currentScalars := uniqifyAndSortScalars current in
  let toDeleteScalars := uniqifyAndSortScalars toDelete in
  deleteFromSliceLoop (length currentScalars + length toDeleteScalars)
    currentScalars toDeleteScalars [].

(** The loop [for { find; if !found { break }; delete the element }] of
    [mergeSlice]; every round removes one element, so [rounds] bounds it. *)
Fixpoint deleteAllMatching (rounds : nat) (original : list JSON) (mergeKey : string)
    (mergeValue : JSON) : result (list JSON) :=
  found ← findMapInSliceBasedOnKeyValue original mergeKey mergeValue;
  match found with
  | None => Ok original
  | Some (_, originalKey) =>
      match rounds with
      | O => Err OutOfFuel
      | S n => deleteAllMatching n (delete originalKey original) mergeKey mergeValue
      end
  end.

(** The unchecked assertion [v.(map[string]interface{})]. *)
Definition mustMap (v : JSON) : result JSONMap :=
  match v with JObject m => Ok m | _ => Err ErrPanic end.

Section merge.
(** The recursive call [mergeMap(original, patch, t, ...)] one level down. *)
Variable mergeMap_rec : JSONMap → JSONMap → rtype → bool → bool → result JSONMap.

(** The first loop of [mergeSlice], over the special [$patch] elements;
    the state is [original], [patchWithoutSpecialElements] and [replace]. *)
Definition mergeSliceDirectiveStep (mergeKey : string)
    (st : list JSON * list JSON * bool) (v : JSON) : result (list JSON * list JSON * bool) :=
  let '(original, patchWithoutSpecialElements, replace) := st in
  typedV ← mustMap v;
  match typedV !! directiveMarker with
  | Some patchType =>
      if isString patchType deleteDirective then
        match typedV !! mergeKey with
        | Some mergeValue =>
            original ← deleteAllMatching (length original) original mergeKey mergeValue;
            Ok (original, patchWithoutSpecialElements, replace)
        | None => Err ErrDeleteWithoutMergeKey
        end
      else if isString patchType replaceDirective then
        Ok (original, patchWithoutSpecialElements, true)
      else if isString patchType mergeDirective then
        Err ErrMergeDirectiveInList
      else Err (ErrBadPatchType patchType typedV)
  | None => Ok (original, patchWithoutSpecialElements ++ [v], replace)
  end.

(** The second loop of [mergeSlice]: merge each patch element into
    [original]. *)
Definition mergeSliceMergeStep (elemType : rtype) (mergeKey : string)
    (mergeDeleteList ignoreUnmatchedNulls : bool)
    (original : list JSON) (v : JSON) : result (list JSON) :=
  typedV ← mustMap v;
  match typedV !! mergeKey with
  | None => Err (ErrNoMergeKey typedV mergeKey)
  | Some mergeValue =>
      found ← findMapInSliceBasedOnKeyValue original mergeKey mergeValue;
      match found with
      | Some (originalMap, originalKey) =>
          mergedMaps ← mergeMap_rec originalMap typedV elemType
                         mergeDeleteList ignoreUnmatchedNulls;
          Ok (<[originalKey := JObject mergedMaps]> original)
      | None => Ok (original ++ [v])
      end
  end.

(** [mergeSlice] merges two slices together. *)
Definition mergeSlice (original patch : list JSON) (elemType : rtype) (mergeKey : string)
    (mergeDeleteList isDeleteList ignoreUnmatchedNulls : bool) : result (list JSON) :=
  if bool_decide (length original = O) && bool_decide (length patch = O) then Ok original
  else
    t ← sliceElementType [original; patch];
    if negb (bool_decide (t = TMap)) then
      if mergeDeleteList && isDeleteList then Ok (deleteFromSlice original patch)
      else Ok (uniqifyScalars (original ++ patch))
    else if strEq mergeKey "" then Err ErrNoMergeKeyForLists
    else
      '(original, patchWithoutSpecialElements, replace) ←
        foldM (mergeSliceDirectiveStep mergeKey) (original, [], false) patch;
      if replace : bool then Ok patchWithoutSpecialElements
      else
        foldM (mergeSliceMergeStep elemType mergeKey mergeDeleteList ignoreUnmatchedNulls)
          original patchWithoutSpecialElements.

(** The body of [for k, patchV := range patch] in [mergeMap]; the state is
    [original] and the type [t], which the loop dereferences on the way. *)
Definition mergeMapStep (mergeDeleteList ignoreUnmatchedNulls : bool)
    (st : JSONMap * rtype) (k : string) (patchV : JSON) : result (JSONMap * rtype) :=
  let '(original, t) := st in
  let foundParallelListPrefix := String.prefix deleteFromPrimitiveListDirectivePrefix k in
  if foundParallelListPrefix && negb mergeDeleteList then
    Ok (<[k := patchV]> original, t)
  else
    '(k, isDeleteList) ←
      (if foundParallelListPrefix then
         match splitSlash k with
         | None => Err ErrBadPatchFormatForPrimitiveList
         | Some (_, k') => Ok (k', true)
         end
       else Ok (k, false));
    let isNil := match patchV with JNull => true | _ => false end in
    let original := if isNil then delete k original else original in
    if isNil && ignoreUnmatchedNulls then Ok (original, t)
    else
      match original !! k with
      | None => Ok (<[k := patchV]> original, t)
      | Some originalV =>
          t ← derefPtr t;
          if bool_decide (TypeOf originalV = TypeOf patchV) then
            '(fieldType, fieldPatchStrategy, fieldPatchMergeKey) ←
              LookupPatchMetadata Sch t k;
            match originalV, patchV with
            | JObject typedOriginal, JObject typedPatch =>
                if negb (strEq fieldPatchStrategy replaceDirective) then
                  merged ← mergeMap_rec typedOriginal typedPatch fieldType
                             mergeDeleteList ignoreUnmatchedNulls;
                  Ok (<[k := JObject merged]> original, t)
                else Ok (<[k := patchV]> original, t)
            | JArray typedOriginal, JArray typedPatch =>
                if strEq fieldPatchStrategy mergeDirective then
                  elemType ← elemOf fieldType;
                  merged ← mergeSlice typedOriginal typedPatch elemType fieldPatchMergeKey
                             mergeDeleteList isDeleteList ignoreUnmatchedNulls;
                  Ok (<[k := JArray merged]> original, t)
                else Ok (<[k := patchV]> original, t)
            | _, _ => Ok (<[k := patchV]> original, t)
            end
          else Ok (<[k := patchV]> original, t)
      end.

(** One level of [mergeMap]: the [$patch] directive of the patch first,
    then the merge of every field of the patch into [original]. *)
Definition mergeMapBody (original patch : JSONMap) (t : rtype)
    (mergeDeleteList ignoreUnmatchedNulls : bool) : result JSONMap :=
  match patch !! directiveMarker with
  | Some v =>
      if isString v replaceDirective then Ok (delete directiveMarker patch)
      else if isString v deleteDirective then Ok ∅
      else Err (ErrBadPatchType v patch)
  | None =>
      st ← rangeM (mergeMapStep mergeDeleteList ignoreUnmatchedNulls) (original, t) patch;
      Ok st.1
  end.

End merge.

(** [mergeMap] merges fields from a patch map into the original map.  The
    Go code updates [original] (and [patch]) in place and returns it; the
    model returns the merged map as a new value. *)
Fixpoint mergeMap (fuel : nat) (original patch : JSONMap) (t : rtype)
    (mergeDeleteList ignoreUnmatchedNulls : bool) : result JSONMap :=
  match fuel with
  | O => Err OutOfFuel
  | S n => mergeMapBody (mergeMap n) original patch t mergeDeleteList ignoreUnmatchedNulls
  end.


(** [StrategicMergeMapPatch] applies a strategic merge patch. *)
Definition StrategicMergeMapPatch (original patch : JSONMap) (dataStruct : option rtype)
    : result JSONMap :=
  t ← getTagStructType dataStruct;
  mergeMap (fuelFor original patch) original patch t true true.

(** [StrategicMergePatch] on unmarshalled documents. *)
Definition StrategicMergePatch (original patch : JSONMap) (dataStruct : option rtype)
    : result JSONMap :=
  StrategicMergeMapPatch original patch dataStruct.

(** ** Sorting the merge lists *)

(** [mapSliceFromSlice]: the unchecked assertion [v.(map[string]interface{})]
    on every element. *)
Definition mapSliceFromSlice (m : list JSON) : result (list JSONMap) :=
  foldM (λ newM v, vt ← mustMap v; Ok (newM ++ [vt])) [] m.

Definition sliceFromMapSlice (s : list JSONMap) : list JSON :=
  foldl (λ newS v, newS ++ [JObject v]) [] s.

(** [sortMapsBasedOnField]: [sort.Sort] on the slice of maps, with
    [SortableSliceOfMaps.Less] comparing the printed values of the field. *)
Definition sortMapsBasedOnField (m : list JSON) (fieldName : string) : result (list JSON) :=
  mapM ← mapSliceFromSlice m;
  Ok (sort_Sort Go (lessMaps fieldName) (sliceFromMapSlice mapM)).

Section sorting.
(** The recursive call [sortMergeListsByNameMap(typedV, fieldType)]. *)
Variable sortMap_rec : JSONMap → rtype → result JSONMap.

(** [sortMergeListsByNameArray] with its [recurse] flag. *)
Definition sortMergeListsByNameArrayRec (s : list JSON) (elemType : rtype)
    (mergeKey : string) (recurse : bool) : result (list JSON) :=
  match s with
  | [] => Ok s
  | _ =>
      t ← sliceElementType [s];
      if negb (bool_decide (t = TMap)) then Ok (uniqifyAndSortScalars s)
      else
        newS ← foldM (λ newS elem,
                  if recurse then
                    typedElem ← mustMap elem;
                    newElem ← sortMap_rec typedElem elemType;
                    Ok (newS ++ [JObject newElem])
                  else Ok (newS ++ [elem])) [] s;
        sortMapsBasedOnField newS mergeKey
  end.

(** The body of [for k, v := range s] in [sortMergeListsByNameMap]: the
    value that goes into [newS[k]]. *)
Definition sortedValue (t : rtype) (k : string) (v : JSON) : result JSON :=
  if String.prefix deleteFromPrimitiveListDirectivePrefix k then
    match v with
    | JArray typedV => Ok (JArray (uniqifyAndSortScalars typedV))
    | _ => Err ErrBadPatchFormatForPrimitiveList
    end
  else if negb (strEq k directiveMarker) then
    '(fieldType, fieldPatchStrategy, fieldPatchMergeKey) ← LookupPatchMetadata Sch t k;
    match v with
    | JObject typedV =>
        r ← sortMap_rec typedV fieldType;
        Ok (JObject r)
    | JArray typedV =>
        if strEq fieldPatchStrategy mergeDirective then
          elemType ← elemOf fieldType;
          r ← sortMergeListsByNameArrayRec typedV elemType fieldPatchMergeKey true;
          Ok (JArray r)
        else Ok v
    | _ => Ok v
    end
  else Ok v.

Definition sortMergeListsByNameMapBody (s : JSONMap) (t : rtype) : result JSONMap :=
  rangeM (λ newS k v, v' ← sortedValue t k v; Ok (<[k := v']> newS)) ∅ s.

End sorting.

(** [sortMergeListsByNameMap] recursively sorts the merge lists by their
    merge key in a map. *)
Fixpoint sortMergeListsByNameMap (fuel : nat) (s : JSONMap) (t : rtype) : result JSONMap :=
  match fuel with
  | O => Err OutOfFuel
  | S n => sortMergeListsByNameMapBody (sortMergeListsByNameMap n) s t
  end.

(** Every [$deleteFromPrimitiveList] list of the document, at any depth,
    holds scalars: [uniqifyScalars] compares its elements with [==], which
    panics on two maps or two slices. *)
Fixpoint deleteListsHoldScalars (v : JSON) : bool :=
  match v with
  | JObject m =>
      map_fold (λ k x acc,
        (if String.prefix deleteFromPrimitiveListDirectivePrefix k then
           match x with JArray l => forallb isScalar l | _ => true end
         else deleteListsHoldScalars x) && acc) true m
  | JArray l =>
      (fix go (l : list JSON) : bool :=
         match l with
         | [] => true
         | x :: l => deleteListsHoldScalars x && go l
         end) l
  | _ => true
  end.

(** ** Documents the round trip is stated for *)




(** ** Conflict detection *)

(** [sliceOfMapsToMapOfMaps]: the elements keyed by the string form of
    their merge key. *)
Definition sliceOfMapsToMapOfMaps (slice : list JSON) (mergeKey : string) : result JSONMap :=
  foldM (λ (res : JSONMap) value,
      match value with
      | JObject typedValue =>
          match typedValue !! mergeKey with
          | Some mergeValue => Ok (<[Sprintf_s Go mergeValue := value]> res)
          | None => Err (ErrMergeKeyNotFound mergeKey typedValue)
          end
      | _ => Err ErrInvalidElementType
      end) ∅ slice.

Section conflicts.
(** The recursive call [mergingMapFieldsHaveConflicts(left, right, ...)] on
    values one level down.  The Go functions return [(bool, error)] and
    every error comes with [true]: [Err e] stands for [(true, e)], [Ok b]
    for [(b, nil)]. *)
Variable fieldsHaveConflicts_rec : JSON → JSON → rtype → string → string → result bool.

(** [mapsHaveConflicts]: the loop returns at the first conflicting key. *)
Definition mapsHaveConflicts (typedLeft typedRight : JSONMap) (structType : rtype)
    : result bool :=
  rangeM (λ (hasConflicts : bool) key leftValue,
      if hasConflicts then Ok true
      else if strEq key directiveMarker then Ok false
      else
        match typedRight !! key with
        | Some rightValue =>
            '(fieldType, fieldPatchStrategy, fieldPatchMergeKey) ←
              LookupPatchMetadata Sch structType key;
            fieldsHaveConflicts_rec leftValue rightValue
              fieldType fieldPatchStrategy fieldPatchMergeKey
        | None => Ok false
        end) false typedLeft.

(** [mapsOfMapsHaveConflicts] *)
Definition mapsOfMapsHaveConflicts (typedLeft typedRight : JSONMap) (structType : rtype)
    : result bool :=
  rangeM (λ (hasConflicts : bool) key leftValue,
      if hasConflicts then Ok true
      else
        match typedRight !! key with
        | Some rightValue => fieldsHaveConflicts_rec leftValue rightValue structType "" ""
        | None => Ok false
        end) false typedLeft.

(** The loop [for i := range typedLeft] of [slicesHaveConflicts], which
    reads [typedRight[i]] and panics when [typedRight] is shorter. *)
Fixpoint elementsHaveConflicts (typedLeft typedRight : list JSON) (valueType : rtype)
    : result bool :=
  match typedLeft with
  | [] => Ok false
  | l :: ls =>
      match typedRight with
      | [] => Err ErrPanic
      | r :: rs =>
          hasConflicts ← fieldsHaveConflicts_rec l r valueType "" "";
          if hasConflicts : bool then Ok true
          else elementsHaveConflicts ls rs valueType
      end
  end.

Definition slicesHaveConflicts (typedLeft typedRight : list JSON) (fieldType : rtype)
    (fieldPatchStrategy fieldPatchMergeKey : string) : result bool :=
  elementType ← sliceElementType [typedLeft; typedRight];
  valueType ← elemOf fieldType;
  if strEq fieldPatchStrategy mergeDirective then
    (* merging lists of scalars have no conflicts by definition *)
    if negb (bool_decide (elementType = TMap)) then Ok false
    else
      leftMap ← sliceOfMapsToMapOfMaps typedLeft fieldPatchMergeKey;
      rightMap ← sliceOfMapsToMapOfMaps typedRight fieldPatchMergeKey;
      mapsOfMapsHaveConflicts leftMap rightMap valueType
  else if negb (bool_decide (length typedLeft = length typedRight)) then Ok true
  else
    let sorted :=
      if negb (bool_decide (elementType = TMap))
      then (uniqifyAndSortScalars typedLeft, uniqifyAndSortScalars typedRight)
      else (typedLeft, typedRight) in
    elementsHaveConflicts sorted.1 sorted.2 valueType.

(** One level of [mergingMapFieldsHaveConflicts]. *)
Definition mergingMapFieldsHaveConflictsBody (left right : JSON) (fieldType : rtype)
    (fieldPatchStrategy fieldPatchMergeKey : string) : result bool :=
  match left with
  | JObject leftType =>
      match right with
      | JObject rightType =>
          let leftMarker := leftType !! directiveMarker in
          let rightMarker := rightType !! directiveMarker in
          markerConflict ←
            match leftMarker, rightMarker with
            | None, None => Ok false
            | Some l, Some r => same ← ifaceEq l r; Ok (negb same)
            | _, _ => Ok true
            end;
          if markerConflict : bool then Ok true
          else if strEq fieldPatchStrategy replaceDirective then Ok false
          else mapsHaveConflicts leftType rightType fieldType
      | _ => Ok true
      end
  | JArray leftType =>
      match right with
      | JArray rightType =>
          slicesHaveConflicts leftType rightType fieldType
            fieldPatchStrategy fieldPatchMergeKey
      | _ => Ok true
      end
  | _ => Ok (negb (DeepEqual left right))
  end.

End conflicts.

Fixpoint mergingMapFieldsHaveConflicts (fuel : nat) (left right : JSON) (fieldType : rtype)
    (fieldPatchStrategy fieldPatchMergeKey : string) : result bool :=
  match fuel with
  | O => Err OutOfFuel
  | S n =>
      mergingMapFieldsHaveConflictsBody (mergingMapFieldsHaveConflicts n)
        left right fieldType fieldPatchStrategy fieldPatchMergeKey
  end.

(** [MergingMapsHaveConflicts] returns true if the left and right JSON
    objects overlap with different values in any key. *)
Definition MergingMapsHaveConflicts (left right : JSONMap) (dataStruct : option rtype)
    : result bool :=
  t ← getTagStructType dataStruct;
  mergingMapFieldsHaveConflicts (fuelFor left right) (JObject left) (JObject right) t "" "".

(** The directive markers of the two maps, as [mergingMapFieldsHaveConflicts]
    compares them. *)
Definition markerConflict (left right : JSONMap) : result bool :=
  match left !! directiveMarker, right !! directiveMarker with
  | None, None => Ok false
  | Some l, Some r => same ← ifaceEq l r; Ok (negb same)
  | _, _ => Ok true
  end.

(** The conflict check of one field present on both sides, with the fuel
    its left value calls for. *)
Definition fieldConflict (t : rtype) (k : string) (lv rv : JSON) : result bool :=
  '(ft, s, mk) ← LookupPatchMetadata Sch t k;
  mergingMapFieldsHaveConflicts (S (depth lv)) lv rv ft s mk.

(** What the caller sees as "a conflict was reported": the boolean of the
    Go result, which is [true] with every error. *)
Definition conflictReported (r : result bool) : bool :=
  match r with Ok b => b | Err _ => true end.

(** ** Three-way merge *)

(** [CreateThreeWayMergePatch] on unmarshalled documents: the patch is the
    difference from current to modified without deletions, plus the
    deletions from original to modified. *)
Definition CreateThreeWayMergePatch (original modified current : JSONMap)
    (dataStruct : option rtype) (overwrite : bool) (fns : list PreconditionFunc)
    : result JSONMap :=
  t ← getTagStructType dataStruct;
  deltaMap ← diffMaps (fuelFor current modified) current modified t false true;
  deletionsMap ← diffMaps (fuelFor original modified) original modified t true false;
  patchMap ← mergeMap (fuelFor deletionsMap deltaMap) deletionsMap deltaMap t false false;
  _ ← checkPreconditions fns patchMap;
  if overwrite then Ok patchMap
  else
    changedMap ← diffMaps (fuelFor original current) original current t false false;
    hasConflicts ← MergingMapsHaveConflicts patchMap changedMap dataStruct;
    if hasConflicts : bool then Err (ErrConflict patchMap changedMap)
    else Ok patchMap.

End engine.

(** ** A Go library and schemas to run the engine on *)

(** Go's insertion sort, the algorithm of [sort.Sort] on short slices:
    [for j := i; j > a && less(data[j], data[j-1]); j-- { swap }].  The
    sorted prefix is kept reversed, nearest element first. *)
Fixpoint insertionStep (less : JSON → JSON → bool) (x : JSON) (revPrefix : list JSON)
    : list JSON :=
  match revPrefix with
  | [] => [x]
  | y :: r => if less x y then y :: insertionStep less x r else x :: y :: r
  end.

Definition insertionSort (less : JSON → JSON → bool) (l : list JSON) : list JSON :=
  reverse (foldl (λ acc x, insertionStep less x acc) [] l).

Definition digitOf (n : Z) : ascii := ascii_of_nat (48 + Z.to_nat n).

Fixpoint decimalDigits (steps : nat) (n : Z) (acc : string) : string :=
  match steps with
  | O => acc
  | S k =>
      let acc := String (digitOf (n `mod` 10)) acc in
      if decide (n < 10) then acc else decimalDigits k (n `div` 10) acc
  end.

(** Decimal form of an integer, as [%v] prints a [float64] holding a small
    integer. *)
Definition decimal (n : Z) : string :=
  if decide (n < 0) then "-" +:+ decimalDigits (Z.to_nat (Z.log2 (- n)) + 1) (- n) ""
  else decimalDigits (Z.to_nat (Z.log2 n) + 1) n "".

Definition joinWith (sep : string) (l : list string) : string :=
  match l with
  | [] => ""
  | x :: l' => foldl (λ acc y, acc +:+ sep +:+ y) x l'
  end.

(** [%v] of the values the engine prints: scalars and merge keys. *)
Fixpoint sprint_v (v : JSON) : string :=
  match v with
  | JNull => "<nil>"
  | JBool true => "true"
  | JBool false => "false"
  | JNumber n => decimal n
  | JString s => s
  | JArray l => "[" +:+ joinWith " " (map sprint_v l) +:+ "]"
  | JObject m =>
      "map[" +:+ joinWith " "
        (map_fold (λ k x acc, (k +:+ ":" +:+ sprint_v x) :: acc) [] m) +:+ "]"
  end.

(** [%s]: a string prints as itself, anything else as a [%!s(...)] form. *)
Definition sprint_s (v : JSON) : string :=
  match v with
  | JString s => s
  | JNull => "%!s(<nil>)"
  | JBool _ => "%!s(bool=" +:+ sprint_v v +:+ ")"
  | JNumber _ => "%!s(float64=" +:+ sprint_v v +:+ ")"
  | _ => sprint_v v
  end.

Definition goLib : GoLib :=
  {| Sprintf_v := sprint_v; Sprintf_s := sprint_s; sort_Sort := insertionSort |}.

(** The trivial schema: a struct type none of whose fields declares a patch
    strategy or a merge key. *)
Definition trivialSchema : Schema :=
  {| rtype := unit;
     Kind := λ _, KStruct;
     Elem := λ _, Some tt;
     LookupPatchMetadata := λ _ _, Ok (tt, "", "") |}.

(** A pod-like schema: [containers] is a list of structs merged on [name],
    [finalizers] a list of strings with merge strategy, [selector] an
    object with replace strategy, and every other field has no strategy. *)
Inductive podType : Type := PodSpec | ContainerList | Container | StringList | Plain.

Definition podSchema : Schema :=
  {| rtype := podType;
     Kind := λ t, match t with
                  | PodSpec | Container => KStruct
                  | ContainerList | StringList => KOther "slice"
                  | Plain => KOther "string"
                  end;
     Elem := λ t, match t with
                  | ContainerList => Some Container
                  | StringList => Some Plain
                  | _ => None
                  end;
     LookupPatchMetadata := λ t field,
       match t with
       | PodSpec =>
           if bool_decide (field = "containers") then Ok (ContainerList, "merge", "name")
           else if bool_decide (field = "finalizers") then Ok (StringList, "merge", "")
           else if bool_decide (field = "selector") then Ok (Plain, "replace", "")
           else Ok (Plain, "", "")
       | Container => Ok (Plain, "", "")
       | _ => Err (ErrLookup "merging an object in json but data type is not map or struct")
       end |}.

End StrategicPatch.

(** * Properties of the priority work queue *)

Module WorkQueueSpec.
Import WorkQueue.

Section queue_facts.
Context {T : Type} `{Countable T}.
Implicit Types (q : PriorityType T) (x item : T) (p : Z).

Lemma Add_shuttingDown q x : shuttingDown q = true → Add x q = q.
Proof. intros Hs. unfold Add. by rewrite Hs. Qed.

Lemma bucket_enqueue q p item p' :
  bucket (enqueue q p item) p' =
    if decide (p = p') then bucket q p ++ [item] else bucket q p'.
Proof.
  unfold enqueue, bucket; simpl.
  case_decide as Hp; [subst; by rewrite lookup_insert_eq|by rewrite lookup_insert_ne].
Qed.

Lemma clipInt_range v lo hi : lo ≤ hi → lo ≤ clipInt v lo hi ≤ hi.
Proof. intros Hle. unfold clipInt. repeat case_decide; lia. Qed.


(** The scan of [Get] stops at the highest non-empty level it visits. *)
Lemma scanDown_Some q i steps p :
  scanDown q i steps = Some p →
  i - Z.of_nat steps < p ≤ i ∧ bucket q p ≠ [] ∧ ∀ p', p < p' ≤ i → bucket q p' = [].
Proof.
  revert i. induction steps as [|k IH]; intros i Hscan; [done|].
  simpl in Hscan. destruct (bucket q i) as [|y l] eqn:Hb.
  - apply IH in Hscan as (Hr & Hne & Habove). split; [lia|]. split; [done|].
    intros p' Hp'. destruct (decide (p' = i)) as [->|]; [done|]. apply Habove. lia.
  - injection Hscan as <-. split; [lia|]. split; [by rewrite Hb|]. intros p' Hp'. lia.
Qed.

Lemma scanDown_None q i steps :
  scanDown q i steps = None → ∀ p', i - Z.of_nat steps < p' ≤ i → bucket q p' = [].
Proof.
  revert i. induction steps as [|k IH]; intros i Hscan p' Hp'; [lia|].
  simpl in Hscan. destruct (bucket q i) as [|y l] eqn:Hb; [|done].
  destruct (decide (p' = i)) as [->|]; [done|]. apply (IH (i - 1)); [done|lia].
Qed.

Lemma lenFrom_zero q i steps :
  lenFrom q i steps = O ↔ ∀ p, i ≤ p < i + Z.of_nat steps → bucket q p = [].
Proof.
  revert i. induction steps as [|k IH]; intros i; simpl.
  - split; [intros _ p Hp; lia|done].
  - split.
    + intros Hlen p Hp.
      assert (length (bucket q i) = O ∧ lenFrom q (i + 1) k = O) as [H0 Hk] by lia.
      destruct (decide (p = i)) as [->|]; [by apply nil_length_inv|].
      apply (proj1 (IH (i + 1)) Hk). lia.
    + intros Hall. rewrite (Hall i) by lia. simpl.
      apply IH. intros p Hp. apply Hall. lia.
Qed.

(** A call to [Get] on a queue with [Len() > 0]: the level it takes from is
    within range, is the highest non-empty one, and the head of that bucket
    moves from [dirty] to [processing]. *)
Lemma Get_nonempty q :
  lenNoLock q ≠ O →
  ∃ p item rest,
    minPriority q ≤ p ≤ maxPriority q ∧
    bucket q p = item :: rest ∧
    (∀ p', p < p' ≤ maxPriority q → bucket q p' = []) ∧
    Get q = (GetItem item,
             with_dirty
               (with_processing
                  (with_priorityQueue q (<[p := rest]> (priorityQueue q)))
                  ({[item]} ∪ processing q))
               (dirty q ∖ {[item]})).
Proof.
  intros Hlen. unfold Get. destruct (decide (lenNoLock q = O)) as [|_]; [done|].
  destruct (scanDown q (maxPriority q) (levels q)) as [p|] eqn:Hscan.
  - apply scanDown_Some in Hscan as (Hr & Hne & Habove). simpl.
    destruct (bucket q p) as [|item rest] eqn:Hb; [done|].
    exists p, item, rest. unfold levels in Hr. split; [lia|]. done.
  - exfalso. apply Hlen. unfold lenNoLock. apply lenFrom_zero. intros p Hp.
    apply (scanDown_None _ _ _ Hscan). unfold levels in *. lia.
Qed.

Lemma Get_empty q :
  lenNoLock q = O →
  Get q = (if shuttingDown q then GetShutdown else GetWait, q).
Proof.
  intros Hlen. unfold Get. destruct (decide (lenNoLock q = O)); [|done].
  by destruct (shuttingDown q).
Qed.

Lemma Get_no_insertion q : no_insertion q (Get q).2.
Proof.
  intros p'. destruct (decide (lenNoLock q = O)) as [H0|Hn].
  - rewrite (Get_empty _ H0). done.
  - destruct (Get_nonempty _ Hn) as (p & item & rest & _ & Hb & _ & ->). simpl.
    unfold bucket at 1; simpl. destruct (decide (p = p')) as [<-|Hne].
    + rewrite lookup_insert_eq, Hb. simpl. by exists [item].
    + rewrite lookup_insert_ne by done. done.
Qed.

Lemma Get_shuttingDown q : shuttingDown (Get q).2 = shuttingDown q.
Proof.
  destruct (decide (lenNoLock q = O)) as [H0|Hn].
  - by rewrite (Get_empty _ H0).
  - by destruct (Get_nonempty _ Hn) as (p & item & rest & _ & _ & _ & ->).
Qed.

Lemma Done_dirty q x :
  x ∈ dirty q →
  priorityQueue (Done x q) =
    <[getPriorityFunc q x := bucket q (getPriorityFunc q x) ++ [x]]> (priorityQueue q).
Proof. intros Hd. unfold Done. simpl. by rewrite decide_True. Qed.

Lemma Done_clean q x : x ∉ dirty q → priorityQueue (Done x q) = priorityQueue q.
Proof. intros Hd. unfold Done. simpl. by rewrite decide_False. Qed.

Lemma Done_shuttingDown q x : shuttingDown (Done x q) = shuttingDown q.
Proof. unfold Done. simpl. by case_decide. Qed.

(** [Add] keeps every bucket within [minPriority .. maxPriority]. *)
Lemma Add_buckets_in_range q x :
  minPriority q ≤ maxPriority q → buckets_in_range q → buckets_in_range (Add x q).
Proof.
  intros Hle Hin. unfold Add. destruct (shuttingDown q); [done|].
  case_decide; [done|]. simpl. case_decide; [done|].
  intros p item. rewrite bucket_enqueue. simpl. case_decide as Hp.
  - subst p. intros _. apply clipInt_range. done.
  - apply Hin.
Qed.




(** C4, as amended. Once [shuttingDown] is set it stays set; [Add] and
    [Get] insert no item into any bucket, and [Done(x)] inserts [x], at the
    end of the bucket of its priority, exactly when [x] is still dirty
    (it was re-added while being processed). *)
Theorem after_shutdown_insertions (q : PriorityType T) :
  shuttingDown q = true →
  (∀ x, Add x q = q) ∧
  no_insertion q (Get q).2 ∧
  (∀ x, x ∉ dirty q → priorityQueue (Done x q) = priorityQueue q) ∧
  (∀ x, x ∈ dirty q →
     priorityQueue (Done x q) =
       <[getPriorityFunc q x := bucket q (getPriorityFunc q x) ++ [x]]> (priorityQueue q)) ∧
  shuttingDown (Get q).2 = true ∧
  (∀ x, shuttingDown (Done x q) = true).
Proof.
  intros Hs. split; [intros x; by apply Add_shuttingDown|].
  split; [apply Get_no_insertion|].
  split; [intros x; apply Done_clean|].
  split; [intros x; apply Done_dirty|].
  split; [by rewrite Get_shuttingDown|].
  intros x. by rewrite Done_shuttingDown.
Qed.


End queue_facts.

(** The run [Add("x"); Get(); Add("x"); ShutDown()] of the default queue:
    ["x"] is being processed and dirty when the queue shuts down. *)
Lemma shut_down_while_dirty :
  let q := ShutDown (Add "x" (Get (Add "x" (NewPriority (T := string)))).2) in
  shuttingDown q = true ∧ "x" ∈ dirty q ∧ "x" ∈ processing q ∧ bucket q 0 = [].
Proof. cbv zeta. repeat split; by vm_compute. Qed.

(** C4, counterexample. After [Add("x"); Get(); Add("x"); ShutDown()] the
    call [Done("x")] puts ["x"] back into bucket 0. *)
Lemma Done_after_ShutDown_inserts :
  let q := ShutDown (Add "x" (Get (Add "x" (NewPriority (T := string)))).2) in
  shuttingDown q = true ∧ ¬ no_insertion q (Done "x" q).
Proof.
  cbv zeta. split; [by vm_compute|]. intros Hno. specialize (Hno 0).
  vm_compute in Hno. destruct Hno as [k Hk]. destruct k; discriminate.
Qed.

Lemma after_shutdown_insertions_witness :
  let q := ShutDown (Add "x" (Get (Add "x" (NewPriority (T := string)))).2) in
  (∀ x, Add x q = q) ∧
  no_insertion q (Get q).2 ∧
  (∀ x, x ∉ dirty q → priorityQueue (Done x q) = priorityQueue q) ∧
  (∀ x, x ∈ dirty q →
     priorityQueue (Done x q) =
       <[getPriorityFunc q x := bucket q (getPriorityFunc q x) ++ [x]]> (priorityQueue q)) ∧
  shuttingDown (Get q).2 = true ∧
  (∀ x, shuttingDown (Done x q) = true).
Proof. cbv zeta. apply after_shutdown_insertions. reflexivity. Defined.






(** C5, the failing run. With [maxPriority = 2] and a priority function
    that answers 5, [Add("x"); Get(); Add("x"); Done("x")] leaves ["x"] in
    bucket 5, outside [minPriority .. maxPriority]: [Done] appends at
    [getPriorityFunc(item)] without the [clipInt] that [Add] applies.  The
    item is then counted by no [Len] and reached by no [Get], while it
    stays dirty, so that later [Add("x")] calls are dropped as well. *)
Theorem Done_enqueues_unclipped :
  let q0 := NewNamedPriority (T := string) 2 (λ _, 5) in
  let q1 := Add "x" q0 in
  let q4 := Done "x" (Add "x" (Get q1).2) in
  buckets_in_range q1 ∧ bucket q1 2 = ["x"] ∧
  bucket q4 5 = ["x"] ∧ ¬ buckets_in_range q4 ∧
  Len q4 = O ∧ Get q4 = (GetWait, q4) ∧ Add "x" q4 = q4.
Proof.
  cbv zeta. split.
  - apply Add_buckets_in_range; [by vm_compute|]. intros p item. vm_compute.
    intros Hin. by apply elem_of_nil in Hin.
  - split; [by vm_compute|]. split; [by vm_compute|]. split.
    + intros Hin. specialize (Hin 5 "x"). 
      assert (bucket (Done "x" (Add "x" (Get (Add "x"
                (NewNamedPriority (T := string) 2 (λ _, 5)))).2)) 5 = ["x"])
        as Hb by (by vm_compute).
      rewrite Hb in Hin. specialize (Hin (list_elem_of_here _ _)).
      vm_compute in Hin. destruct Hin as [_ Hle]. by apply Hle.
    + split; [by vm_compute|]. split; by vm_compute.
Qed.

(** ** The queue over whole runs *)

Section queue_runs.
Context {T : Type} `{Countable T}.
Implicit Types (q : PriorityType T) (x item : T) (p : Z).

Lemma Add_dirty q x : x ∈ dirty q → Add x q = q.
Proof. intros Hd. unfold Add. destruct (shuttingDown q); [done|]. by rewrite decide_True. Qed.

(** What [Add] does to an item the running queue does not know. *)
Lemma Add_fresh q x :
  shuttingDown q = false → x ∉ dirty q → x ∉ processing q →
  Add x q = enqueue (with_dirty q ({[x]} ∪ dirty q))
              (clipInt (getPriorityFunc q x) (minPriority q) (maxPriority q)) x.
Proof.
  intros Hs Hd Hp. unfold Add. rewrite Hs. rewrite decide_False by done.
  cbn. by rewrite decide_False.
Qed.

Lemma Add_processing q x :
  shuttingDown q = false → x ∉ dirty q → x ∈ processing q →
  Add x q = with_dirty q ({[x]} ∪ dirty q).
Proof.
  intros Hs Hd Hp. unfold Add. rewrite Hs. rewrite decide_False by done.
  cbn. by rewrite decide_True.
Qed.

(** Appending an item that is in no bucket keeps the items of the buckets
    distinct. *)
Lemma enqueue_distinct q p x :
  (∀ p', x ∉ bucket q p') →
  (∀ p1 p2 i j item,
     bucket q p1 !! i = Some item → bucket q p2 !! j = Some item → p1 = p2 ∧ i = j) →
  ∀ p1 p2 i j item,
    bucket (enqueue q p x) p1 !! i = Some item →
    bucket (enqueue q p x) p2 !! j = Some item → p1 = p2 ∧ i = j.
Proof.
  intros Hnew Hold p1 p2 i j item. rewrite !bucket_enqueue.
  assert (∀ p' k, bucket q p' !! k = Some x → False) as Hnot.
  { intros p' k Hk. apply (Hnew p'). by eapply list_elem_of_lookup_2. }
  destruct (decide (p = p1)) as [<-|Hp1], (decide (p = p2)) as [<-|Hp2].
  - rewrite !lookup_snoc_Some.
    intros [[_ Hi]|[-> <-]] [[_ Hj]|[-> Hx]].
    + split; [done|]. by destruct (Hold _ _ _ _ _ Hi Hj).
    + subst. by destruct (Hnot _ _ Hi).
    + by destruct (Hnot _ _ Hj).
    + done.
  - rewrite lookup_snoc_Some. intros [[_ Hi]|[-> <-]] Hj.
    + by destruct (Hold _ _ _ _ _ Hi Hj).
    + by destruct (Hnot _ _ Hj).
  - rewrite lookup_snoc_Some. intros Hi [[_ Hj]|[-> <-]].
    + by destruct (Hold _ _ _ _ _ Hi Hj).
    + by destruct (Hnot _ _ Hi).
  - apply Hold.
Qed.

Lemma consistent_new (maxP : Z) (f : T → Z) : queue_consistent (newPriorityQueue maxP f).
Proof.
  split.
  - intros p item Hin. unfold bucket in Hin. cbn in Hin.
    rewrite lookup_empty in Hin. by apply elem_of_nil in Hin.
  - intros p1 p2 i j item Hi. unfold bucket in Hi. cbn in Hi.
    rewrite lookup_empty in Hi. done.
Qed.

Lemma consistent_Add q x : queue_consistent q → queue_consistent (Add x q).
Proof.
  intros [Hsets Hdist].
  destruct (shuttingDown q) eqn:Hs; [by rewrite Add_shuttingDown|].
  destruct (decide (x ∈ dirty q)) as [Hd|Hd]; [by rewrite Add_dirty|].
  destruct (decide (x ∈ processing q)) as [Hp|Hp].
  - rewrite Add_processing by done. split; [|exact Hdist].
    intros p item Hin. destruct (Hsets p item Hin) as [Hid Hip].
    split; [|done]. cbn. by apply elem_of_union_r.
  - rewrite Add_fresh by done.
    set (q1 := with_dirty q ({[x]} ∪ dirty q)).
    assert (∀ p', x ∉ bucket q1 p') as Hnew.
    { intros p' Hin. by destruct (Hsets p' x Hin). }
    split; [|by apply enqueue_distinct].
    intros p item. rewrite bucket_enqueue. cbn.
    case_decide as Hpp.
    + rewrite elem_of_app, list_elem_of_singleton. intros [Hin| ->].
      * destruct (Hsets _ _ Hin). split; [by apply elem_of_union_r|done].
      * split; [apply elem_of_union_l; by apply elem_of_singleton|done].
    + intros Hin. destruct (Hsets _ _ Hin). split; [by apply elem_of_union_r|done].
Qed.

Lemma consistent_Get q : queue_consistent q → queue_consistent (Get q).2.
Proof.
  intros [Hsets Hdist].
  destruct (decide (lenNoLock q = O)) as [H0|Hn].
  { rewrite (Get_empty _ H0). done. }
  destruct (Get_nonempty _ Hn) as (p & item & rest & _ & Hb & _ & ->). cbn [snd].
  assert (∀ p' k y,
    bucket (with_dirty (with_processing
              (with_priorityQueue q (<[p:=rest]> (priorityQueue q)))
              ({[item]} ∪ processing q)) (dirty q ∖ {[item]})) p' !! k = Some y →
    ∃ k', bucket q p' !! k' = Some y ∧ (p' = p → k' = S k) ∧ (p' ≠ p → k' = k)) as Hlook.
  { intros p' k y. unfold bucket at 1. cbn.
    destruct (decide (p' = p)) as [->|Hne].
    - rewrite lookup_insert_eq. cbn. intros Hk. exists (S k). rewrite Hb. done.
    - rewrite lookup_insert_ne by done. intros Hk. exists k. done. }
  split.
  - intros p' y Hin. apply list_elem_of_lookup_1 in Hin as [k Hk].
    destruct (Hlook _ _ _ Hk) as (k' & Hk' & Heq & Hne).
    destruct (Hsets p' y (list_elem_of_lookup_2 _ _ _ Hk')) as [Hyd Hyp].
    assert (y ≠ item) as Hy.
    { intros ->. assert (bucket q p !! O = Some item) as H0 by (by rewrite Hb).
      destruct (Hdist _ _ _ _ _ Hk' H0) as [-> ->]. by specialize (Heq eq_refl). }
    cbn. split.
    + apply elem_of_difference. split; [done|]. by rewrite elem_of_singleton.
    + rewrite elem_of_union, elem_of_singleton. tauto.
  - intros p1 p2 i j y Hi Hj.
    destruct (Hlook _ _ _ Hi) as (i' & Hi' & Hieq & Hine).
    destruct (Hlook _ _ _ Hj) as (j' & Hj' & Hjeq & Hjne).
    destruct (Hdist _ _ _ _ _ Hi' Hj') as [-> Hij]. split; [done|].
    destruct (decide (p2 = p)) as [Hp|Hp].
    + specialize (Hieq Hp). specialize (Hjeq Hp). lia.
    + specialize (Hine Hp). specialize (Hjne Hp). lia.
Qed.

Lemma consistent_Done q x :
  x ∈ processing q → queue_consistent q → queue_consistent (Done x q).
Proof.
  intros Hp [Hsets Hdist]. unfold Done.
  set (q1 := with_processing q (processing q ∖ {[x]})).
  assert (∀ p item, item ∈ bucket q1 p → item ∈ dirty q1 ∧ item ∉ processing q1) as Hsets1.
  { intros p item Hin. destruct (Hsets p item Hin) as [Hid Hip]. split; [done|].
    cbn. rewrite elem_of_difference. tauto. }
  case_decide as Hd; [|by split].
  assert (∀ p', x ∉ bucket q1 p') as Hnew.
  { intros p' Hin. by destruct (Hsets p' x Hin). }
  split; [|by apply enqueue_distinct].
  intros p item. rewrite bucket_enqueue. case_decide as Hpp.
  - rewrite elem_of_app, list_elem_of_singleton. intros [Hin| ->].
    + by apply Hsets1 in Hin.
    + split; [done|]. cbn. rewrite elem_of_difference, elem_of_singleton. tauto.
  - intros Hin. by apply Hsets1 in Hin.
Qed.

Lemma calls_cons (c : Call T) (cs : list (Call T)) q :
  calls (c :: cs) q = calls cs (call c q).
Proof. done. Qed.


Lemma consistent_calls (cs : list (Call T)) q :
  queue_consistent q → doneOnlyProcessing cs q = true → queue_consistent (calls cs q).
Proof.
  revert q. induction cs as [|c cs IH]; intros q Hq Hcs; [done|].
  rewrite calls_cons. cbn in Hcs. apply andb_true_iff in Hcs as [Hc Hcs].
  apply IH; [|done]. destruct c as [x| |x| |]; cbn.
  - by apply consistent_Add.
  - by apply consistent_Get.
  - apply consistent_Done; [|done]. by apply bool_decide_eq_true in Hc.
  - done.
  - done.
Qed.

(** X1. In every state reached from a new queue by calls that respect the
    contract of [Get] (a worker calls [Done] for items it is processing),
    every queued item is in the dirty set and not in the processing set, and
    no item is queued twice. *)
Theorem queue_stays_consistent (maxP : Z) (f : T → Z) (cs : list (Call T)) :
  doneOnlyProcessing cs (NewNamedPriority maxP f) = true →
  queue_consistent (calls cs (NewNamedPriority maxP f)).
Proof. intros Hcs. apply consistent_calls; [apply consistent_new|done]. Qed.

(** X2. In every such state, [Get] does not hand out an item that is being
    processed: two workers never hold the same item at the same time. *)
Theorem Get_never_hands_out_processing (maxP : Z) (f : T → Z) (cs : list (Call T)) x :
  doneOnlyProcessing cs (NewNamedPriority maxP f) = true →
  (Get (calls cs (NewNamedPriority maxP f))).1 = GetItem x →
  (x ∉ processing (calls cs (NewNamedPriority maxP f))) ∧
  x ∈ processing (Get (calls cs (NewNamedPriority maxP f))).2.
Proof.
  intros Hcs HG.
  destruct (consistent_calls cs (NewNamedPriority maxP f)) as [Hsets _];
    [apply consistent_new|done|].
  set (q := calls cs (NewNamedPriority maxP f)) in *.
  destruct (decide (lenNoLock q = O)) as [H0|Hn].
  { rewrite (Get_empty _ H0) in HG. cbn in HG. by destruct (shuttingDown q). }
  destruct (Get_nonempty _ Hn) as (p & item & rest & _ & Hb & _ & HGet).
  rewrite HGet in HG |- *. cbn in HG. injection HG as ->. split.
  - apply (Hsets p x). rewrite Hb. apply list_elem_of_here.
  - cbn. apply elem_of_union_l. by apply elem_of_singleton.
Qed.

End queue_runs.

(** ** Length and order *)

Section queue_order.
Context {T : Type} `{Countable T}.
Implicit Types (q : PriorityType T) (x item : T) (p : Z).

(** X3. [Add] of an item is idempotent: the second call finds the item dirty,
    or the queue shutting down. *)
Theorem Add_twice q x : Add x (Add x q) = Add x q.
Proof.
  assert (Add x q = q ∨ x ∈ dirty (Add x q)) as [Heq|Hd].
  { unfold Add. destruct (shuttingDown q); [by left|].
    case_decide as Hd; [by left|]. right. cbn.
    case_decide; cbn; apply elem_of_union_l; by apply elem_of_singleton. }
  - by rewrite !Heq.
  - by apply Add_dirty.
Qed.







Lemma queuedFrom_same q q' i steps :
  (∀ p', bucket q' p' = bucket q p') → queuedFrom q' i steps = queuedFrom q i steps.
Proof.
  intros Hb. revert i. induction steps as [|k IH]; intros i; [done|].
  cbn [queuedFrom]. by rewrite Hb, IH.
Qed.








End queue_order.

(** ** Runs from a new queue *)

Section queue_scenarios.
Context {T : Type} `{Countable T}.
Implicit Types (q : PriorityType T) (x item : T) (p : Z).





Lemma call_bounds (c : Call T) q :
  minPriority (call c q) = minPriority q ∧ maxPriority (call c q) = maxPriority q.
Proof.
  destruct c as [x| |x| |]; cbn; try done.
  - unfold Add. destruct (shuttingDown q); [done|]. by repeat case_decide.
  - destruct (decide (lenNoLock q = O)) as [H0|Hn]; [by rewrite (Get_empty _ H0)|].
    by destruct (Get_nonempty _ Hn) as (p & item & rest & _ & _ & _ & ->).
  - unfold Done. by case_decide.
Qed.

Lemma calls_bounds (cs : list (Call T)) q :
  minPriority (calls cs q) = minPriority q ∧ maxPriority (calls cs q) = maxPriority q.
Proof.
  revert q. induction cs as [|c cs IH]; intros q; [done|].
  rewrite calls_cons. destruct (IH (call c q)) as [-> ->]. apply call_bounds.
Qed.

(** X8. A queue built with a negative [maxPriority] has no level: whatever is
    called on it, [Len] is zero and [Get] hands out no item. *)
Theorem negative_maxPriority_queue_is_dead (maxP : Z) (f : T → Z) (cs : list (Call T)) :
  maxP < 0 →
  Len (calls cs (NewNamedPriority maxP f)) = O ∧
  Get (calls cs (NewNamedPriority maxP f)) =
    (if shuttingDown (calls cs (NewNamedPriority maxP f)) then GetShutdown else GetWait,
     calls cs (NewNamedPriority maxP f)).
Proof.
  intros Hneg. set (q := calls cs (NewNamedPriority maxP f)).
  assert (Len q = O) as H0.
  { unfold Len, lenNoLock, levels.
    destruct (calls_bounds cs (NewNamedPriority maxP f)) as [Hmin Hmx].
    fold q in Hmin, Hmx. rewrite Hmin, Hmx. cbn.
    unfold defaultMinPriority. assert (Z.to_nat (maxP - 0 + 1) = O) as -> by lia. done. }
  split; [done|]. by apply Get_empty.
Qed.

Lemma call_drain (c : Call T) q :
  c ≠ CallShutDown → drain q = true → drain (call c q) = true.
Proof.
  intros Hc Hd. destruct c as [x| |x| |]; cbn; try done.
  - unfold Add. destruct (shuttingDown q); [done|]. by repeat case_decide.
  - destruct (decide (lenNoLock q = O)) as [H0|Hn]; [by rewrite (Get_empty _ H0)|].
    by destruct (Get_nonempty _ Hn) as (p & item & rest & _ & _ & _ & ->).
  - unfold Done. by case_decide.
Qed.

(** X9. [ShutDownWithDrain] keeps waiting exactly as long as items are being
    processed, whatever [Add], [Get] and [Done] calls come in between; a
    call of [ShutDown] ends the wait at once. *)
Theorem drain_wait q (cs : list (Call T)) :
  Forall (λ c, c ≠ CallShutDown) cs →
  drainWaits (calls cs (ShutDownWithDrain q))
    = bool_decide (processing (calls cs (ShutDownWithDrain q)) ≠ ∅) ∧
  drainWaits (ShutDown (calls cs (ShutDownWithDrain q))) = false.
Proof.
  intros Hcs. split.
  - assert (drain (calls cs (ShutDownWithDrain q)) = true) as Hd.
    { assert (drain (ShutDownWithDrain q) = true) as Hd0 by done.
      revert Hd0. generalize (ShutDownWithDrain q). clear q.
      induction Hcs as [|c cs Hc Hcs IH]; intros q Hd; [done|].
      rewrite calls_cons. apply IH. by apply call_drain. }
    unfold drainWaits, shouldDrain, isProcessing. rewrite Hd, andb_true_r.
    apply bool_decide_ext. rewrite size_non_empty_iff. by unfold_leibniz.
  - unfold drainWaits, shouldDrain. cbn. apply andb_false_r.
Qed.

End queue_scenarios.

(** ** The runs above on the default queue *)

Lemma queue_stays_consistent_witness :
  queue_consistent
    (calls [CallAdd "x"; CallGet; CallAdd "x"; CallDone "x"]
       (NewNamedPriority (T := string) 12 (λ _, 0))).
Proof. apply queue_stays_consistent. vm_compute. reflexivity. Defined.

Lemma Get_never_hands_out_processing_witness :
  let q := calls [CallAdd "x"; CallGet; CallAdd "y"]
             (NewNamedPriority (T := string) 12 (λ _, 0)) in
  ("y" ∉ processing q) ∧ "y" ∈ processing (Get q).2.
Proof.
  cbv zeta. apply Get_never_hands_out_processing.
  - vm_compute. reflexivity.
  - vm_compute. reflexivity.
Defined.



(** The order of that run, computed. *)
Lemma Get_by_priority_then_insertion_run :
  let f := λ s : string, if decide (s = "hi") then 2 else 0 in
  getMany 3 (calls (CallAdd <$> ["lo"; "hi"; "lo2"]) (NewNamedPriority 12 f))
    = ["hi"; "lo"; "lo2"].
Proof. by vm_compute. Qed.

Lemma negative_maxPriority_queue_is_dead_witness :
  let q := calls [CallAdd "x"] (NewNamedPriority (T := string) (-1) (λ _, 0)) in
  Len q = O ∧ Get q = (if shuttingDown q then GetShutdown else GetWait, q).
Proof. cbv zeta. apply negative_maxPriority_queue_is_dead. lia. Defined.

Lemma drain_wait_witness :
  let q := (Get (Add "x" (NewPriority (T := string)))).2 in
  drainWaits (calls [CallDone "x"] (ShutDownWithDrain q))
    = bool_decide (processing (calls [CallDone "x"] (ShutDownWithDrain q)) ≠ ∅) ∧
  drainWaits (ShutDown (calls [CallDone "x"] (ShutDownWithDrain q))) = false.
Proof.
  cbv zeta. apply drain_wait. apply Forall_cons. split; [discriminate|apply Forall_nil_2].
Defined.

End WorkQueueSpec.

(** * Properties of the strategic merge patch engine *)

Module StrategicPatchSpec.
Import StrategicPatch.

(** ** Loops *)

Section loops.
Context {A B : Type}.
Implicit Types (f : B → A → result B) (l : list A).

Lemma foldM_app f b l1 l2 :
  foldM f b (l1 ++ l2) = b' ← foldM f b l1; foldM f b' l2.
Proof.
  revert b. induction l1 as [|x l1 IH]; intros b; simpl; [done|].
  destruct (f b x) as [b'|e]; simpl; [apply IH|done].
Qed.

Lemma foldM_singleton f b x : foldM f b [x] = f b x.
Proof. simpl. by destruct (f b x). Qed.

(** An invariant of the loop state that every iteration keeps, as long as
    the loop does not return an error. *)
Lemma foldM_invariant (P : B → Prop) f b l r :
  P b →
  (∀ b x b', x ∈ l → P b → f b x = Ok b' → P b') →
  foldM f b l = Ok r → P r.
Proof.
  revert b. induction l as [|x l IH]; intros b Hb Hstep; simpl.
  - by intros [= <-].
  - destruct (f b x) as [b'|e] eqn:Hf; simpl; [|done].
    apply IH.
    + eapply Hstep; [apply list_elem_of_here|done|done].
    + intros b0 y b0' Hy. apply Hstep. by apply list_elem_of_further.
Qed.

(** A loop whose iterations never run out of fuel does not either. *)
Lemma foldM_genuine (P : B → Prop) f b l :
  P b →
  (∀ b x, x ∈ l → P b → f b x ≠ Err OutOfFuel ∧ ∀ b', f b x = Ok b' → P b') →
  foldM f b l ≠ Err OutOfFuel.
Proof.
  revert b. induction l as [|x l IH]; intros b Hb Hstep; simpl; [done|].
  destruct (Hstep b x (list_elem_of_here _ _) Hb) as [Hne HP].
  destruct (f b x) as [b'|e] eqn:Hf; simpl; [|done].
  apply IH; [by apply HP|].
  intros b0 y Hy. apply Hstep. by apply list_elem_of_further.
Qed.

(** A loop all of whose iterations succeed, succeeds. *)
Lemma foldM_ok (P : B → Prop) f b l :
  P b →
  (∀ b x, x ∈ l → P b → ∃ b', f b x = Ok b' ∧ P b') →
  ∃ r, foldM f b l = Ok r ∧ P r.
Proof.
  revert b. induction l as [|x l IH]; intros b Hb Hstep; simpl; [by exists b|].
  destruct (Hstep b x (list_elem_of_here _ _) Hb) as (b' & -> & Hb'). simpl.
  apply IH; [done|]. intros b0 y Hy. apply Hstep. by apply list_elem_of_further.
Qed.

(** Two loops over the same slice whose bodies agree on it are equal. *)
Lemma foldM_ext f g b l :
  (∀ b x, x ∈ l → f b x = g b x) → foldM f b l = foldM g b l.
Proof.
  revert b. induction l as [|x l IH]; intros b Hfg; simpl; [done|].
  rewrite <-(Hfg b x) by apply list_elem_of_here.
  destruct (f b x) as [b'|e]; simpl; [|done].
  apply IH. intros b0 y Hy. apply Hfg. by apply list_elem_of_further.
Qed.

End loops.


Lemma rangeM_singleton {A B} (f : B → string → A → result B) b k v :
  rangeM f b {[k := v]} = f b k v.
Proof. unfold rangeM. rewrite map_to_list_singleton. by rewrite foldM_singleton. Qed.

Lemma rangeM_invariant {A B} (P : B → Prop) (f : B → string → A → result B) b m r :
  P b →
  (∀ b k v b', m !! k = Some v → P b → f b k v = Ok b' → P b') →
  rangeM f b m = Ok r → P r.
Proof.
  intros Hb Hstep. unfold rangeM. apply foldM_invariant; [done|].
  intros b0 [k v] b' Hin. apply Hstep. by apply elem_of_map_to_list.
Qed.

Lemma rangeM_genuine {A B} (P : B → Prop) (f : B → string → A → result B) b m :
  P b →
  (∀ b k v, m !! k = Some v → P b →
     f b k v ≠ Err OutOfFuel ∧ ∀ b', f b k v = Ok b' → P b') →
  rangeM f b m ≠ Err OutOfFuel.
Proof.
  intros Hb Hstep. unfold rangeM. apply (foldM_genuine P); [done|].
  intros b0 [k v] Hin. apply Hstep. by apply elem_of_map_to_list.
Qed.

Lemma rangeM_ok {A B} (P : B → Prop) (f : B → string → A → result B) b m :
  P b →
  (∀ b k v, m !! k = Some v → P b → ∃ b', f b k v = Ok b' ∧ P b') →
  ∃ r, rangeM f b m = Ok r ∧ P r.
Proof.
  intros Hb Hstep. unfold rangeM. apply (foldM_ok P); [done|].
  intros b0 [k v] Hin. apply Hstep. by apply elem_of_map_to_list.
Qed.

Lemma rangeM_ext {A B} (f g : B → string → A → result B) b m :
  (∀ b k v, m !! k = Some v → f b k v = g b k v) → rangeM f b m = rangeM g b m.
Proof.
  intros Hfg. unfold rangeM. apply foldM_ext.
  intros b0 [k v] Hin. apply Hfg. by apply elem_of_map_to_list.
Qed.

(** ** Depth and equality of JSON values *)

Lemma depthMap_succ (m : JSONMap) :
  depthMap m = S (map_fold (λ _ v acc, depth v `max` acc)%nat O m).
Proof. reflexivity. Qed.

Lemma foldr_max_ge {A} (f : A → nat) (l : list A) (x : A) :
  x ∈ l → (f x ≤ foldr (λ v acc, f v `max` acc) O l)%nat.
Proof.
  induction l as [|y l IH]; intros Hin; [by apply elem_of_nil in Hin|].
  apply elem_of_cons in Hin as [->|Hin]; simpl; [lia|]. specialize (IH Hin). lia.
Qed.

Lemma depth_lookup (m : JSONMap) (k : string) (v : JSON) :
  m !! k = Some v → (depth v < depthMap m)%nat.
Proof.
  intros Hk. rewrite depthMap_succ, map_fold_foldr.
  apply elem_of_map_to_list in Hk.
  pose proof (foldr_max_ge (λ kv : string * JSON, depth kv.2) _ _ Hk) as Hle.
  simpl in Hle.
  assert (∀ l : list (string * JSON),
    foldr (uncurry (λ (_ : string) (v0 : JSON) (acc : nat), (depth v0 `max` acc)%nat)) 0%nat l
    = foldr (λ (v0 : string * JSON) (acc : nat), (depth v0.2 `max` acc)%nat) 0%nat l) as ->.
  { intros l. induction l as [|[k' v'] l IH]; simpl; [done|]. by rewrite IH. }
  lia.
Qed.

Lemma depth_elem (l : list JSON) (v : JSON) :
  v ∈ l → (depth v < depth (JArray l))%nat.
Proof. intros Hin. simpl. pose proof (foldr_max_ge depth _ _ Hin). lia. Qed.

Lemma depth_object_elem (l : list JSON) (m : JSONMap) :
  JObject m ∈ l → (depthMap m < depth (JArray l))%nat.
Proof. intros Hin. apply (depth_elem _ _ Hin). Qed.

(** Induction on JSON values. *)
Lemma JSON_ind (P : JSON → Prop) :
  P JNull → (∀ b, P (JBool b)) → (∀ n, P (JNumber n)) → (∀ s, P (JString s)) →
  (∀ l, Forall P l → P (JArray l)) →
  (∀ m, map_Forall (λ _, P) m → P (JObject m)) →
  ∀ j, P j.
Proof.
  intros Hnull Hbool Hnum Hstr Harr Hobj j.
  remember (depth j) as d eqn:Hd. revert j Hd.
  induction d as [d IH] using lt_wf_ind. intros j ->.
  destruct j as [|b|n|s|l|m]; [done..| |].
  - apply Harr. apply Forall_forall. intros v Hv.
    apply (IH (depth v)); [by apply depth_elem|done].
  - apply Hobj. intros k v Hk.
    apply (IH (depth v)); [by apply (depth_lookup _ _ _ Hk)|done].
Qed.

Lemma map_fold_and {A} (P : string → A → bool) (m : gmap string A) :
  map_fold (λ k v acc, P k v && acc) true m = true ↔ ∀ k v, m !! k = Some v → P k v = true.
Proof.
  rewrite map_fold_foldr. 
  assert (foldr (uncurry (λ k v acc, P k v && acc)) true (map_to_list m) = true
          ↔ ∀ kv, kv ∈ map_to_list m → P kv.1 kv.2 = true) as ->.
  { induction (map_to_list m) as [|[k v] l IH]; simpl.
    - split; [intros _ kv Hin; by apply elem_of_nil in Hin|done].
    - rewrite andb_true_iff, IH. split.
      + intros [Hk Hl] kv Hin. apply elem_of_cons in Hin as [->|Hin]; [done|by apply Hl].
      + intros Hall. split; [apply (Hall (k, v)); apply list_elem_of_here|].
        intros kv Hin. apply Hall. by apply list_elem_of_further. }
  split.
  - intros Hall k v Hk. apply (Hall (k, v)). by apply elem_of_map_to_list.
  - intros Hall [k v] Hin. apply Hall. by apply elem_of_map_to_list.
Qed.

Lemma DeepEqual_array (l1 l2 : list JSON) :
  DeepEqual (JArray l1) (JArray l2) = true ↔ Forall2 (λ x y, DeepEqual x y = true) l1 l2.
Proof.
  simpl. revert l2. induction l1 as [|x l1 IH]; intros [|y l2]; simpl.
  - split; [constructor|done].
  - split; [done|intros Hf; inversion Hf].
  - split; [done|intros Hf; inversion Hf].
  - rewrite andb_true_iff, IH. split; [intros [??]; by constructor|].
    intros Hf; by inversion Hf.
Qed.

Lemma DeepEqual_spec (a b : JSON) : DeepEqual a b = true ↔ a = b.
Proof.
  revert b. induction a as [|x|x|x|l1 IH|m1 IH] using JSON_ind; intros b.
  - destruct b; simpl; split; congruence.
  - destruct b; simpl; try (split; congruence).
    rewrite bool_decide_eq_true. split; congruence.
  - destruct b; simpl; try (split; congruence).
    rewrite bool_decide_eq_true. split; congruence.
  - destruct b; simpl; try (split; congruence).
    rewrite bool_decide_eq_true. split; congruence.
  - destruct b as [| | | |l2|]; try (simpl; split; congruence).
    rewrite DeepEqual_array. split.
    + intros Hf. f_equal. revert IH. induction Hf as [|x y l1 l2 Hxy Hf IHf]; intros IH; [done|].
      inversion IH as [|? ? Hx Hl]; subst. f_equal; [by apply Hx|by apply IHf].
    + intros [= <-]. induction IH as [|x l1 Hx Hl IHl]; constructor; [by apply Hx|done].
  - destruct b as [| | | | |m2]; try (simpl; split; congruence).
    simpl. rewrite andb_true_iff, bool_decide_eq_true, map_fold_and. split.
    + intros [Hsize Hall]. f_equal. apply map_subseteq_size_eq; [|lia].
      apply map_subseteq_spec. intros k v Hk. specialize (Hall k v Hk).
      destruct (m2 !! k) as [v'|]; [|done]. f_equal. symmetry. by apply (IH k v Hk).
    + intros [= <-]. split; [done|]. intros k v Hk. rewrite Hk. by apply (IH k v Hk).
Qed.

Lemma DeepEqual_refl (a : JSON) : DeepEqual a a = true.
Proof. by apply DeepEqual_spec. Qed.

Lemma strEq_spec (a b : string) : strEq a b = true ↔ a = b.
Proof. unfold strEq. apply bool_decide_eq_true. Qed.

Lemma strEq_refl (a : string) : strEq a a = true.
Proof. by apply strEq_spec. Qed.

Lemma String_compare_refl (a : string) : String.compare a a = Eq.
Proof.
  induction a as [|c a IH]; simpl; [done|].
  unfold Ascii.compare. by rewrite N.compare_refl.
Qed.

Lemma strLt_irrefl (a : string) : strLt a a = false.
Proof. unfold strLt. by rewrite String_compare_refl. Qed.

(** ** Element types of slices *)

Lemma sliceElementType_flat (ls : list (list JSON)) :
  foldM (λ prev s, foldM sliceElementTypeStep prev s) None ls
  = foldM sliceElementTypeStep None (concat ls).
Proof.
  generalize (None : option jtype) as prev.
  induction ls as [|s ls IH]; intros prev; simpl; [done|].
  rewrite foldM_app. destruct (foldM sliceElementTypeStep prev s); simpl; [apply IH|done].
Qed.

Lemma sliceElementTypeStep_genuine prev v :
  sliceElementTypeStep prev v ≠ Err OutOfFuel.
Proof.
  unfold sliceElementTypeStep. destruct prev as [p|].
  - by case_decide.
  - by destruct (TypeOf v) as [[]|].
Qed.

Lemma sliceElementType_genuine (ls : list (list JSON)) :
  sliceElementType ls ≠ Err OutOfFuel.
Proof.
  unfold sliceElementType. rewrite sliceElementType_flat.
  pose proof (foldM_genuine (λ _, True) sliceElementTypeStep None (concat ls) I) as Hg.
  destruct (foldM sliceElementTypeStep None (concat ls)) as [[ty|]|e] eqn:E; simpl; try done.
  intros [= ->]. apply Hg; [|done]. intros b x _ _. split; [apply sliceElementTypeStep_genuine|done].
Qed.

Lemma sliceElementType_loop_Some (ty : jtype) (l : list JSON) r :
  foldM sliceElementTypeStep (Some ty) l = Ok r →
  r = Some ty ∧ ∀ v, v ∈ l → TypeOf v = Some ty.
Proof.
  revert r. induction l as [|x l IH]; intros r; simpl.
  - intros [= <-]. split; [done|]. intros v Hv. by apply elem_of_nil in Hv.
  - unfold sliceElementTypeStep at 1. case_decide as Hty; simpl; [|done].
    rewrite <-Hty. intros Hl. apply IH in Hl as [-> Hall]. split; [done|].
    intros v Hv. apply elem_of_cons in Hv as [->|Hv]; [done|by apply Hall].
Qed.

(** [sliceElementType] answers [ty] exactly when there is an element and
    every element has type [ty], which is not the slice type. *)
Lemma sliceElementType_Ok (ls : list (list JSON)) (ty : jtype) :
  sliceElementType ls = Ok ty →
  concat ls ≠ [] ∧ ty ≠ TSlice ∧ ∀ v, v ∈ concat ls → TypeOf v = Some ty.
Proof.
  unfold sliceElementType. rewrite sliceElementType_flat.
  destruct (concat ls) as [|x l]; simpl; [done|].
  unfold sliceElementTypeStep at 1.
  destruct (TypeOf x) as [tx|] eqn:Hx; [|done].
  assert (tx ≠ TSlice →
    (foldM sliceElementTypeStep (Some tx) l ≫= λ prevType : option jtype,
        match prevType with Some t => Ok t | None => Err ErrNoElements end) = Ok ty →
    x :: l ≠ [] ∧ ty ≠ TSlice ∧ ∀ v, v ∈ x :: l → TypeOf v = Some ty) as Hgo.
  { intros Hns. destruct (foldM sliceElementTypeStep (Some tx) l) as [r|e] eqn:E; [|done].
    apply sliceElementType_loop_Some in E as [-> Hall]. simpl. intros [= <-].
    split; [done|]. split; [done|]. intros v Hv.
    apply elem_of_cons in Hv as [->|Hv]; [done|by apply Hall]. }
  destruct tx; simpl. all: try (apply Hgo; done). intros Hf; discriminate Hf.
Qed.

Lemma sliceElementType_intro (ls : list (list JSON)) (ty : jtype) :
  concat ls ≠ [] → ty ≠ TSlice → (∀ v, v ∈ concat ls → TypeOf v = Some ty) →
  sliceElementType ls = Ok ty.
Proof.
  unfold sliceElementType. rewrite sliceElementType_flat.
  destruct (concat ls) as [|x l]; [done|]. intros _ Hns Hall.
  assert (∀ v, v ∈ x :: l → sliceElementTypeStep (Some ty) v = Ok (Some ty)) as Hstep.
  { intros v Hv. unfold sliceElementTypeStep. rewrite (Hall v Hv).
    by rewrite decide_True. }
  assert (sliceElementTypeStep None x = Ok (Some ty)) as Hx.
  { unfold sliceElementTypeStep. rewrite (Hall x) by apply list_elem_of_here.
    destruct ty; done. }
  assert (foldM sliceElementTypeStep (Some ty) l = Ok (Some ty)) as Hl.
  { assert (∀ v, v ∈ l → sliceElementTypeStep (Some ty) v = Ok (Some ty)) as Hstep'
      by (intros v Hv; apply Hstep; by apply list_elem_of_further).
    clear Hstep Hall Hx. induction l as [|y l IH]; [done|].
    cbn [foldM]. rewrite (Hstep' y) by apply list_elem_of_here.
    cbn [mbind result_bind]. apply IH.
    intros v Hv. apply Hstep'. by apply list_elem_of_further. }
  cbn [foldM]. rewrite Hx. cbn [mbind result_bind]. by rewrite Hl.
Qed.

Lemma TypeOf_map (v : JSON) : TypeOf v = Some TMap → ∃ m, v = JObject m.
Proof. destruct v; try done. eauto. Qed.

(** ** Results that are a given value or an error *)

Lemma returnsOrFails_bind {A B} (r : result A) (a : A) (k : A → result B) (b : B) :
  returnsOrFails r a → returnsOrFails (k a) b → returnsOrFails (r ≫= k) b.
Proof.
  intros [->|(e & -> & He)] Hk; [done|]. right. by exists e.
Qed.

Lemma foldM_fixed {A B} (f : B → A → result B) (b : B) (l : list A) :
  (∀ x, x ∈ l → returnsOrFails (f b x) b) → returnsOrFails (foldM f b l) b.
Proof.
  induction l as [|x l IH]; intros Hstep; [by left|].
  cbn [foldM]. apply (returnsOrFails_bind _ b).
  - apply Hstep, list_elem_of_here.
  - apply IH. intros y Hy. apply Hstep. by apply list_elem_of_further.
Qed.

Lemma rangeM_fixed {A B} (f : B → string → A → result B) (b : B) (m : gmap string A) :
  (∀ k v, m !! k = Some v → returnsOrFails (f b k v) b) → returnsOrFails (rangeM f b m) b.
Proof.
  intros Hstep. unfold rangeM. apply foldM_fixed.
  intros [k v] Hin. apply Hstep. by apply elem_of_map_to_list.
Qed.

(** ** Loops that return at the first conflict *)

Lemma foldM_exit_true {A} (h : A → result bool) (l : list A) :
  foldM (λ (acc : bool) x, if acc then Ok true else h x) true l = Ok true.
Proof. induction l as [|x l IH]; [done|]. cbn [foldM mbind result_bind]. apply IH. Qed.

Lemma foldM_exit_reported {A} (h : A → result bool) (l : list A) :
  conflictReported (foldM (λ (acc : bool) x, if acc then Ok true else h x) false l) = true
  ↔ ∃ x, x ∈ l ∧ conflictReported (h x) = true.
Proof.
  induction l as [|x l IH]; cbn [foldM].
  - split; [done|]. intros (x & Hx & _). by apply elem_of_nil in Hx.
  - destruct (h x) as [[|]|e] eqn:Hh; cbn [mbind result_bind].
    + rewrite foldM_exit_true. split; [|done]. intros _. exists x.
      split; [apply list_elem_of_here|by rewrite Hh].
    + rewrite IH. split.
      * intros (y & Hy & Hr). exists y. split; [by apply list_elem_of_further|done].
      * intros (y & Hy & Hr). apply elem_of_cons in Hy as [->|Hy].
        -- by rewrite Hh in Hr.
        -- by exists y.
    + split; [|done]. intros _. exists x. split; [apply list_elem_of_here|by rewrite Hh].
Qed.

Lemma rangeM_exit_reported {A} (h : string → A → result bool) (m : gmap string A) :
  conflictReported
    (rangeM (λ (acc : bool) k v, if acc then Ok true else h k v) false m) = true
  ↔ ∃ k v, m !! k = Some v ∧ conflictReported (h k v) = true.
Proof.
  unfold rangeM.
  rewrite (foldM_exit_reported (λ kv : string * A, h kv.1 kv.2)). split.
  - intros ([k v] & Hin & Hr). exists k, v. split; [by apply elem_of_map_to_list|done].
  - intros (k & v & Hk & Hr). exists (k, v). split; [by apply elem_of_map_to_list|done].
Qed.


(** ** [uniqifyScalars] keeps only elements of its argument *)

Lemma last_elem_of {A} (l : list A) (z : A) : last l = Some z → z ∈ l.
Proof.
  induction l as [|x [|y l] IH]; simpl; [done| |].
  - intros [= ->]. apply list_elem_of_here.
  - intros Hl. apply list_elem_of_further. by apply IH.
Qed.

Lemma removelast_elem_of {A} (l : list A) (z : A) : z ∈ removelast l → z ∈ l.
Proof.
  induction l as [|x [|y l] IH]; simpl; [done| |].
  - intros Hz. by apply elem_of_nil in Hz.
  - intros Hz. apply elem_of_cons in Hz as [->|Hz]; [apply list_elem_of_here|].
    apply list_elem_of_further. by apply IH.
Qed.

Lemma uniqifyInner_elem_of steps (x : JSON) (l : list JSON) (z : JSON) :
  z ∈ uniqifyInner steps x l → z ∈ l.
Proof.
  revert l. induction steps as [|n IH]; intros l; [done|].
  destruct l as [|y l']; cbn [uniqifyInner]; [done|].
  destruct (scalarEq x y).
  - destruct (last l') as [w|] eqn:Hlast; [|intros Hz; by apply elem_of_nil in Hz].
    intros Hz. apply IH in Hz. apply list_elem_of_further.
    apply elem_of_cons in Hz as [->|Hz]; [by apply last_elem_of|by apply removelast_elem_of].
  - intros Hz. apply elem_of_cons in Hz as [->|Hz]; [apply list_elem_of_here|].
    apply list_elem_of_further. by apply IH.
Qed.

Lemma uniqifyOuter_elem_of steps (s : list JSON) (z : JSON) :
  z ∈ uniqifyOuter steps s → z ∈ s.
Proof.
  revert s. induction steps as [|n IH]; intros s; [done|].
  destruct s as [|x l]; cbn [uniqifyOuter]; [done|].
  intros Hz. apply elem_of_cons in Hz as [->|Hz]; [apply list_elem_of_here|].
  apply list_elem_of_further. apply IH in Hz. by apply uniqifyInner_elem_of in Hz.
Qed.

Lemma uniqifyScalars_elem_of (s : list JSON) (z : JSON) : z ∈ uniqifyScalars s → z ∈ s.
Proof. apply uniqifyOuter_elem_of. Qed.

Lemma uniqifyAndSortScalars_elem_of (Go : GoLib) (s : list JSON) (z : JSON) :
  SortPermutes Go → z ∈ uniqifyAndSortScalars Go s → z ∈ s.
Proof.
  intros Hsort. unfold uniqifyAndSortScalars, sortScalars. rewrite (Hsort _ _).
  apply uniqifyScalars_elem_of.
Qed.

(** ** Loops over the entries of a map that touch one key each *)



Section engine_facts.
Context (Sch : Schema) (Go : GoLib).
Implicit Types (t : rtype Sch) (original modified patch a b : JSONMap).

Lemma getTagStructType_struct t :
  Kind Sch t = KStruct → getTagStructType Sch (Some t) = Ok t.
Proof. intros Hk. unfold getTagStructType, derefPtr. rewrite Hk. simpl. by rewrite Hk. Qed.

Lemma derefPtr_struct t : Kind Sch t = KStruct → derefPtr Sch t = Ok t.
Proof. intros Hk. unfold derefPtr. by rewrite Hk. Qed.

(** C8. When the patch carries a top-level [$patch] directive, [mergeMap]
    returns the patch without the directive key for ["replace"], the empty
    object for ["delete"], and for any other value (["merge"] included) the
    unknown-patch-type error and no merged result, whatever the original
    map, the schema and the flags. *)
Theorem mergeMap_directive (n : nat) original patch t
    (mergeDeleteList ignoreUnmatchedNulls : bool) (v : JSON) :
  patch !! directiveMarker = Some v →
  (v = JString replaceDirective →
     mergeMap Sch Go (S n) original patch t mergeDeleteList ignoreUnmatchedNulls
       = Ok (delete directiveMarker patch)) ∧
  (v = JString deleteDirective →
     mergeMap Sch Go (S n) original patch t mergeDeleteList ignoreUnmatchedNulls = Ok ∅) ∧
  (v ≠ JString replaceDirective → v ≠ JString deleteDirective →
     mergeMap Sch Go (S n) original patch t mergeDeleteList ignoreUnmatchedNulls
       = Err (ErrBadPatchType v patch)) ∧
  (v = JString mergeDirective →
     mergeMap Sch Go (S n) original patch t mergeDeleteList ignoreUnmatchedNulls
       = Err (ErrBadPatchType v patch)).
Proof.
  intros Hv. simpl. unfold mergeMapBody. rewrite Hv.
  assert (∀ s, isString v s = true ↔ v = JString s) as His.
  { intros s. destruct v; simpl; try (split; [done|discriminate]).
    unfold strEq. rewrite bool_decide_eq_true. split; [by intros ->|by intros [= ->]]. }
  split; [intros Hr; by rewrite (proj2 (His _) Hr)|].
  split.
  { intros Hd. rewrite (proj2 (His _) Hd). subst v. done. }
  assert (v ≠ JString replaceDirective → v ≠ JString deleteDirective →
          match (if isString v replaceDirective then Ok (delete directiveMarker patch)
                 else if isString v deleteDirective then Ok ∅
                 else Err (ErrBadPatchType v patch)) : result JSONMap with
          | Ok a => Ok a | Err e => Err e end = Err (ErrBadPatchType v patch)) as Hother.
  { intros Hr Hd.
    destruct (isString v replaceDirective) eqn:E1; [by apply His in E1|].
    destruct (isString v deleteDirective) eqn:E2; [by apply His in E2|]. done. }
  split.
  - intros Hr Hd. specialize (Hother Hr Hd).
    destruct (isString v replaceDirective); [done|].
    destruct (isString v deleteDirective); done.
  - intros ->. done.
Qed.

(** C2. For original [{"replicas":1}], modified [{"replicas":3}], current
    [{"replicas":5}] and a schema that knows the field [replicas] (whatever
    it declares for it, nothing in the trivial schema),
    [CreateThreeWayMergePatch] returns the conflict error when
    [overwrite = false] and the patch [{"replicas":3}] when
    [overwrite = true]. *)
Theorem three_way_replicas (t ft : rtype Sch) (strategy mergeKey : string) :
  Kind Sch t = KStruct →
  LookupPatchMetadata Sch t "replicas" = Ok (ft, strategy, mergeKey) →
  let original : JSONMap := {[ "replicas" := JNumber 1 ]} in
  let modified : JSONMap := {[ "replicas" := JNumber 3 ]} in
  let current : JSONMap := {[ "replicas" := JNumber 5 ]} in
  CreateThreeWayMergePatch Sch Go original modified current (Some t) false []
    = Err (ErrConflict {[ "replicas" := JNumber 3 ]} {[ "replicas" := JNumber 5 ]}) ∧
  CreateThreeWayMergePatch Sch Go original modified current (Some t) true []
    = Ok {[ "replicas" := JNumber 3 ]}.
Proof.
  intros Hk Hl original modified current.
  assert (∀ (a b : Z) iC iD n,
    diffMaps Sch Go (S n) {[ "replicas" := JNumber a ]} {[ "replicas" := JNumber b ]} t iC iD
    = Ok (if iC then ∅ else if bool_decide (a = b) then ∅ else {[ "replicas" := JNumber b ]})) as Hdiff.
  { intros a b iC iD n. simpl. unfold diffMapsBody. rewrite (derefPtr_struct _ Hk). simpl.
    rewrite rangeM_singleton. unfold diffMapsStep. rewrite lookup_singleton_eq.
    simpl. rewrite rangeM_singleton. rewrite lookup_singleton_eq.
    destruct iC, iD; simpl; try done; by destruct (bool_decide (a = b)). }
  subst original modified current.
  assert (∀ n, mergeMap Sch Go (S n) ∅ {[ "replicas" := JNumber 3 ]} t false false = Ok {[ "replicas" := JNumber 3 ]}) as Hm.
  { intros n. simpl. unfold mergeMapBody. rewrite lookup_singleton_ne by done.
    rewrite rangeM_singleton. simpl. rewrite lookup_empty. done. }
  unfold CreateThreeWayMergePatch. rewrite (getTagStructType_struct _ Hk).
  unfold fuelFor. cbn [mbind result_bind]. rewrite !Hdiff.
  change (bool_decide (5 = 3)) with false. change (bool_decide (1 = 5)) with false.
  cbn [mbind result_bind]. rewrite Hm. cbn [mbind result_bind checkPreconditions foldM].
  split; [|done].
  unfold MergingMapsHaveConflicts. rewrite (getTagStructType_struct _ Hk).
  cbn [mbind result_bind]. unfold fuelFor. cbn [mergingMapFieldsHaveConflicts].
  unfold mergingMapFieldsHaveConflictsBody.
  rewrite !lookup_singleton_ne by done. cbn [mbind result_bind].
  change (strEq "" replaceDirective) with false. cbv iota.
  unfold mapsHaveConflicts. rewrite rangeM_singleton.
  change (strEq "replicas" directiveMarker) with false. cbv iota.
  rewrite lookup_singleton_eq. rewrite Hl. cbn [mbind result_bind].
  rewrite !depthMap_succ. cbn [Nat.max mergingMapFieldsHaveConflicts].
  unfold mergingMapFieldsHaveConflictsBody. done.
Qed.

Lemma derefPtr_genuine t : ∀ e, derefPtr Sch t = Err e → e ≠ OutOfFuel.
Proof.
  intros e. unfold derefPtr. destruct (Kind Sch t); try done.
  destruct (Elem Sch t); [done|]. by intros [= <-].
Qed.

Lemma elemOf_genuine t : ∀ e, elemOf Sch t = Err e → e ≠ OutOfFuel.
Proof. intros e. unfold elemOf. destruct (Elem Sch t); [done|]. by intros [= <-]. Qed.

Lemma getTagStructType_genuine ds : ∀ e, getTagStructType Sch ds = Err e → e ≠ OutOfFuel.
Proof.
  intros e. unfold getTagStructType. destruct ds as [t|]; [|by intros [= <-]].
  destruct (derefPtr Sch t) as [t'|e'] eqn:E; cbn [mbind result_bind].
  - destruct (Kind Sch t'); [done|by intros [= <-]..].
  - intros [= <-]. by apply (derefPtr_genuine t).
Qed.

Lemma mergeKeyOf_Ok v mergeKey m x :
  mergeKeyOf v mergeKey = Ok (m, x) → v = JObject m ∧ m !! mergeKey = Some x.
Proof.
  unfold mergeKeyOf, asMap. destruct v as [| | | | |m']; cbn; try done.
  destruct (m' !! mergeKey) as [y|] eqn:E; [|done]. by intros [= <- <-].
Qed.

Lemma mergeKeyOf_genuine v mergeKey : ∀ e, mergeKeyOf v mergeKey = Err e → e ≠ OutOfFuel.
Proof.
  intros e. unfold mergeKeyOf, asMap. destruct v as [| | | | |m']; cbn; try (by intros [= <-]).
  destruct (m' !! mergeKey); [done|by intros [= <-]].
Qed.

(** Walking a sorted list of scalars against itself finds no addition and
    no deletion. *)
Lemma diffScalarsLoop_same steps iC iD (s addList deletionList : list JSON) :
  diffScalarsLoop Go steps iC iD s s addList deletionList = (addList, deletionList).
Proof.
  revert steps. induction s as [|x s IH]; intros [|n]; cbn [diffScalarsLoop]; try done.
  by rewrite strEq_refl.
Qed.

(** The labelled loop of [diffListsOfMaps], one iteration at a time. *)
Lemma diffListsOfMapsLoop_nil_r
    (rec : JSONMap → JSONMap → rtype Sch → bool → bool → result JSONMap)
    t mergeKey iC iD (mv : JSON) (ms patch : list JSON) :
  diffListsOfMapsLoop Sch Go rec t mergeKey iC iD (mv :: ms) [] patch
  = (_ ← mergeKeyOf mv mergeKey; Ok (patch, [], mv :: ms)).
Proof.
  cbn [diffListsOfMapsLoop]. by destruct (mergeKeyOf mv mergeKey) as [[m x]|e].
Qed.

Lemma diffListsOfMapsLoop_cons
    (rec : JSONMap → JSONMap → rtype Sch → bool → bool → result JSONMap)
    t mergeKey iC iD (mv ov : JSON) (ms os patch : list JSON) :
  diffListsOfMapsLoop Sch Go rec t mergeKey iC iD (mv :: ms) (ov :: os) patch
  = ('(modifiedMap, modifiedValue) ← mergeKeyOf mv mergeKey;
     '(originalMap, originalValue) ← mergeKeyOf ov mergeKey;
     let originalString := Sprintf_v Go originalValue in
     let modifiedString := Sprintf_v Go modifiedValue in
     if negb (strLt originalString modifiedString) then
       if strEq originalString modifiedString then
         patchValue ← rec originalMap modifiedMap t iC iD;
         diffListsOfMapsLoop Sch Go rec t mergeKey iC iD ms os
           (if bool_decide (0 < size patchValue)%nat
            then patch ++ [JObject (<[mergeKey := modifiedValue]> patchValue)]
            else patch)
       else
         diffListsOfMapsLoop Sch Go rec t mergeKey iC iD ms (ov :: os)
           (if iC then patch else patch ++ [JObject modifiedMap])
     else
       diffListsOfMapsLoop Sch Go rec t mergeKey iC iD (mv :: ms) os
         (if iD then patch else patch ++ [deleteDirectiveFor mergeKey originalValue])).
Proof.
  cbn [diffListsOfMapsLoop].
  destruct (mergeKeyOf mv mergeKey) as [[m x]|e]; [|done].
  cbn [mbind result_bind].
  destruct (mergeKeyOf ov mergeKey) as [[m' x']|e]; [|done].
  cbn [mbind result_bind]. reflexivity.
Qed.

(** Walking a sorted list of maps against itself pairs every element with
    itself. *)
Lemma diffListsOfMapsLoop_same
    (rec : JSONMap → JSONMap → rtype Sch → bool → bool → result JSONMap)
    t mergeKey iC iD (s patch : list JSON) :
  (∀ m, JObject m ∈ s → returnsOrFails (rec m m t iC iD) ∅) →
  returnsOrFails (diffListsOfMapsLoop Sch Go rec t mergeKey iC iD s s patch) (patch, [], []).
Proof.
  induction s as [|mv s IH]; intros Hrec; [by left|].
  rewrite diffListsOfMapsLoop_cons.
  destruct (mergeKeyOf mv mergeKey) as [[m x]|e] eqn:Hmk; cbn [mbind result_bind].
  - rewrite strLt_irrefl, strEq_refl. cbn [negb].
    apply mergeKeyOf_Ok in Hmk as [-> Hx].
    apply (returnsOrFails_bind _ ∅).
    + apply Hrec, list_elem_of_here.
    + rewrite map_size_empty. rewrite bool_decide_eq_false_2 by lia.
      apply IH. intros m' Hm'. apply Hrec. by apply list_elem_of_further.
  - right. exists e. split; [done|]. by apply (mergeKeyOf_genuine mv mergeKey).
Qed.

Lemma sortMergeListsByNameArray_maps (s : list JSON) (mergeKey : string) :
  s ≠ [] → (∀ v, v ∈ s → TypeOf v = Some TMap) →
  sortMergeListsByNameArray Go s mergeKey = Ok (sort_Sort Go (lessMaps Go mergeKey) s).
Proof.
  intros Hne Hall. unfold sortMergeListsByNameArray. destruct s as [|x s]; [done|].
  rewrite (sliceElementType_intro [x :: s] TMap); [done| |done|].
  - simpl. done.
  - simpl. rewrite app_nil_r. done.
Qed.

(** The diff of a merging list against itself is empty. *)
Lemma diffLists_same
    (rec : JSONMap → JSONMap → rtype Sch → bool → bool → result JSONMap)
    (l : list JSON) t mergeKey iC iD :
  SortPermutes Go →
  (∀ m, JObject m ∈ l → returnsOrFails (rec m m t iC iD) ∅) →
  returnsOrFails (diffLists Sch Go rec l l t mergeKey iC iD) ([], []).
Proof.
  intros Hsort Hrec. unfold diffLists. destruct l as [|x l]; [by left|].
  destruct (sliceElementType [x :: l; x :: l]) as [ty|e] eqn:Hty; cbn [mbind result_bind].
  2:{ right. exists e. split; [done|]. intros ->. by apply (sliceElementType_genuine _ Hty). }
  apply sliceElementType_Ok in Hty as (_ & Hns & Hall).
  assert (∀ v, v ∈ x :: l → TypeOf v = Some ty) as Hall'.
  { intros v Hv. apply Hall. cbn [concat]. apply elem_of_app. by left. }
  destruct ty; try by (left; unfold diffListsOfScalars; rewrite diffScalarsLoop_same).
  - by destruct Hns.
  - unfold diffListsOfMaps.
    rewrite sortMergeListsByNameArray_maps by done. cbn [mbind result_bind].
    apply (returnsOrFails_bind _ []).
    + eapply (returnsOrFails_bind _ ([], [], [])).
      * apply diffListsOfMapsLoop_same. intros m Hm. apply Hrec.
        by rewrite <-(Hsort (lessMaps Go mergeKey) (x :: l)).
      * cbn. destruct iD, iC; by left.
    + by left.
Qed.

(** One field of [modified] that [original] holds with the same value adds
    nothing to the patch. *)
Lemma diffMapsStep_same
    (rec : JSONMap → JSONMap → rtype Sch → bool → bool → result JSONMap)
    original t iC iD patch key (v : JSON) :
  SortPermutes Go →
  (iC = true ∨ ∀ t k ft s mk,
     LookupPatchMetadata Sch t k = Ok (ft, s, mk) → s ≠ replaceDirective) →
  (∀ m t', (depthMap m ≤ depth v)%nat → returnsOrFails (rec m m t' iC iD) ∅) →
  original !! key = Some v →
  returnsOrFails (diffMapsStep Sch Go rec original t iC iD patch key v) patch.
Proof.
  intros Hsort Hrep Hrec Hk. unfold diffMapsStep. rewrite Hk.
  destruct (strEq key directiveMarker).
  { destruct v; try (right; eexists; split; [done|done]).
    rewrite strEq_refl. by left. }
  rewrite bool_decide_eq_true_2 by done. cbn [negb].
  rewrite DeepEqual_refl.
  assert (returnsOrFails (Ok (if iC then patch else patch) : result JSONMap) patch) as Hcmp
    by (destruct iC; by left).
  destruct v as [| | | |l|m]; try exact Hcmp.
  - destruct (LookupPatchMetadata Sch t key) as [[[ft s] mk]|e]; [|by left].
    destruct (strEq s mergeDirective); [|exact Hcmp].
    destruct (elemOf Sch ft) as [et|e] eqn:Het; cbn [mbind result_bind].
    2:{ right. exists e. split; [done|]. by apply (elemOf_genuine ft). }
    apply (returnsOrFails_bind _ ([], [])).
    + apply diffLists_same; [done|]. intros m' Hm'. apply Hrec.
      pose proof (depth_object_elem _ _ Hm'). lia.
    + by left.
  - destruct (LookupPatchMetadata Sch t key) as [[[ft s] mk]|e] eqn:Hl; [|by left].
    destruct (strEq s replaceDirective) eqn:Hs.
    { destruct Hrep as [->|Hrep]; [by left|].
      apply strEq_spec in Hs. by destruct (Hrep _ _ _ _ _ Hl). }
    apply (returnsOrFails_bind _ ∅).
    + apply Hrec. done.
    + rewrite map_size_empty. rewrite bool_decide_eq_false_2 by lia. by left.
Qed.

(** The diff from a document to one it contains (every field of [modified]
    is in [original] with the same value) is empty when deletions are
    ignored or the two are equal, unless the engine reports an error. *)
Lemma diffMaps_contained (n : nat) original modified t iC iD :
  SortPermutes Go →
  (iC = true ∨ ∀ t k ft s mk,
     LookupPatchMetadata Sch t k = Ok (ft, s, mk) → s ≠ replaceDirective) →
  modified ⊆ original →
  (iD = true ∨ original = modified) →
  (depthMap modified < n)%nat →
  returnsOrFails (diffMaps Sch Go n original modified t iC iD) ∅.
Proof.
  intros Hsort Hrep. revert original modified t.
  induction n as [|n IH]; intros original modified t Hsub HiD Hdepth; [lia|].
  cbn [diffMaps]. unfold diffMapsBody.
  destruct (derefPtr Sch t) as [t'|e] eqn:Ht; cbn [mbind result_bind].
  2:{ right. exists e. split; [done|]. by apply (derefPtr_genuine t). }
  apply (returnsOrFails_bind _ ∅).
  - apply rangeM_fixed. intros k v Hk. apply diffMapsStep_same; [done|done| |].
    + intros m t0 Hm. apply IH; [done|by right|].
      pose proof (depth_lookup _ _ _ Hk). lia.
    + by apply (lookup_weaken _ _ _ _ Hk).
  - destruct iD; [by left|]. destruct HiD as [?| ->]; [done|].
    apply rangeM_fixed. intros k v Hk. rewrite Hk. by left.
Qed.



Lemma sliceOfMapsToMapOfMaps_values (l : list JSON) (mergeKey : string) (lm : JSONMap) :
  sliceOfMapsToMapOfMaps Go l mergeKey = Ok lm →
  ∀ k v, lm !! k = Some v →
    v ∈ l ∧ ∃ m x, v = JObject m ∧ m !! mergeKey = Some x ∧ k = Sprintf_s Go x.
Proof.
  unfold sliceOfMapsToMapOfMaps.
  apply (foldM_invariant
    (λ lm : JSONMap, ∀ k v, lm !! k = Some v →
       v ∈ l ∧ ∃ m x, v = JObject m ∧ m !! mergeKey = Some x ∧ k = Sprintf_s Go x)).
  - intros k v Hk. by rewrite lookup_empty in Hk.
  - intros res value res' Hin Hres Hstep k v Hk.
    destruct value as [| | | | |m]; try done.
    destruct (m !! mergeKey) as [x|] eqn:Hx; [|done].
    injection Hstep as <-.
    destruct (decide (Sprintf_s Go x = k)) as [<-|Hne].
    + rewrite lookup_insert_eq in Hk. injection Hk as <-. split; [done|]. by exists m, x.
    + rewrite lookup_insert_ne in Hk by done. by apply Hres.
Qed.


Lemma elementsHaveConflicts_ext
    (rec1 rec2 : JSON → JSON → rtype Sch → string → string → result bool)
    (ls rs : list JSON) vt :
  (∀ l r ft s mk, l ∈ ls → rec1 l r ft s mk = rec2 l r ft s mk) →
  elementsHaveConflicts Sch rec1 ls rs vt = elementsHaveConflicts Sch rec2 ls rs vt.
Proof.
  revert rs. induction ls as [|l ls IH]; intros rs Hrec; [done|].
  destruct rs as [|r rs]; [done|]. cbn [elementsHaveConflicts].
  rewrite (Hrec l r) by apply list_elem_of_here.
  destruct (rec2 l r vt "" "") as [[|]|e]; cbn [mbind result_bind]; try done.
  apply IH. intros l' r' ft s mk Hl'. apply Hrec. by apply list_elem_of_further.
Qed.

Lemma mapsHaveConflicts_ext
    (rec1 rec2 : JSON → JSON → rtype Sch → string → string → result bool)
    (typedLeft typedRight : JSONMap) t :
  (∀ k l r ft s mk, typedLeft !! k = Some l → rec1 l r ft s mk = rec2 l r ft s mk) →
  mapsHaveConflicts Sch rec1 typedLeft typedRight t
  = mapsHaveConflicts Sch rec2 typedLeft typedRight t.
Proof.
  intros Hrec. unfold mapsHaveConflicts. apply rangeM_ext. intros acc k l Hk.
  destruct acc; [done|]. destruct (strEq k directiveMarker); [done|].
  destruct (typedRight !! k) as [r|]; [|done].
  destruct (LookupPatchMetadata Sch t k) as [[[ft s] mk]|e]; [|done].
  cbn [mbind result_bind]. by apply (Hrec k).
Qed.

Lemma mapsOfMapsHaveConflicts_ext
    (rec1 rec2 : JSON → JSON → rtype Sch → string → string → result bool)
    (typedLeft typedRight : JSONMap) t :
  (∀ k l r ft s mk, typedLeft !! k = Some l → rec1 l r ft s mk = rec2 l r ft s mk) →
  mapsOfMapsHaveConflicts Sch rec1 typedLeft typedRight t
  = mapsOfMapsHaveConflicts Sch rec2 typedLeft typedRight t.
Proof.
  intros Hrec. unfold mapsOfMapsHaveConflicts. apply rangeM_ext. intros acc k l Hk.
  destruct acc; [done|]. destruct (typedRight !! k) as [r|]; [|done]. by apply (Hrec k).
Qed.

(** With more fuel than the left value nests, the answer of
    [mergingMapFieldsHaveConflicts] does not depend on the fuel. *)
Lemma mergingMapFieldsHaveConflicts_fuel (n m : nat) (left right : JSON) t s mk :
  SortPermutes Go →
  (depth left < n)%nat → (depth left < m)%nat →
  mergingMapFieldsHaveConflicts Sch Go n left right t s mk
  = mergingMapFieldsHaveConflicts Sch Go m left right t s mk.
Proof.
  intros Hsort. revert m left right t s mk.
  induction n as [|n IH]; intros m left right t s mk Hn Hm; [lia|].
  destruct m as [|m]; [lia|].
  cbn [mergingMapFieldsHaveConflicts]. unfold mergingMapFieldsHaveConflictsBody.
  destruct left as [| | | |ll|lm]; try done.
  - destruct right as [| | | |rl|rm]; try done.
    unfold slicesHaveConflicts.
    destruct (sliceElementType [ll; rl]) as [ty|e]; cbn [mbind result_bind]; [|done].
    destruct (elemOf Sch t) as [vt|e]; cbn [mbind result_bind]; [|done].
    destruct (strEq s mergeDirective).
    + destruct (negb (bool_decide (ty = TMap))); [done|].
      destruct (sliceOfMapsToMapOfMaps Go ll mk) as [leftMap|e] eqn:Hl;
        cbn [mbind result_bind]; [|done].
      destruct (sliceOfMapsToMapOfMaps Go rl mk) as [rightMap|e] eqn:Hr;
        cbn [mbind result_bind]; [|done].
      apply mapsOfMapsHaveConflicts_ext. intros k l r ft s' mk' Hk.
      apply (sliceOfMapsToMapOfMaps_values _ _ _ Hl) in Hk as [Hin _].
      pose proof (depth_elem _ _ Hin). apply IH; lia.
    + destruct (negb (bool_decide (length ll = length rl))); [done|].
      apply elementsHaveConflicts_ext. intros l r ft s' mk' Hin.
      assert (l ∈ ll) as Hin'.
      { destruct (negb (bool_decide (ty = TMap))); [|done].
        by apply (uniqifyAndSortScalars_elem_of Go). }
      pose proof (depth_elem _ _ Hin'). apply IH; lia.
  - destruct right as [| | | |rl|rm]; try done.
    destruct (match lm !! directiveMarker with
              | Some l => match rm !! directiveMarker with
                          | Some r => same ← ifaceEq l r; Ok (negb same)
                          | None => Ok true
                          end
              | None => match rm !! directiveMarker with
                        | Some _ => Ok true
                        | None => Ok false
                        end
              end) as [[|]|e]; cbn [mbind result_bind]; try done.
    destruct (strEq s replaceDirective); [done|].
    apply mapsHaveConflicts_ext. intros k l r ft s' mk' Hk.
    pose proof (depth_lookup _ _ _ Hk). unfold depthMap in *. apply IH; lia.
Qed.


(** [mapsHaveConflicts] reports a conflict exactly when some key other than
    [$patch] that both maps hold has conflicting values. *)
Lemma mapsHaveConflicts_reported (n : nat) (typedLeft typedRight : JSONMap) t :
  SortPermutes Go →
  (depthMap typedLeft ≤ n)%nat →
  conflictReported
    (mapsHaveConflicts Sch (mergingMapFieldsHaveConflicts Sch Go n) typedLeft typedRight t)
    = true
  ↔ ∃ k lv rv, typedLeft !! k = Some lv ∧ k ≠ directiveMarker ∧
               typedRight !! k = Some rv ∧
               conflictReported (fieldConflict Sch Go t k lv rv) = true.
Proof.
  intros Hsort Hn. unfold mapsHaveConflicts. rewrite rangeM_exit_reported.
  split.
  - intros (k & lv & Hk & Hr). destruct (strEq k directiveMarker) eqn:Hm; [done|].
    destruct (typedRight !! k) as [rv|] eqn:HR; [|done].
    exists k, lv, rv. split; [done|]. split.
    { intros ->. by rewrite strEq_refl in Hm. }
    split; [done|]. unfold fieldConflict.
    destruct (LookupPatchMetadata Sch t k) as [[[ft s] mk]|e]; [|done].
    cbn [mbind result_bind] in *.
    pose proof (depth_lookup _ _ _ Hk).
    rewrite (mergingMapFieldsHaveConflicts_fuel (S (depth lv)) n) by (done || lia). done.
  - intros (k & lv & rv & Hk & Hm & HR & Hr). exists k, lv. split; [done|].
    assert (strEq k directiveMarker = false) as ->
      by (by apply bool_decide_eq_false).
    rewrite HR.
    unfold fieldConflict in Hr.
    destruct (LookupPatchMetadata Sch t k) as [[[ft s] mk]|e]; [|done].
    cbn [mbind result_bind] in *.
    pose proof (depth_lookup _ _ _ Hk).
    rewrite (mergingMapFieldsHaveConflicts_fuel n (S (depth lv))) by (done || lia). done.
Qed.


Lemma MergingMapsHaveConflicts_reported (left right : JSONMap) t ds :
  SortPermutes Go →
  getTagStructType Sch ds = Ok t →
  conflictReported (MergingMapsHaveConflicts Sch Go left right ds) = true
  ↔ markerConflict left right ≠ Ok false ∨
    ∃ k lv rv, left !! k = Some lv ∧ k ≠ directiveMarker ∧ right !! k = Some rv ∧
               conflictReported (fieldConflict Sch Go t k lv rv) = true.
Proof.
  intros Hsort Ht. unfold MergingMapsHaveConflicts. rewrite Ht. cbn [mbind result_bind].
  unfold fuelFor. cbn [mergingMapFieldsHaveConflicts].
  unfold mergingMapFieldsHaveConflictsBody. fold (markerConflict left right).
  destruct (markerConflict left right) as [[|]|e]; cbn [mbind result_bind].
  - split; [by left|done].
  - change (strEq "" replaceDirective) with false. cbv iota.
    rewrite mapsHaveConflicts_reported by (done || lia).
    split; [by right|]. by intros [?|?].
  - split; [by left|done].
Qed.















End engine_facts.

Lemma insertionStep_perm less x r : insertionStep less x r ≡ₚ x :: r.
Proof.
  induction r as [|y r IH]; simpl; [done|].
  destruct (less x y); [|done]. rewrite IH. apply Permutation_swap.
Qed.

Lemma goLib_SortPermutes : SortPermutes goLib.
Proof.
  intros less l. simpl. unfold insertionSort. rewrite reverse_Permutation.
  assert (∀ acc, foldl (λ acc x, insertionStep less x acc) acc l ≡ₚ l ++ acc) as Hacc.
  { induction l as [|x l IH]; intros acc; simpl; [done|].
    rewrite IH, insertionStep_perm. by rewrite Permutation_middle. }
  rewrite Hacc. by rewrite app_nil_r.
Qed.



(** ** The engine on concrete documents *)

Lemma three_way_replicas_witness :
  CreateThreeWayMergePatch trivialSchema goLib
    {[ "replicas" := JNumber 1 ]} {[ "replicas" := JNumber 3 ]} {[ "replicas" := JNumber 5 ]}
    (Some tt) false []
    = Err (ErrConflict {[ "replicas" := JNumber 3 ]} {[ "replicas" := JNumber 5 ]}) ∧
  CreateThreeWayMergePatch trivialSchema goLib
    {[ "replicas" := JNumber 1 ]} {[ "replicas" := JNumber 3 ]} {[ "replicas" := JNumber 5 ]}
    (Some tt) true []
    = Ok {[ "replicas" := JNumber 3 ]}.
Proof.
  apply (three_way_replicas trivialSchema goLib tt tt "" "").
  - reflexivity.
  - reflexivity.
Defined.

Lemma mergeMap_directive_witness :
  mergeMap trivialSchema goLib 1 {[ "a" := JNumber 1 ]}
    {[ "$patch" := JString "replace"; "b" := JNumber 2 ]} tt true true
    = Ok (delete directiveMarker {[ "$patch" := JString "replace"; "b" := JNumber 2 ]}) ∧
  mergeMap trivialSchema goLib 1 {[ "a" := JNumber 1 ]}
    {[ "$patch" := JString "delete" ]} tt true true = Ok ∅ ∧
  mergeMap trivialSchema goLib 1 {[ "a" := JNumber 1 ]}
    {[ "$patch" := JString "merge" ]} tt true true
    = Err (ErrBadPatchType (JString "merge") {[ "$patch" := JString "merge" ]}).
Proof.
  split; [|split].
  - apply (mergeMap_directive trivialSchema goLib 0 _ _ tt true true (JString "replace"));
      reflexivity.
  - apply (mergeMap_directive trivialSchema goLib 0 _ _ tt true true (JString "delete"));
      reflexivity.
  - apply (mergeMap_directive trivialSchema goLib 0 _ _ tt true true (JString "merge"));
      reflexivity.
Defined.


(** A list with merge strategy comes back in the order of the original:
    the patch between [["x","y"]] and [["y","x"]] is empty. *)
Lemma round_trip_merging_list_order :
  CreateTwoWayMergePatch podSchema goLib
    {[ "finalizers" := JArray [JString "x"; JString "y"] ]}
    {[ "finalizers" := JArray [JString "y"; JString "x"] ]} (Some PodSpec) [] = Ok ∅ ∧
  StrategicMergePatch podSchema goLib
    {[ "finalizers" := JArray [JString "x"; JString "y"] ]} ∅ (Some PodSpec)
    = Ok {[ "finalizers" := JArray [JString "x"; JString "y"] ]}.
Proof. split; by vm_compute. Qed.


(** An object field with replace strategy is emitted whole even when it
    did not change, so the three-way patch of a document against itself is
    not empty then. *)
Lemma unchanged_replace_field_is_emitted :
  CreateThreeWayMergePatch podSchema goLib
    {[ "selector" := JObject {[ "app" := JString "web" ]} ]}
    {[ "selector" := JObject {[ "app" := JString "web" ]} ]}
    {[ "selector" := JObject {[ "app" := JString "web" ]} ]} (Some PodSpec) true []
  = Ok {[ "selector" := JObject {[ "app" := JString "web" ]} ]}.
Proof. by vm_compute. Qed.



(** ** The helpers on slices *)

(** X10. [sliceElementType] succeeds exactly on slices that hold at least one
    element and whose elements all have one type, which is not a list (and
    not [nil]); on no element at all it reports that there are none. *)
Theorem sliceElementType_spec (ls : list (list JSON)) :
  (∀ ty, sliceElementType ls = Ok ty ↔
     concat ls ≠ [] ∧ ty ≠ TSlice ∧ ∀ v, v ∈ concat ls → TypeOf v = Some ty) ∧
  (concat ls = [] → sliceElementType ls = Err ErrNoElements).
Proof.
  split.
  - intros ty. split; [apply sliceElementType_Ok|].
    intros (Hne & Hty & Hall). by apply sliceElementType_intro.
  - intros Hnil. unfold sliceElementType. rewrite sliceElementType_flat, Hnil. done.
Qed.

Lemma findMapInSliceFrom_spec (index : nat) (l : list JSON) (key : string) (value : JSON) :
  match findMapInSliceFrom index l key value with
  | Ok (Some (m, i)) =>
      ∃ l1 l2, l = l1 ++ JObject m :: l2 ∧ i = (index + length l1)%nat ∧
               Forall (keyDiffers key value) l1 ∧ keyMatches key value (JObject m)
  | Ok None => Forall (keyDiffers key value) l
  | Err _ => True
  end.
Proof.
  revert index. induction l as [|v l IH]; intros index; cbn; [done|].
  destruct v as [| | | | |m]; try done.
  assert (keyDiffers key value (JObject m) →
    match findMapInSliceFrom (S index) l key value with
    | Ok (Some (m0, i)) =>
        ∃ l1 l2, JObject m :: l = l1 ++ JObject m0 :: l2 ∧ i = (index + length l1)%nat ∧
                 Forall (keyDiffers key value) l1 ∧ keyMatches key value (JObject m0)
    | Ok None => Forall (keyDiffers key value) (JObject m :: l)
    | Err _ => True
    end) as Hrest.
  { intros Hd. specialize (IH (S index)).
    destruct (findMapInSliceFrom (S index) l key value) as [[[m0 i]|]|]; [| |done].
    - destruct IH as (l1 & l2 & -> & -> & Hl1 & Hm).
      exists (JObject m :: l1), l2. split; [done|]. split; [cbn; lia|].
      split; [by constructor|done].
    - by constructor. }
  destruct (m !! key) as [x|] eqn:Hx.
  - destruct (ifaceEq x value) as [[]|] eqn:Heq; cbn; [| |done].
    + exists [], l. split; [done|]. split; [cbn; lia|]. split; [constructor|].
      by exists m, x.
    + apply Hrest. exists m. split; [done|]. right. by exists x.
  - apply Hrest. exists m. split; [done|]. by left.
Qed.

(** X11. [findMapInSliceBasedOnKeyValue] returns the first map of the slice whose
    entry [key] equals [value], with its index; when it finds none, every
    element is a map whose entry [key] is missing or differs. *)
Theorem findMapInSliceBasedOnKeyValue_spec (l : list JSON) (key : string) (value : JSON) :
  (∀ m i, findMapInSliceBasedOnKeyValue l key value = Ok (Some (m, i)) →
     l !! i = Some (JObject m) ∧ keyMatches key value (JObject m) ∧
     ∀ j v, (j < i)%nat → l !! j = Some v → keyDiffers key value v) ∧
  (findMapInSliceBasedOnKeyValue l key value = Ok None →
     ∀ v, v ∈ l → keyDiffers key value v).
Proof.
  unfold findMapInSliceBasedOnKeyValue.
  pose proof (findMapInSliceFrom_spec O l key value) as Hspec. split.
  - intros m i Hf. rewrite Hf in Hspec.
    destruct Hspec as (l1 & l2 & -> & -> & Hl1 & Hm). cbn. split.
    { by rewrite lookup_app_r, Nat.sub_diag by lia. }
    split; [done|]. intros j v Hj Hv. rewrite lookup_app_l in Hv by done.
    rewrite Forall_forall in Hl1. apply Hl1. by eapply list_elem_of_lookup_2.
  - intros Hf. rewrite Hf in Hspec. by rewrite Forall_forall in Hspec.
Qed.

(** ** Lists of scalars *)

Lemma scalarEq_spec (x y : JSON) : isScalar x = true → scalarEq x y = true ↔ x = y.
Proof.
  intros Hx. unfold scalarEq.
  assert (ifaceEq x y = Ok (DeepEqual x y)) as -> by (by destruct x, y).
  apply DeepEqual_spec.
Qed.

Lemma last_snoc_removelast {A} (l : list A) (z : A) :
  last l = Some z → l = removelast l ++ [z].
Proof.
  induction l as [|x l IH]; [done|]. destruct l as [|y l].
  - cbn. by intros [= ->].
  - intros Hl. change (removelast (x :: y :: l)) with (x :: removelast (y :: l)).
    cbn [app]. f_equal. by apply IH.
Qed.

Lemma uniqifyInner_spec (steps : nat) (x : JSON) (l : list JSON) :
  isScalar x = true → (length l ≤ steps)%nat →
  (length (uniqifyInner steps x l) ≤ length l)%nat ∧
  ∀ z, z ∈ uniqifyInner steps x l ↔ z ∈ l ∧ z ≠ x.
Proof.
  intros Hx. revert l. induction steps as [|n IH]; intros l Hlen.
  { destruct l; [|cbn in Hlen; lia]. cbn. split; [done|]. intros z.
    rewrite elem_of_nil. tauto. }
  destruct l as [|y l]; cbn [uniqifyInner].
  { split; [done|]. intros z. rewrite elem_of_nil. tauto. }
  cbn in Hlen. destruct (scalarEq x y) eqn:Heq.
  - apply scalarEq_spec in Heq as <-; [|done].
    destruct (last l) as [zl|] eqn:Hlast.
    + pose proof (last_snoc_removelast _ _ Hlast) as Hl.
      assert (length (zl :: removelast l) = length l) as Hlen'.
      { rewrite Hl at 2. rewrite length_app. cbn. lia. }
      destruct (IH (zl :: removelast l)) as [Hle Hin]; [lia|]. split.
      * cbn. lia.
      * intros z. rewrite Hin. rewrite elem_of_cons. rewrite Hl at 2.
        rewrite elem_of_cons, elem_of_app, list_elem_of_singleton. tauto.
    + assert (l = []) as -> by (by destruct l using rev_ind; [|rewrite last_snoc in Hlast]).
      split; [cbn; lia|]. intros z. rewrite list_elem_of_singleton, elem_of_nil. tauto.
  - assert (y ≠ x) as Hne.
    { intros ->. rewrite (proj2 (scalarEq_spec x x Hx)) in Heq; done. }
    destruct (IH l) as [Hle Hin]; [lia|]. split; [cbn; lia|].
    intros z. rewrite !elem_of_cons, Hin. split; [|tauto].
    intros [->|[? ?]]; tauto.
Qed.

Lemma uniqifyOuter_spec (steps : nat) (s : list JSON) :
  Forall (λ v, isScalar v = true) s → (length s ≤ steps)%nat →
  NoDup (uniqifyOuter steps s) ∧ ∀ z, z ∈ uniqifyOuter steps s ↔ z ∈ s.
Proof.
  revert s. induction steps as [|n IH]; intros s Hs Hlen.
  { destruct s; [|cbn in Hlen; lia]. cbn. split; [constructor|done]. }
  destruct s as [|x l]; cbn [uniqifyOuter]; [split; [constructor|done]|].
  apply Forall_cons in Hs as [Hx Hl]. cbn in Hlen.
  destruct (uniqifyInner_spec (length l) x l Hx) as [Hle Hin]; [done|].
  destruct (IH (uniqifyInner (length l) x l)) as [Hnd Hout].
  { rewrite Forall_forall in Hl |- *. intros z Hz. apply Hl. by apply Hin in Hz as [? _]. }
  { lia. }
  split.
  - constructor; [|done]. rewrite Hout, Hin. tauto.
  - intros z. rewrite !elem_of_cons, Hout, Hin.
    destruct (DeepEqual z x) eqn:Hzx.
    + apply DeepEqual_spec in Hzx. tauto.
    + assert (z ≠ x) by (intros ->; by rewrite DeepEqual_refl in Hzx). tauto.
Qed.

(** X12. [uniqifyScalars] on scalars keeps one copy of every value: the result
    has no duplicates and holds exactly the values of the slice. *)
Theorem uniqifyScalars_spec (s : list JSON) :
  Forall (λ v, isScalar v = true) s →
  NoDup (uniqifyScalars s) ∧ ∀ z, z ∈ uniqifyScalars s ↔ z ∈ s.
Proof. intros Hs. by apply uniqifyOuter_spec. Qed.

(** ** Argument checks and deletion from merging lists *)

Section entry_points.
Context (Sch : Schema) (Go : GoLib).
Implicit Types (t : rtype Sch) (original modified current patch : JSONMap).

(** X15. [getTagStructType] accepts a struct type and a pointer to a struct
    type, and answers the struct type; it rejects the nil interface, every
    other kind, and a pointer to a pointer. *)
Theorem getTagStructType_spec (dataStruct : option (rtype Sch)) t' :
  getTagStructType Sch dataStruct = Ok t' ↔
  ∃ t, dataStruct = Some t ∧
    ((Kind Sch t = KStruct ∧ t' = t) ∨
     (Kind Sch t = KPtr ∧ Elem Sch t = Some t' ∧ Kind Sch t' = KStruct)).
Proof.
  unfold getTagStructType, derefPtr. split.
  - destruct dataStruct as [t|]; [|done]. intros Hg. exists t. split; [done|].
    destruct (Kind Sch t) eqn:Hk.
    + cbn in Hg. rewrite Hk in Hg. injection Hg as <-. by left.
    + destruct (Elem Sch t) as [t2|] eqn:He; [|done]. cbn in Hg.
      destruct (Kind Sch t2) eqn:Hk2; [|done|done]. injection Hg as <-. by right.
    + cbn in Hg. by rewrite Hk in Hg.
  - intros (t & -> & [[Hk ->]|(Hk & He & Hk')]).
    + rewrite Hk. cbn. by rewrite Hk.
    + rewrite Hk, He. cbn. by rewrite Hk'.
Qed.

Lemma checkPreconditions_spec (fns : list PreconditionFunc) patch :
  checkPreconditions fns patch =
    if forallb (λ fn, fn patch) fns then Ok () else Err (ErrPreconditionFailed patch).
Proof.
  unfold checkPreconditions. induction fns as [|fn fns IH]; [done|].
  cbn [foldM forallb]. destruct (fn patch); [|done]. cbn. apply IH.
Qed.

(** X16. The precondition functions are applied to the computed patch: when all
    of them accept it the call goes on as without them, and when one
    rejects it the call fails with the precondition error - in the
    three-way merge before any conflict is looked for. *)
Theorem preconditions_checked original modified current (ds : option (rtype Sch))
    (fns : list PreconditionFunc) (overwrite : bool) patch :
  (CreateTwoWayMergeMapPatch Sch Go original modified ds [] = Ok patch →
   CreateTwoWayMergeMapPatch Sch Go original modified ds fns =
     if forallb (λ fn, fn patch) fns then Ok patch
     else Err (ErrPreconditionFailed patch)) ∧
  (CreateThreeWayMergePatch Sch Go original modified current ds true [] = Ok patch →
   CreateThreeWayMergePatch Sch Go original modified current ds overwrite fns =
     if forallb (λ fn, fn patch) fns
     then CreateThreeWayMergePatch Sch Go original modified current ds overwrite []
     else Err (ErrPreconditionFailed patch)).
Proof.
  split.
  - unfold CreateTwoWayMergeMapPatch. destruct (getTagStructType Sch ds) as [t|]; [|done].
    cbn [mbind result_bind].
    destruct (diffMaps _ _ _ _ _ _ _ _) as [p|]; [|done]. cbn [mbind result_bind].
    rewrite (checkPreconditions_spec fns), (checkPreconditions_spec []).
    cbn [forallb mbind result_bind]. intros [= ->].
    by match goal with |- context [forallb ?f ?l] => destruct (forallb f l) end.
  - unfold CreateThreeWayMergePatch.
    destruct (getTagStructType Sch ds) as [t|]; [|by cbn]. cbn [mbind result_bind].
    destruct (diffMaps _ _ _ current modified _ _ _) as [delta|]; [|by cbn].
    cbn [mbind result_bind].
    destruct (diffMaps _ _ _ original modified _ _ _) as [deletions|]; [|by cbn].
    cbn [mbind result_bind].
    destruct (mergeMap _ _ _ _ _ _ _ _) as [p|]; [|by cbn]. cbn [mbind result_bind].
    rewrite (checkPreconditions_spec fns), (checkPreconditions_spec []).
    cbn [forallb mbind result_bind]. intros [= ->].
    by match goal with |- context [forallb ?f ?l] => destruct (forallb f l) end.
Qed.

Lemma keyMatchesb_differs (key : string) (value v : JSON) :
  isScalar value = true → keyDiffers key value v → keyMatchesb key value v = false.
Proof.
  intros Hs (m & -> & [Hn|(x & Hx & Heq)]); cbn.
  - by rewrite Hn.
  - rewrite Hx. unfold scalarEq. by rewrite Heq.
Qed.

Lemma keyMatchesb_matches (key : string) (value v : JSON) :
  keyMatches key value v → keyMatchesb key value v = true.
Proof. intros (m & x & -> & Hx & Heq). cbn. rewrite Hx. unfold scalarEq. by rewrite Heq. Qed.

Lemma findMapInSliceFrom_total (index : nat) (l : list JSON) (key : string) (value : JSON) :
  isScalar value = true → Forall (λ v, TypeOf v = Some TMap) l →
  ∃ r, findMapInSliceFrom index l key value = Ok r.
Proof.
  intros Hs Hl. revert index. induction Hl as [|v l Hv Hl IH]; intros index; cbn.
  { by eexists. }
  apply TypeOf_map in Hv as [m ->]. destruct (m !! key) as [x|]; [|apply IH].
  assert (ifaceEq x value = Ok (DeepEqual x value)) as -> by (by destruct x, value).
  cbn. destruct (DeepEqual x value); [by eexists|apply IH].
Qed.

(** The loop that deletes all matching entries ends within as many rounds
    as the list has elements, and leaves the elements that do not match, in
    their order. *)
Lemma deleteAllMatching_spec (rounds : nat) (l : list JSON) (key : string) (value : JSON) :
  isScalar value = true → Forall (λ v, TypeOf v = Some TMap) l →
  (length l ≤ rounds)%nat →
  deleteAllMatching rounds l key value
    = Ok (filter (λ v, keyMatchesb key value v = false) l).
Proof.
  intros Hs. revert l. induction rounds as [|n IH]; intros l Hl Hlen.
  - destruct l; [|cbn in Hlen; lia]. done.
  - cbn [deleteAllMatching]. unfold findMapInSliceBasedOnKeyValue.
    pose proof (findMapInSliceFrom_spec O l key value) as Hspec.
    destruct (findMapInSliceFrom_total O l key value Hs Hl) as [r Hr].
    rewrite Hr in Hspec |- *. cbn [mbind result_bind].
    destruct r as [[m i]|].
    + destruct Hspec as (l1 & l2 & -> & -> & Hl1 & Hm). cbn [Nat.add].
      rewrite delete_middle.
      apply Forall_app in Hl as [Hl1m Hl2m]. apply Forall_cons in Hl2m as [_ Hl2m].
      rewrite IH.
      * f_equal. rewrite !filter_app. f_equal.
        rewrite filter_cons_False; [done|].
        rewrite (keyMatchesb_matches _ _ _ Hm). done.
      * by apply Forall_app.
      * rewrite length_app in Hlen |- *. cbn in Hlen. lia.
    + f_equal. symmetry. clear Hr Hl Hlen. induction Hspec as [|v l Hv Hl IHl]; [done|].
      rewrite filter_cons_True by (by apply keyMatchesb_differs). by f_equal.
Qed.

(** X17. A patch list that holds the one element [{"$patch": "delete", key: v}]
    deletes from a merging list of maps every element whose merge key
    equals [v], and keeps the others in their order. *)
Theorem mergeSlice_delete_directive
    (rec : JSONMap → JSONMap → rtype Sch → bool → bool → result JSONMap)
    (l : list JSON) (elemType : rtype Sch) (mergeKey : string) (value : JSON)
    (mergeDeleteList isDeleteList ignoreUnmatchedNulls : bool) :
  mergeKey ≠ "" → mergeKey ≠ directiveMarker →
  isScalar value = true → Forall (λ v, TypeOf v = Some TMap) l →
  mergeSlice Sch Go rec l
    [JObject (<[directiveMarker := JString deleteDirective]> {[ mergeKey := value ]})]
    elemType mergeKey mergeDeleteList isDeleteList ignoreUnmatchedNulls
  = Ok (filter (λ v, keyMatchesb mergeKey value v = false) l).
Proof.
  intros Hmk Hmk' Hs Hl. unfold mergeSlice.
  rewrite (bool_decide_eq_false_2 (length [_] = O)) by done. rewrite andb_false_r.
  rewrite (sliceElementType_intro _ TMap); cycle 1.
  { cbn. by destruct l. }
  { done. }
  { intros v. cbn. rewrite elem_of_app, list_elem_of_singleton.
    intros [Hv| ->]; [|done]. rewrite Forall_forall in Hl. by apply Hl. }
  cbn [mbind result_bind]. rewrite bool_decide_eq_true_2 by done. cbn [negb].
  assert (strEq mergeKey "" = false) as ->.
  { apply not_true_iff_false. by rewrite strEq_spec. }
  rewrite foldM_singleton. unfold mergeSliceDirectiveStep. cbn [mustMap mbind result_bind].
  rewrite lookup_insert_eq. cbn [isString]. rewrite strEq_refl.
  rewrite lookup_insert_ne by done. rewrite lookup_singleton_eq.
  rewrite deleteAllMatching_spec by done. done.
Qed.

End entry_points.

(** ** What a patch touches *)

(** In a loop over the entries of a map whose body leaves the entry [k] of
    the state alone when it runs on another key, the entry [k] of the result
    is the one the body leaves when it runs on [k]. *)
Lemma rangeM_at_key {A St : Type} (f : St → string → A → result St)
    (proj : St → JSONMap) (I : St → Prop) (m : gmap string A) (st0 r : St)
    (k : string) (v : A) :
  rangeM f st0 m = Ok r → m !! k = Some v →
  I st0 →
  (∀ st k' v' st', m !! k' = Some v' → I st → f st k' v' = Ok st' → I st') →
  (∀ st k' v' st', m !! k' = Some v' → k' ≠ k → f st k' v' = Ok st' →
     proj st' !! k = proj st !! k) →
  ∃ st st', I st ∧ proj st !! k = proj st0 !! k ∧ f st k v = Ok st' ∧
            proj r !! k = proj st' !! k.
Proof.
  unfold rangeM. intros Hr Hk HI0 HI Hother.
  pose proof (NoDup_fst_map_to_list m) as Hnd.
  apply elem_of_map_to_list in Hk.
  assert (∀ kv, kv ∈ map_to_list m → m !! kv.1 = Some kv.2) as Hin.
  { intros [k' v'] Hkv. by apply elem_of_map_to_list. }
  revert Hr Hnd Hk Hin. generalize (map_to_list m). intros l Hr Hnd Hk Hin.
  apply list_elem_of_split in Hk as (l1 & l2 & ->).
  rewrite fmap_app, fmap_cons in Hnd. apply NoDup_app in Hnd as (_ & Hl1 & Hnd).
  apply NoDup_cons in Hnd as [Hl2 _]. cbn in Hl1, Hl2.
  rewrite foldM_app in Hr.
  destruct (foldM _ st0 l1) as [st|] eqn:H1; [|done]. cbn [mbind result_bind] in Hr.
  cbn [foldM] in Hr. cbn [fst snd] in Hr.
  destruct (f st k v) as [st'|] eqn:Hstep; [|done]. cbn [mbind result_bind] in Hr.
  exists st, st'. split; [|split; [|split; [done|]]].
  - apply (foldM_invariant I _ _ _ _ HI0) in H1; [done|].
    intros b [k' v'] b' Hkv Hb Hf. cbn in Hf.
    apply (HI b k' v' b'); [|done|done].
    apply (Hin (k', v')). apply elem_of_app. by left.
  - apply (foldM_invariant (λ s, proj s !! k = proj st0 !! k) _ _ _ _ eq_refl) in H1; [done|].
    intros b [k' v'] b' Hkv Hb Hf. cbn in Hf. rewrite <-Hb.
    apply (Hother b k' v' b'); [|intros ->|done].
    + apply (Hin (k', v')). apply elem_of_app. by left.
    + apply (Hl1 k); [|apply list_elem_of_here]. apply list_elem_of_fmap. by exists (k, v').
  - apply (foldM_invariant (λ s, proj s !! k = proj st' !! k) _ _ _ _ eq_refl) in Hr; [done|].
    intros b [k' v'] b' Hkv Hb Hf. cbn in Hf. rewrite <-Hb.
    apply (Hother b k' v' b'); [|intros ->|done].
    + apply (Hin (k', v')). apply elem_of_app. right. by right.
    + apply Hl2. apply list_elem_of_fmap. by exists (k, v').
Qed.

(** Case analysis along the branches of a loop body, down to its results. *)
Ltac loop_body_cases H :=
  repeat match type of H with
  | Ok (_, _) = Ok _ => injection H as <- <-
  | Ok _ = Ok _ => injection H as <-
  | Err _ = Ok _ => discriminate H
  | context [mbind _ ?e] => destruct e as [?|?] eqn:?; cbn [mbind result_bind] in H
  | context [match ?x with _ => _ end] => destruct x eqn:?; cbn [mbind result_bind] in H
  | context [if ?x then _ else _] => destruct x eqn:?; cbn [mbind result_bind] in H
  end.

Section patch_touches.
Context (Sch : Schema) (Go : GoLib).
Implicit Types (t : rtype Sch) (original patch : JSONMap).

(** One round of [mergeMap]'s loop changes the field the patch entry names
    - for a parallel deletion list that is merged, the field after the first
    slash of its key - and no other. *)
Lemma mergeMapStep_frame
    (rec : JSONMap → JSONMap → rtype Sch → bool → bool → result JSONMap)
    (mdl iun : bool) original t (k' : string) (pv : JSON) original' t' :
  mergeMapStep Sch Go rec mdl iun (original, t) k' pv = Ok (original', t') →
  ∃ kk, (kk = k' ∨
         (String.prefix deleteFromPrimitiveListDirectivePrefix k' = true ∧
          ∃ a, splitSlash k' = Some (a, kk))) ∧
        ∀ k, k ≠ kk → original' !! k = original !! k.
Proof.
  unfold mergeMapStep.
  destruct (String.prefix deleteFromPrimitiveListDirectivePrefix k') eqn:Hp.
  - destruct mdl; cbn [andb negb].
    + destruct (splitSlash k') as [[a kk]|] eqn:Hsplit; [|done].
      cbn [mbind result_bind]. intros Hstep. exists kk. split; [right; eauto|].
      intros k Hk.
      loop_body_cases Hstep; rewrite ?lookup_insert_ne by done;
        destruct pv; by rewrite ?lookup_delete_ne.
    + intros [= <- <-]. exists k'. split; [by left|].
      intros k Hk. by rewrite lookup_insert_ne.
  - cbn [andb mbind result_bind]. intros Hstep. exists k'. split; [by left|].
    intros k Hk.
    loop_body_cases Hstep; rewrite ?lookup_insert_ne by done;
      destruct pv; by rewrite ?lookup_delete_ne.
Qed.

Lemma mergeMap_loop (n : nat) original patch t (mdl iun : bool) r :
  mergeMap Sch Go n original patch t mdl iun = Ok r →
  patch !! directiveMarker = None →
  ∃ n' st, n = S n' ∧
    rangeM (mergeMapStep Sch Go (mergeMap Sch Go n') mdl iun) (original, t) patch = Ok st ∧
    r = st.1.
Proof.
  destruct n as [|n']; [done|]. cbn [mergeMap]. unfold mergeMapBody. intros Hm Hmk. rewrite Hmk in Hm.
  destruct (rangeM _ _ _) as [st|] eqn:Hst; [|done]. cbn in Hm. injection Hm as <-.
  by exists n', st.
Qed.

(** X18. A patch without a [$patch] directive leaves alone every field that it
    does not name: a field that is no key of the patch, and that no parallel
    deletion list of the patch is for, is in the result what it was in the
    original. *)
Theorem patch_leaves_other_fields (n : nat) original patch t (mdl iun : bool)
    (r : JSONMap) (k : string) :
  mergeMap Sch Go n original patch t mdl iun = Ok r →
  patch !! directiveMarker = None →
  patch !! k = None →
  (∀ k' a, is_Some (patch !! k') →
     String.prefix deleteFromPrimitiveListDirectivePrefix k' = true →
     splitSlash k' ≠ Some (a, k)) →
  r !! k = original !! k.
Proof.
  intros Hm Hmarker Hk Hpar.
  destruct (mergeMap_loop _ _ _ _ _ _ _ Hm Hmarker) as (n' & st & -> & Hloop & ->).
  apply (rangeM_invariant (λ s : JSONMap * rtype Sch, s.1 !! k = original !! k)
           _ (original, t) _ _ eq_refl) in Hloop; [done|].
  intros [o t1] k' v' [o' t1'] Hk' Ho Hstep. cbn in Ho |- *. rewrite <-Ho.
  destruct (mergeMapStep_frame _ _ _ _ _ _ _ _ _ Hstep) as (kk & Hkk & Hframe).
  apply Hframe. intros ->. destruct Hkk as [->|(Hp & a & Hsplit)].
  - by rewrite Hk in Hk'.
  - by apply (Hpar k' a).
Qed.


End patch_touches.

(** ** What a two-way patch holds *)

Lemma prefix_app (p s : string) : String.prefix p (p +:+ s) = true.
Proof.
  induction p as [|c p IH].
  - change ("" +:+ s) with s. by destruct s.
  - change (String c p +:+ s) with (String c (p +:+ s)). cbn [String.prefix].
    by destruct (ascii_dec c c).
Qed.

Lemma TypeOf_differ (a b : JSON) : TypeOf a ≠ TypeOf b → DeepEqual a b = false.
Proof.
  intros Hne. apply not_true_iff_false. rewrite DeepEqual_spec. by intros ->.
Qed.

Section patch_holds.
Context (Sch : Schema) (Go : GoLib).
Implicit Types (t : rtype Sch) (original modified patch : JSONMap).

(** One round of [diffMaps]'s loop over [modified] writes the patch at its
    key, or at the key of its parallel deletion list, and nowhere else. *)
Lemma diffMapsStep_frame
    (rec : JSONMap → JSONMap → rtype Sch → bool → bool → result JSONMap)
    original t (iC iD : bool) patch (k' : string) (v : JSON) patch' :
  diffMapsStep Sch Go rec original t iC iD patch k' v = Ok patch' →
  ∀ k, k ≠ k' → k ≠ deleteFromPrimitiveListDirectivePrefix +:+ "/" +:+ k' →
       patch' !! k = patch !! k.
Proof.
  unfold diffMapsStep. intros Hstep k Hk Hpar.
  destruct (strEq k' directiveMarker) eqn:Hmk; [apply strEq_spec in Hmk as ->|];
  loop_body_cases Hstep;
  repeat case_match; by rewrite ?lookup_insert_ne.
Qed.

Lemma diffMaps_loops (n : nat) original modified t (iC iD : bool) patch :
  diffMaps Sch Go n original modified t iC iD = Ok patch →
  ∃ n' t1 patch1, n = S n' ∧ derefPtr Sch t = Ok t1 ∧
    rangeM (diffMapsStep Sch Go (diffMaps Sch Go n') original t1 iC iD) ∅ modified
      = Ok patch1 ∧
    (if iD then Ok patch1
     else rangeM (λ patch key (_ : JSON),
            Ok (match modified !! key with
                | Some _ => patch
                | None => <[key := JNull]> patch
                end)) patch1 original) = Ok patch.
Proof.
  destruct n as [|n']; [done|]. cbn [diffMaps]. unfold diffMapsBody. intros Hd.
  destruct (derefPtr Sch t) as [t1|]; [|done]. cbn [mbind result_bind] in Hd.
  destruct (rangeM _ _ modified) as [patch1|] eqn:H1; [|done].
  cbn [mbind result_bind] in Hd. by exists n', t1, patch1.
Qed.

(** X20. The two-way patch at a field [k] that is no directive: a field that
    only [modified] has is in the patch as it is in [modified]; a field that
    only [original] has is [null] in the patch; a field of both whose
    value is a scalar on one side at least is left out when the two
    values are equal and is the value of [modified] otherwise. *)
Theorem diffMaps_entries (n : nat) original modified t patch (k : string) :
  diffMaps Sch Go n original modified t false false = Ok patch →
  String.prefix deleteFromPrimitiveListDirectivePrefix k = false →
  k ≠ directiveMarker →
  match original !! k, modified !! k with
  | None, bv => patch !! k = bv
  | Some _, None => patch !! k = Some JNull
  | Some av, Some bv =>
      isScalar av = true ∨ isScalar bv = true →
      patch !! k = if DeepEqual av bv then None else Some bv
  end.
Proof.
  intros Hd Hp Hk.
  destruct (diffMaps_loops _ _ _ _ _ _ _ Hd) as (n' & t1 & patch1 & -> & Ht & H1 & H2).
  assert (∀ k', k ≠ deleteFromPrimitiveListDirectivePrefix +:+ "/" +:+ k') as Hpar.
  { intros k' ->. by rewrite prefix_app in Hp. }
  (* the loop over [modified] *)
  assert (match modified !! k with
          | None => patch1 !! k = None
          | Some bv =>
              match original !! k with
              | None => patch1 !! k = Some bv
              | Some av =>
                  isScalar av = true ∨ isScalar bv = true →
                  patch1 !! k = if DeepEqual av bv then None else Some bv
              end
          end) as Hfirst.
  { destruct (modified !! k) as [bv|] eqn:Hb.
    - destruct (rangeM_at_key _ id (λ _, True) _ _ _ k bv H1 Hb I)
        as (st & st' & _ & Hst & Hstep & Hres); [done|..].
      { intros st k' v' st' _ Hne Hstep. cbn.
        by apply (diffMapsStep_frame _ _ _ _ _ _ _ _ _ Hstep). }
      cbn [id] in Hst, Hres. rewrite Hres. clear Hres.
      rewrite lookup_empty in Hst. unfold diffMapsStep in Hstep.
      destruct (original !! k) as [av|] eqn:Ha.
      + intros Hscalar.
        assert (strEq k directiveMarker = false) as Hmk.
        { apply not_true_iff_false. by rewrite strEq_spec. }
        rewrite Hmk in Hstep.
        destruct (bool_decide (TypeOf av = TypeOf bv)) eqn:Hty; cbn [negb] in Hstep.
        * apply bool_decide_eq_true in Hty.
          assert (match av, bv with
                  | JObject _, JObject _ | JArray _, JArray _ => False
                  | _, _ => True
                  end) as Hshape.
          { destruct Hscalar as [Hs|Hs]; destruct av, bv; done. }
          assert (Ok (if DeepEqual av bv then st else <[k := bv]> st) = Ok st') as Hres.
          { destruct av, bv; done. }
          injection Hres as <-. destruct (DeepEqual av bv); [done|].
          apply lookup_insert_eq.
        * apply bool_decide_eq_false in Hty. injection Hstep as <-.
          rewrite (TypeOf_differ _ _ Hty). apply lookup_insert_eq.
      + injection Hstep as <-. apply lookup_insert_eq.
    - apply (rangeM_invariant (λ s : JSONMap, s !! k = None) _ ∅ _ _ (lookup_empty k)) in H1;
        [done|].
      intros st k' v' st' Hk' Hst Hstep. rewrite <-Hst.
      apply (diffMapsStep_frame _ _ _ _ _ _ _ _ _ Hstep); [|done].
      intros ->. by rewrite Hb in Hk'. }
  (* the loop over [original] that adds the nils *)
  cbn in H2. destruct (original !! k) as [av|] eqn:Ha.
  - destruct (rangeM_at_key _ id (λ _, True) _ _ _ k av H2 Ha I)
      as (st & st' & _ & Hst & Hstep & Hres); [done|..].
    { intros st k' v' st' _ Hne [= <-]. cbn. destruct (modified !! k'); [done|].
      by rewrite lookup_insert_ne. }
    cbn [id] in Hst, Hres. rewrite Hres. clear Hres. injection Hstep as <-.
    destruct (modified !! k) as [bv|] eqn:Hb.
    + intros Hscalar. rewrite Hst. by apply Hfirst.
    + apply lookup_insert_eq.
  - apply (rangeM_invariant (λ s : JSONMap, s !! k = patch1 !! k) _ patch1 _ _ eq_refl) in H2.
    + rewrite H2. by destruct (modified !! k).
    + intros st k' v' st' Hk' Hst [= <-]. rewrite <-Hst.
      destruct (modified !! k'); [done|]. rewrite lookup_insert_ne; [done|].
      intros ->. by rewrite Ha in Hk'.
Qed.

End patch_holds.

(** ** Which shared fields conflict *)

Section shared_fields.
Context (Sch : Schema) (Go : GoLib).
Implicit Types (t : rtype Sch) (left right : JSONMap).

Lemma markerConflict_none left right :
  left !! directiveMarker = None → right !! directiveMarker = None →
  markerConflict left right = Ok false.
Proof. intros Hl Hr. unfold markerConflict. by rewrite Hl, Hr. Qed.

Lemma fieldConflict_scalar t (k : string) (lv rv : JSON) ft s mk :
  LookupPatchMetadata Sch t k = Ok (ft, s, mk) → isScalar lv = true →
  fieldConflict Sch Go t k lv rv = Ok (negb (DeepEqual lv rv)).
Proof.
  intros Hl Hs. unfold fieldConflict. rewrite Hl. cbn [mbind result_bind].
  cbn [mergingMapFieldsHaveConflicts]. by destruct lv.
Qed.

(** X21. Two patches without [$patch] directive whose shared fields hold
    scalars (in the left patch) conflict exactly when they give some shared
    field two different values; with no shared field there is no conflict. *)
Theorem flat_patches_conflict left right t (ds : option (rtype Sch)) :
  SortPermutes Go →
  getTagStructType Sch ds = Ok t →
  left !! directiveMarker = None → right !! directiveMarker = None →
  (∀ k lv rv, left !! k = Some lv → right !! k = Some rv →
     isScalar lv = true ∧ ∃ m, LookupPatchMetadata Sch t k = Ok m) →
  conflictReported (MergingMapsHaveConflicts Sch Go left right ds) = true
  ↔ ∃ k lv rv, left !! k = Some lv ∧ right !! k = Some rv ∧ lv ≠ rv.
Proof.
  intros Hsort Ht Hl Hr Hshared.
  rewrite (MergingMapsHaveConflicts_reported _ _ _ _ _ _ Hsort Ht).
  rewrite (markerConflict_none _ _ Hl Hr). split.
  - intros [?|(k & lv & rv & Hlk & _ & Hrk & Hc)]; [done|]. exists k, lv, rv.
    split; [done|]. split; [done|].
    destruct (Hshared _ _ _ Hlk Hrk) as [Hs [[[ft s] mk] Hm]].
    rewrite (fieldConflict_scalar _ _ _ _ _ _ _ Hm Hs) in Hc. cbn in Hc.
    intros ->. by rewrite DeepEqual_refl in Hc.
  - intros (k & lv & rv & Hlk & Hrk & Hne). right. exists k, lv, rv.
    split; [done|]. split; [intros ->; by rewrite Hl in Hlk|]. split; [done|].
    destruct (Hshared _ _ _ Hlk Hrk) as [Hs [[[ft s] mk] Hm]].
    rewrite (fieldConflict_scalar _ _ _ _ _ _ _ Hm Hs). cbn.
    apply negb_true_iff, not_true_iff_false. by rewrite DeepEqual_spec.
Qed.

(** X22. Two patches whose shared fields are all objects with the replace
    strategy (and hold no [$patch] directive) are not reported as
    conflicting, whatever the two objects hold. *)
Theorem replaced_objects_do_not_conflict left right t (ds : option (rtype Sch)) :
  SortPermutes Go →
  getTagStructType Sch ds = Ok t →
  left !! directiveMarker = None → right !! directiveMarker = None →
  (∀ k lv rv, left !! k = Some lv → right !! k = Some rv →
     ∃ lm rm ft mk, lv = JObject lm ∧ rv = JObject rm ∧
       lm !! directiveMarker = None ∧ rm !! directiveMarker = None ∧
       LookupPatchMetadata Sch t k = Ok (ft, replaceDirective, mk)) →
  MergingMapsHaveConflicts Sch Go left right ds = Ok false.
Proof.
  intros Hsort Ht Hl Hr Hshared.
  assert (conflictReported (MergingMapsHaveConflicts Sch Go left right ds) ≠ true) as Hno.
  { rewrite (MergingMapsHaveConflicts_reported _ _ _ _ _ _ Hsort Ht).
    rewrite (markerConflict_none _ _ Hl Hr).
    intros [?|(k & lv & rv & Hlk & _ & Hrk & Hc)]; [done|].
    destruct (Hshared _ _ _ Hlk Hrk) as (lm & rm & ft & mk & -> & -> & Hlm & Hrm & Hm).
    unfold fieldConflict in Hc. rewrite Hm in Hc. cbn [mbind result_bind] in Hc.
    cbn [mergingMapFieldsHaveConflicts] in Hc. unfold mergingMapFieldsHaveConflictsBody in Hc.
    rewrite Hlm, Hrm in Hc. cbn [mbind result_bind] in Hc.
    by rewrite strEq_refl in Hc. }
  by destruct (MergingMapsHaveConflicts Sch Go left right ds) as [[]|].
Qed.

End shared_fields.

(** ** Three-way merge without out-of-band changes *)

Section no_changes.
Context (Sch : Schema) (Go : GoLib).
Implicit Types (t : rtype Sch) (original modified current patch : JSONMap).






End no_changes.

(** ** Merging lists *)

Section merging_lists.
Context (Sch : Schema) (Go : GoLib).
Implicit Types (t : rtype Sch) (original modified patch : JSONMap).

(** X24. Merging two lists of scalars gives their union: the result has no
    duplicates and holds exactly the values of the two lists. *)
Theorem mergeSlice_scalars
    (rec : JSONMap → JSONMap → rtype Sch → bool → bool → result JSONMap)
    (lo lp : list JSON) (elemType : rtype Sch) (mergeKey : string)
    (mergeDeleteList isDeleteList ignoreUnmatchedNulls : bool) (r : list JSON) :
  mergeSlice Sch Go rec lo lp elemType mergeKey mergeDeleteList isDeleteList
    ignoreUnmatchedNulls = Ok r →
  Forall (λ v, TypeOf v ≠ Some TMap) (lo ++ lp) →
  mergeDeleteList && isDeleteList = false →
  NoDup r ∧ ∀ x, x ∈ r ↔ x ∈ lo ∨ x ∈ lp.
Proof.
  unfold mergeSlice. intros Hm Hnomap Hflags.
  destruct (bool_decide (length lo = O) && bool_decide (length lp = O)) eqn:Hempty.
  - apply andb_true_iff in Hempty as [Hlo Hlp].
    apply bool_decide_eq_true, nil_length_inv in Hlo, Hlp. subst. injection Hm as <-.
    split; [constructor|]. intros x. rewrite elem_of_nil. tauto.
  - destruct (sliceElementType [lo; lp]) as [ty|] eqn:Hty; [|done].
    cbn [mbind result_bind] in Hm.
    apply sliceElementType_Ok in Hty as (Hne & Hslice & Hall).
    cbn in Hne, Hall. rewrite app_nil_r in Hne, Hall.
    assert (ty ≠ TMap) as Hmap.
    { intros ->. destruct (lo ++ lp) as [|v l] eqn:Hl; [done|].
      apply Forall_cons in Hnomap as [Hv _]. apply Hv, Hall, list_elem_of_here. }
    rewrite bool_decide_eq_false_2 in Hm by done. cbn [negb] in Hm.
    rewrite Hflags in Hm. injection Hm as <-.
    destruct (uniqifyOuter_spec (length (lo ++ lp)) (lo ++ lp)) as [Hnd Hin]; [|done|].
    + rewrite Forall_forall. intros v Hv. specialize (Hall v Hv).
      destruct v; try done; cbn in Hall; by injection Hall as <-.
    + split; [done|]. intros x. unfold uniqifyScalars. by rewrite Hin, elem_of_app.
Qed.

Lemma mergeSlice_directive_loop (mergeKey : string) (lo lp pws : list JSON) (rep : bool) :
  Forall (λ v, TypeOf v = Some TMap) lp →
  (∀ m v, JObject m ∈ lp → m !! directiveMarker = Some v → v = JString replaceDirective) →
  foldM (mergeSliceDirectiveStep mergeKey) (lo, pws, rep) lp
  = Ok (lo, pws ++ filter (λ v, hasDirective v = false) lp, rep || existsb hasDirective lp).
Proof.
  intros Hmaps. revert pws rep. induction Hmaps as [|v lp Hv Hmaps IH]; intros pws rep Hrep.
  { cbn. by rewrite app_nil_r, orb_false_r. }
  apply TypeOf_map in Hv as [m ->]. cbn [foldM].
  destruct (m !! directiveMarker) as [d|] eqn:Hd.
  - assert (d = JString replaceDirective) as ->
      by (apply (Hrep m); [apply list_elem_of_here|done]).
    assert (mergeSliceDirectiveStep mergeKey (lo, pws, rep) (JObject m)
            = Ok (lo, pws, true)) as ->.
    { unfold mergeSliceDirectiveStep. cbn [mustMap mbind result_bind]. by rewrite Hd. }
    cbn [mbind result_bind]. rewrite IH by (intros m' v' Hm'; apply Hrep; by right).
    rewrite filter_cons_False.
    + cbn [existsb hasDirective]. rewrite Hd.
      rewrite (bool_decide_eq_true_2 (is_Some (Some (JString replaceDirective)))) by done.
      by rewrite orb_true_r.
    + cbn. rewrite Hd. rewrite bool_decide_eq_true_2 by done. done.
  - assert (mergeSliceDirectiveStep mergeKey (lo, pws, rep) (JObject m)
            = Ok (lo, pws ++ [JObject m], rep)) as ->.
    { unfold mergeSliceDirectiveStep. cbn [mustMap mbind result_bind]. by rewrite Hd. }
    cbn [mbind result_bind]. rewrite IH by (intros m' v' Hm'; apply Hrep; by right).
    rewrite filter_cons_True.
    + cbn [existsb hasDirective]. rewrite Hd.
      rewrite (bool_decide_eq_false_2 (is_Some None)) by (by intros [? ?]).
      by rewrite <-app_assoc.
    + cbn. rewrite Hd. by rewrite bool_decide_eq_false_2 by (by intros [? ?]).
Qed.

(** X25. A patch list of maps with an element [{"$patch": "replace"}] replaces
    the merging list: the result is the patch list without its directive
    elements, whatever the original list holds. *)
Theorem mergeSlice_replace_directive
    (rec : JSONMap → JSONMap → rtype Sch → bool → bool → result JSONMap)
    (lo lp : list JSON) (elemType : rtype Sch) (mergeKey : string)
    (mergeDeleteList isDeleteList ignoreUnmatchedNulls : bool) :
  mergeKey ≠ "" →
  Forall (λ v, TypeOf v = Some TMap) (lo ++ lp) →
  (∀ m v, JObject m ∈ lp → m !! directiveMarker = Some v → v = JString replaceDirective) →
  (∃ v, v ∈ lp ∧ hasDirective v = true) →
  mergeSlice Sch Go rec lo lp elemType mergeKey mergeDeleteList isDeleteList
    ignoreUnmatchedNulls
  = Ok (filter (λ v, hasDirective v = false) lp).
Proof.
  intros Hmk Hmaps Hrep (d & Hd & Hdir). unfold mergeSlice.
  assert (lp ≠ []) as Hlp by (intros ->; by apply elem_of_nil in Hd).
  rewrite (bool_decide_eq_false_2 (length lp = O)) by (by destruct lp).
  rewrite andb_false_r.
  rewrite (sliceElementType_intro _ TMap); cycle 1.
  { cbn. rewrite app_nil_r. by destruct lo, lp. }
  { done. }
  { intros v. cbn. rewrite app_nil_r. rewrite Forall_forall in Hmaps. apply Hmaps. }
  cbn [mbind result_bind]. rewrite bool_decide_eq_true_2 by done. cbn [negb].
  assert (strEq mergeKey "" = false) as ->.
  { apply not_true_iff_false. by rewrite strEq_spec. }
  apply Forall_app in Hmaps as [_ Hlpm].
  rewrite mergeSlice_directive_loop by done. cbn [mbind result_bind orb].
  assert (existsb hasDirective lp = true) as ->.
  { apply existsb_exists. exists d. split; [by apply list_elem_of_In|done]. }
  done.
Qed.

(** X26. The two-way patch of a document with itself is empty (or the call
    fails on a malformed document), for schemas without the replace
    strategy. *)
Theorem two_way_no_difference original (ds : option (rtype Sch)) :
  SortPermutes Go →
  (∀ t k ft s mk, LookupPatchMetadata Sch t k = Ok (ft, s, mk) → s ≠ replaceDirective) →
  returnsOrFails (CreateTwoWayMergeMapPatch Sch Go original original ds []) ∅.
Proof.
  intros Hsort Hnorep. unfold CreateTwoWayMergeMapPatch.
  destruct (getTagStructType Sch ds) as [t|e] eqn:Ht.
  - cbn [mbind result_bind]. apply (returnsOrFails_bind _ ∅); [|by left].
    apply diffMaps_contained; [done|by right|done|by right|]. unfold fuelFor. lia.
  - right. exists e. split; [done|]. by apply (getTagStructType_genuine _ ds).
Qed.

End merging_lists.

(** ** The properties above on concrete documents *)

Lemma uniqifyScalars_spec_witness :
  NoDup (uniqifyScalars [JNumber 1; JNumber 2; JNumber 1]) ∧
  ∀ z, z ∈ uniqifyScalars [JNumber 1; JNumber 2; JNumber 1]
       ↔ z ∈ [JNumber 1; JNumber 2; JNumber 1].
Proof. apply uniqifyScalars_spec. repeat constructor. Defined.

Lemma mergeSlice_delete_directive_witness :
  let l := [JObject {[ "name" := JString "a" ]}; JObject {[ "name" := JString "b" ]}] in
  mergeSlice podSchema goLib (mergeMap podSchema goLib 1) l
    [JObject (<[directiveMarker := JString deleteDirective]> {[ "name" := JString "a" ]})]
    Container "name" true false true
  = Ok (filter (λ v, keyMatchesb "name" (JString "a") v = false) l).
Proof.
  cbv zeta. apply mergeSlice_delete_directive.
  - discriminate.
  - discriminate.
  - reflexivity.
  - repeat constructor.
Defined.

Lemma patch_leaves_other_fields_witness :
  let original : JSONMap := {[ "a" := JNumber 1; "b" := JNumber 2 ]} in
  let r : JSONMap := {[ "a" := JNumber 3; "b" := JNumber 2 ]} in
  mergeMap trivialSchema goLib 1 original {[ "a" := JNumber 3 ]} tt true true = Ok r ∧
  r !! "b" = original !! "b".
Proof.
  cbv zeta. split; [by vm_compute|].
  apply (patch_leaves_other_fields trivialSchema goLib 1 _ {[ "a" := JNumber 3 ]} tt
           true true).
  - vm_compute. reflexivity.
  - reflexivity.
  - reflexivity.
  - intros k' a [v Hv]. apply lookup_singleton_Some in Hv as [<- _]. discriminate.
Defined.


Lemma diffMaps_entries_witness :
  let patch : JSONMap :=
    {[ "replicas" := JNumber 3; "old" := JNull; "new" := JBool true ]} in
  diffMaps trivialSchema goLib 2
    {[ "replicas" := JNumber 1; "old" := JString "x" ]}
    {[ "replicas" := JNumber 3; "new" := JBool true ]} tt false false = Ok patch ∧
  patch !! "new" = Some (JBool true) ∧ patch !! "old" = Some JNull ∧
  (isScalar (JNumber 1) = true ∨ isScalar (JNumber 3) = true →
   patch !! "replicas" = Some (JNumber 3)).
Proof.
  cbv zeta.
  pose proof (diffMaps_entries trivialSchema goLib 2
                {[ "replicas" := JNumber 1; "old" := JString "x" ]}
                {[ "replicas" := JNumber 3; "new" := JBool true ]} tt
                {[ "replicas" := JNumber 3; "old" := JNull; "new" := JBool true ]})
    as Hentries.
  split; [by vm_compute|]. split; [|split].
  - apply (Hentries "new"); [vm_compute; reflexivity|reflexivity|discriminate].
  - apply (Hentries "old"); [vm_compute; reflexivity|reflexivity|discriminate].
  - apply (Hentries "replicas"); [vm_compute; reflexivity|reflexivity|discriminate].
Defined.

Lemma flat_patches_conflict_witness :
  let left : JSONMap := {[ "replicas" := JNumber 3 ]} in
  let right : JSONMap := {[ "replicas" := JNumber 5 ]} in
  conflictReported (MergingMapsHaveConflicts trivialSchema goLib left right (Some tt)) = true
  ↔ ∃ k lv rv, left !! k = Some lv ∧ right !! k = Some rv ∧ lv ≠ rv.
Proof.
  cbv zeta. apply (flat_patches_conflict trivialSchema goLib _ _ tt).
  - exact goLib_SortPermutes.
  - reflexivity.
  - reflexivity.
  - reflexivity.
  - intros k lv rv Hl _. apply lookup_singleton_Some in Hl as [<- <-].
    split; [reflexivity|]. by eexists.
Defined.

Lemma replaced_objects_do_not_conflict_witness :
  MergingMapsHaveConflicts podSchema goLib
    {[ "selector" := JObject {[ "app" := JString "a" ]} ]}
    {[ "selector" := JObject {[ "app" := JString "b" ]} ]} (Some PodSpec) = Ok false.
Proof.
  apply (replaced_objects_do_not_conflict podSchema goLib _ _ PodSpec).
  - exact goLib_SortPermutes.
  - reflexivity.
  - reflexivity.
  - reflexivity.
  - intros k lv rv Hl Hr. apply lookup_singleton_Some in Hl as [<- <-].
    apply lookup_singleton_Some in Hr as [_ <-].
    exists {[ "app" := JString "a" ]}, {[ "app" := JString "b" ]}, Plain, "".
    repeat split; reflexivity.
Defined.


Lemma mergeSlice_scalars_witness :
  let r := [JString "a"; JString "b"] in
  mergeSlice podSchema goLib (mergeMap podSchema goLib 1)
    [JString "a"] [JString "a"; JString "b"] Plain "" true false true = Ok r ∧
  NoDup r ∧ ∀ x, x ∈ r ↔ x ∈ [JString "a"] ∨ x ∈ [JString "a"; JString "b"].
Proof.
  cbv zeta. split; [by vm_compute|].
  apply (mergeSlice_scalars podSchema goLib (mergeMap podSchema goLib 1)
           [JString "a"] [JString "a"; JString "b"] Plain "" true false true).
  - vm_compute. reflexivity.
  - repeat constructor; discriminate.
  - reflexivity.
Defined.

Lemma mergeSlice_replace_directive_witness :
  let lp := [JObject {[ directiveMarker := JString replaceDirective ]};
             JObject {[ "name" := JString "b" ]}] in
  mergeSlice podSchema goLib (mergeMap podSchema goLib 1)
    [JObject {[ "name" := JString "a" ]}] lp Container "name" true false true
  = Ok (filter (λ v, hasDirective v = false) lp).
Proof.
  cbv zeta. apply mergeSlice_replace_directive.
  - discriminate.
  - repeat constructor.
  - intros m v Hin Hm. apply elem_of_cons in Hin as [Hin|Hin].
    + injection Hin as ->. apply lookup_singleton_Some in Hm as [_ <-]. reflexivity.
    + apply list_elem_of_singleton in Hin. injection Hin as ->.
      apply lookup_singleton_Some in Hm as [Hk _]. discriminate Hk.
  - exists (JObject {[ directiveMarker := JString replaceDirective ]}).
    split; [apply list_elem_of_here|reflexivity].
Defined.

Lemma two_way_no_difference_witness :
  returnsOrFails
    (CreateTwoWayMergeMapPatch trivialSchema goLib
       {[ "replicas" := JNumber 1 ]} {[ "replicas" := JNumber 1 ]} (Some tt) []) ∅.
Proof.
  apply two_way_no_difference.
  - exact goLib_SortPermutes.
  - intros t k ft s mk Hl. vm_compute in Hl. injection Hl as _ <- _. discriminate.
Defined.

(** ** Object and list fields *)

Section nested_fields.
Context (Sch : Schema) (Go : GoLib).
Implicit Types (t : rtype Sch) (original modified patch : JSONMap).



(** X28. The two-way patch at an object or list field of both documents whose
    metadata the lookup knows: an object with the replace strategy is in the
    patch as [modified] has it, changed or not; another object is in the
    patch as the patch between the two objects, when that is not empty; a
    list without the merge strategy is left out when unchanged and is the
    list of [modified] otherwise. *)
Theorem diffMaps_nested_entries (n : nat) original modified t t1 patch (k : string)
    (av bv : JSON) ft (s mk : string) :
  diffMaps Sch Go (S n) original modified t false false = Ok patch →
  String.prefix deleteFromPrimitiveListDirectivePrefix k = false →
  k ≠ directiveMarker →
  original !! k = Some av → modified !! k = Some bv →
  derefPtr Sch t = Ok t1 →
  LookupPatchMetadata Sch t1 k = Ok (ft, s, mk) →
  match av, bv with
  | JObject om, JObject mm =>
      if strEq s replaceDirective then patch !! k = Some bv
      else ∃ pv, diffMaps Sch Go n om mm ft false false = Ok pv ∧
                 patch !! k = if bool_decide (0 < size pv)%nat
                              then Some (JObject pv) else None
  | JArray _, JArray _ =>
      strEq s mergeDirective = false →
      patch !! k = if DeepEqual av bv then None else Some bv
  | _, _ => True
  end.
Proof.
  intros Hd Hp Hk Ha Hb Ht Hl.
  destruct (diffMaps_loops _ _ _ _ _ _ _ _ _ Hd) as (n' & t1' & patch1 & [= <-] & Ht' & H1 & H2).
  rewrite Ht in Ht'. injection Ht' as <-.
  assert (∀ k', k ≠ deleteFromPrimitiveListDirectivePrefix +:+ "/" +:+ k') as Hpar.
  { intros k' ->. by rewrite prefix_app in Hp. }
  assert (patch !! k = patch1 !! k) as ->.
  { cbn in H2.
    destruct (rangeM_at_key _ id (λ _, True) _ _ _ k av H2 Ha I)
      as (st & st' & _ & Hst & Hstep & Hres); [done|..].
    { intros st k' v' st' _ Hne [= <-]. cbn. destruct (modified !! k'); [done|].
      by rewrite lookup_insert_ne. }
    cbn [id] in Hst, Hres. rewrite Hres, <-Hst. injection Hstep as <-. by rewrite Hb. }
  destruct (rangeM_at_key _ id (λ _, True) _ _ _ k bv H1 Hb I)
    as (st & st' & _ & Hst & Hstep & Hres); [done|..].
  { intros st k' v' st' _ Hne Hstep. cbn.
    by apply (diffMapsStep_frame _ _ _ _ _ _ _ _ _ _ _ Hstep). }
  cbn [id] in Hst, Hres. rewrite Hres. clear Hres. rewrite lookup_empty in Hst.
  unfold diffMapsStep in Hstep. rewrite Ha in Hstep.
  assert (strEq k directiveMarker = false) as Hmk.
  { apply not_true_iff_false. by rewrite strEq_spec. }
  rewrite Hmk in Hstep.
  remember (DeepEqual av bv) as same eqn:Hsame. clear Hsame.
  destruct av as [| | | |al|om], bv as [| | | |bl|mm]; try done.
  - intros Hs. cbn [TypeOf] in Hstep. rewrite bool_decide_eq_true_2 in Hstep by done.
    cbn [negb] in Hstep. rewrite Hl, Hs in Hstep. injection Hstep as <-.
    destruct same; [done|]. apply lookup_insert_eq.
  - cbn [TypeOf] in Hstep. rewrite bool_decide_eq_true_2 in Hstep by done.
    cbn [negb] in Hstep. rewrite Hl in Hstep.
    destruct (strEq s replaceDirective).
    + injection Hstep as <-. apply lookup_insert_eq.
    + destruct (diffMaps Sch Go n om mm ft false false) as [pv|] eqn:Hpv; [|done].
      cbn [mbind result_bind] in Hstep. injection Hstep as <-. exists pv. split; [done|].
      destruct (bool_decide (0 < size pv)%nat); [apply lookup_insert_eq|done].
Qed.

End nested_fields.

(** ** Sorting the merge lists *)

(** A loop that builds a new map entry by entry holds, at every key of the
    map it ranges over, what its body computed there, and nothing else. *)
Lemma rangeM_rebuild (g : string → JSON → result JSON) (s s' : JSONMap) (k : string) :
  rangeM (λ (newS : JSONMap) k v, v' ← g k v; Ok (<[k := v']> newS)) ∅ s = Ok s' →
  match s !! k with
  | Some v => ∃ v', g k v = Ok v' ∧ s' !! k = Some v'
  | None => s' !! k = None
  end.
Proof.
  intros Hloop.
  assert (∀ (st : JSONMap) k' v' st', k' ≠ k →
            (v2 ← g k' v'; Ok (<[k' := v2]> st)) = Ok st' → st' !! k = st !! k) as Hframe.
  { intros st k' v' st' Hne Hstep. destruct (g k' v') as [v2|]; [|done].
    cbn in Hstep. injection Hstep as <-. by rewrite lookup_insert_ne. }
  destruct (s !! k) as [v|] eqn:Hk.
  - destruct (rangeM_at_key _ id (λ _, True) _ _ _ k v Hloop Hk I)
      as (st & st' & _ & _ & Hstep & Hres); [done|..].
    { intros st k' v' st' _ Hne Hstep. by apply (Hframe st k' v'). }
    cbn [id] in Hres. destruct (g k v) as [v'|]; [|done]. cbn in Hstep.
    injection Hstep as <-. exists v'. split; [done|]. rewrite Hres. apply lookup_insert_eq.
  - apply (rangeM_invariant (λ st : JSONMap, st !! k = None) _ ∅ _ _ (lookup_empty k))
      in Hloop; [done|].
    intros st k' v' st' Hk' Hst Hstep. rewrite <-Hst. apply (Hframe st k' v'); [|done].
    intros ->. by rewrite Hk in Hk'.
Qed.

Lemma mapSliceFromSlice_maps (l : list JSONMap) :
  mapSliceFromSlice (JObject <$> l) = Ok l.
Proof.
  unfold mapSliceFromSlice.
  assert (∀ acc, foldM (λ newM v, vt ← mustMap v; Ok (newM ++ [vt])) acc (JObject <$> l)
                 = Ok (acc ++ l)) as Hgen; [|apply (Hgen [])].
  induction l as [|m l IH]; intros acc; cbn; [by rewrite app_nil_r|].
  rewrite IH. by rewrite <-app_assoc.
Qed.

Lemma sliceFromMapSlice_maps (l : list JSONMap) : sliceFromMapSlice l = JObject <$> l.
Proof.
  unfold sliceFromMapSlice.
  assert (∀ acc, foldl (λ newS v, newS ++ [JObject v]) acc l = acc ++ (JObject <$> l))
    as Hgen; [|apply (Hgen [])].
  induction l as [|m l IH]; intros acc; cbn; [by rewrite app_nil_r|].
  rewrite IH. by rewrite <-app_assoc.
Qed.

Lemma all_maps (s : list JSON) :
  (∀ v, v ∈ s → TypeOf v = Some TMap) → ∃ l : list JSONMap, s = JObject <$> l.
Proof.
  induction s as [|v s IH]; intros Hall; [by exists []|].
  destruct (TypeOf_map v) as [m ->]; [apply Hall, list_elem_of_here|].
  destruct IH as [l ->]; [intros v Hv; apply Hall; by right|]. by exists (m :: l).
Qed.

Section sorting_facts.
Context (Sch : Schema) (Go : GoLib).
Implicit Types (t : rtype Sch) (s : JSONMap).

Lemma sortMapsBasedOnField_maps (l : list JSON) (fieldName : string) :
  (∀ v, v ∈ l → TypeOf v = Some TMap) →
  sortMapsBasedOnField Go l fieldName = Ok (sort_Sort Go (lessMaps Go fieldName) l).
Proof.
  intros Hall. destruct (all_maps l Hall) as [ms ->]. unfold sortMapsBasedOnField.
  rewrite mapSliceFromSlice_maps. cbn [mbind result_bind]. by rewrite sliceFromMapSlice_maps.
Qed.

(** X29. Without recursion, [sortMergeListsByNameArray] is the sort the engine
    applies before it compares two merging lists, and it only rearranges a
    list of maps. *)
Theorem sortMergeListsByNameArray_permutes
    (rec : JSONMap → rtype Sch → result JSONMap)
    (l : list JSON) (elemType : rtype Sch) (mergeKey : string) :
  SortPermutes Go →
  sortMergeListsByNameArrayRec Sch Go rec l elemType mergeKey false
    = sortMergeListsByNameArray Go l mergeKey ∧
  ∀ r, sortMergeListsByNameArrayRec Sch Go rec l elemType mergeKey false = Ok r →
       (∀ v, v ∈ l → TypeOf v = Some TMap) → r ≡ₚ l.
Proof.
  intros Hsort.
  assert (sortMergeListsByNameArrayRec Sch Go rec l elemType mergeKey false
          = sortMergeListsByNameArray Go l mergeKey) as Heq.
  { unfold sortMergeListsByNameArrayRec, sortMergeListsByNameArray.
    destruct l as [|v l]; [done|].
    destruct (sliceElementType [v :: l]) as [ty|] eqn:Hty; [|done].
    cbn [mbind result_bind]. destruct (decide (ty = TMap)) as [->|Hne].
    - rewrite bool_decide_eq_true_2 by done. cbn [negb].
      assert (foldM (λ newS elem, Ok (newS ++ [elem])) [] (v :: l) = Ok (v :: l)) as ->.
      { assert (∀ acc (l : list JSON),
                  foldM (λ newS elem, Ok (newS ++ [elem])) acc l = Ok (acc ++ l)) as Hgen.
        { intros acc l0. revert acc. induction l0 as [|x l0 IH]; intros acc; cbn.
          - by rewrite app_nil_r.
          - rewrite IH. by rewrite <-app_assoc. }
        apply (Hgen []). }
      cbn [mbind result_bind]. apply sortMapsBasedOnField_maps.
      apply sliceElementType_Ok in Hty as (_ & _ & Hall). intros x Hx. apply Hall.
      cbn. by rewrite app_nil_r.
    - by rewrite bool_decide_eq_false_2 by done. }
  split; [done|]. intros r Hr Hall. rewrite Heq in Hr.
  destruct l as [|v l]; [by injection Hr as <-|].
  rewrite sortMergeListsByNameArray_maps in Hr by done. injection Hr as <-. apply Hsort.
Qed.

(** X30. On a document whose [$deleteFromPrimitiveList] lists hold scalars,
    [sortMergeListsByNameMap] keeps the keys of the map; it leaves the
    [$patch] directive, the scalar fields and the lists without merge
    strategy as they are, and replaces a merging list of scalars by a list
    without duplicates of the same values. *)
Theorem sortMergeListsByNameMap_fields (n : nat) s t (s' : JSONMap) :
  SortPermutes Go →
  deleteListsHoldScalars (JObject s) = true →
  sortMergeListsByNameMap Sch Go n s t = Ok s' →
  (∀ k, s' !! k = None ↔ s !! k = None) ∧
  (∀ v, s !! directiveMarker = Some v → s' !! directiveMarker = Some v) ∧
  (∀ k v, s !! k = Some v →
     String.prefix deleteFromPrimitiveListDirectivePrefix k = false →
     isScalar v = true → s' !! k = Some v) ∧
  (∀ k l ft st mk, s !! k = Some (JArray l) →
     String.prefix deleteFromPrimitiveListDirectivePrefix k = false →
     k ≠ directiveMarker →
     LookupPatchMetadata Sch t k = Ok (ft, st, mk) →
     if strEq st mergeDirective then
       Forall (λ x, isScalar x = true) l →
       ∃ l', s' !! k = Some (JArray l') ∧ NoDup l' ∧ ∀ x, x ∈ l' ↔ x ∈ l
     else s' !! k = Some (JArray l)).
Proof.
  intros Hsort _ Hs. destruct n as [|n]; [done|]. cbn [sortMergeListsByNameMap] in Hs.
  unfold sortMergeListsByNameMapBody in Hs.
  pose proof (λ k, rangeM_rebuild _ _ _ k Hs) as Hat. clear Hs.
  split; [|split; [|split]].
  - intros k. specialize (Hat k). destruct (s !! k) as [v|].
    + destruct Hat as (v' & _ & ->). done.
    + done.
  - intros v Hv. specialize (Hat directiveMarker). rewrite Hv in Hat.
    destruct Hat as (v' & Hv' & ->). by injection Hv' as <-.
  - intros k v Hv Hp Hscalar. specialize (Hat k). rewrite Hv in Hat.
    destruct Hat as (v' & Hv' & ->). unfold sortedValue in Hv'. rewrite Hp in Hv'.
    destruct (strEq k directiveMarker); cbn [negb] in Hv'; [by injection Hv' as <-|].
    destruct (LookupPatchMetadata Sch t k) as [[[ft st] mk]|]; [|done].
    cbn [mbind result_bind] in Hv'. destruct v; try done; by injection Hv' as <-.
  - intros k l ft st mk Hv Hp Hk Hl. specialize (Hat k). rewrite Hv in Hat.
    destruct Hat as (v' & Hv' & ->). unfold sortedValue in Hv'. rewrite Hp in Hv'.
    assert (strEq k directiveMarker = false) as Hmk.
    { apply not_true_iff_false. by rewrite strEq_spec. }
    rewrite Hmk, Hl in Hv'. cbn [negb mbind result_bind] in Hv'.
    destruct (strEq st mergeDirective); [|by injection Hv' as <-].
    intros Hscalars. destruct (elemOf Sch ft) as [et|]; [|done].
    cbn [mbind result_bind] in Hv'.
    destruct (sortMergeListsByNameArrayRec _ _ _ _ _ _ _) as [r|] eqn:Hr; [|done].
    cbn [mbind result_bind] in Hv'. injection Hv' as <-. exists r. split; [done|].
    unfold sortMergeListsByNameArrayRec in Hr.
    destruct l as [|x l].
    { injection Hr as <-. split; [constructor|done]. }
    destruct (sliceElementType [x :: l]) as [ty|] eqn:Hty; [|done].
    cbn [mbind result_bind] in Hr.
    assert (ty ≠ TMap) as Hne.
    { intros ->. apply sliceElementType_Ok in Hty as (_ & _ & Hall).
      specialize (Hall x (list_elem_of_here _ _)). apply Forall_cons in Hscalars as [Hx _].
      by destruct x. }
    rewrite bool_decide_eq_false_2 in Hr by done. cbn [negb] in Hr. injection Hr as <-.
    destruct (uniqifyOuter_spec (length (x :: l)) (x :: l) Hscalars) as [Hnd Hin]; [done|].
    unfold uniqifyAndSortScalars, sortScalars. split.
    + by rewrite (Hsort _ _).
    + intros y. by rewrite (Hsort _ _).
Qed.

End sorting_facts.

(** ** Object fields and sorting on concrete documents *)


Lemma diffMaps_nested_entries_witness :
  let doc : JSONMap := {[ "selector" := JObject {[ "app" := JString "a" ]} ]} in
  diffMaps podSchema goLib 2 doc doc PodSpec false false = Ok doc ∧
  doc !! "selector" = Some (JObject {[ "app" := JString "a" ]}).
Proof.
  cbv zeta. split; [by vm_compute|].
  apply (diffMaps_nested_entries podSchema goLib 1
           {[ "selector" := JObject {[ "app" := JString "a" ]} ]}
           {[ "selector" := JObject {[ "app" := JString "a" ]} ]}
           PodSpec PodSpec {[ "selector" := JObject {[ "app" := JString "a" ]} ]} "selector"
           (JObject {[ "app" := JString "a" ]}) (JObject {[ "app" := JString "a" ]})
           Plain "replace" "").
  - vm_compute. reflexivity.
  - reflexivity.
  - discriminate.
  - reflexivity.
  - reflexivity.
  - reflexivity.
  - reflexivity.
Defined.

Lemma sortMergeListsByNameArray_permutes_witness :
  let l := [JObject {[ "name" := JString "b" ]}; JObject {[ "name" := JString "a" ]}] in
  sortMergeListsByNameArrayRec podSchema goLib (λ _ _, Ok ∅) l Container "name" false
    = sortMergeListsByNameArray goLib l "name" ∧
  ∀ r, sortMergeListsByNameArrayRec podSchema goLib (λ _ _, Ok ∅) l Container "name" false
         = Ok r →
       (∀ v, v ∈ l → TypeOf v = Some TMap) → r ≡ₚ l.
Proof. cbv zeta. apply sortMergeListsByNameArray_permutes. exact goLib_SortPermutes. Defined.

Lemma sortMergeListsByNameMap_fields_witness :
  let s : JSONMap :=
    {[ "finalizers" := JArray [JString "b"; JString "a"; JString "b"];
       "replicas" := JNumber 1 ]} in
  let s' : JSONMap :=
    {[ "finalizers" := JArray [JString "a"; JString "b"]; "replicas" := JNumber 1 ]} in
  sortMergeListsByNameMap podSchema goLib 1 s PodSpec = Ok s' ∧
  (∀ k, s' !! k = None ↔ s !! k = None) ∧
  (∀ v, s !! directiveMarker = Some v → s' !! directiveMarker = Some v) ∧
  (∀ k v, s !! k = Some v →
     String.prefix deleteFromPrimitiveListDirectivePrefix k = false →
     isScalar v = true → s' !! k = Some v) ∧
  (∀ k l ft st mk, s !! k = Some (JArray l) →
     String.prefix deleteFromPrimitiveListDirectivePrefix k = false →
     k ≠ directiveMarker →
     LookupPatchMetadata podSchema PodSpec k = Ok (ft, st, mk) →
     if strEq st mergeDirective then
       Forall (λ x, isScalar x = true) l →
       ∃ l', s' !! k = Some (JArray l') ∧ NoDup l' ∧ ∀ x, x ∈ l' ↔ x ∈ l
     else s' !! k = Some (JArray l)).
Proof.
  cbv zeta. split; [by vm_compute|].
  apply (sortMergeListsByNameMap_fields podSchema goLib 1).
  - exact goLib_SortPermutes.
  - vm_compute. reflexivity.
  - vm_compute. reflexivity.
Defined.

(** ** The order of strings and sorted lists *)

Lemma Ascii_compare_lt_trans (a b c : ascii) :
  Ascii.compare a b = Lt → Ascii.compare b c = Lt → Ascii.compare a c = Lt.
Proof.
  unfold Ascii.compare. rewrite !N.compare_lt_iff. apply N.lt_trans.
Qed.

Lemma String_compare_lt_trans (a b c : string) :
  String.compare a b = Lt → String.compare b c = Lt → String.compare a c = Lt.
Proof.
  revert b c. induction a as [|x a IH]; intros [|y b] [|z c]; cbn; try done.
  destruct (Ascii.compare x y) eqn:Hxy; [|intros _|done].
  - apply Ascii.compare_eq_iff in Hxy as ->.
    destruct (Ascii.compare y z); [apply IH|done|done].
  - destruct (Ascii.compare y z) eqn:Hyz; [|intros _|done].
    + apply Ascii.compare_eq_iff in Hyz as <-. by rewrite Hxy.
    + by rewrite (Ascii_compare_lt_trans _ _ _ Hxy Hyz).
Qed.

Lemma strLt_trans (a b c : string) : strLt a b = true → strLt b c = true → strLt a c = true.
Proof.
  unfold strLt. intros Hab Hbc.
  rewrite (String_compare_lt_trans a b c); [done| |].
  - by destruct (String.compare a b).
  - by destruct (String.compare b c).
Qed.

Lemma strLt_asym (a b : string) : strLt a b = true → strLt b a = false.
Proof.
  unfold strLt. rewrite (String.compare_antisym b a). by destruct (String.compare a b).
Qed.

(** Two strings are equal, or one is below the other. *)
Lemma strLt_trichotomy (a b : string) : strLt a b = false → strLt b a = false → a = b.
Proof.
  unfold strLt. rewrite (String.compare_antisym b a).
  destruct (String.compare a b) eqn:Hc; [|done|done]. intros _ _.
  by apply String.compare_eq_iff.
Qed.

Lemma strLe_trans (a b c : string) :
  strLt b a = false → strLt c b = false → strLt c a = false.
Proof.
  intros Hab Hbc. destruct (strLt c a) eqn:Hca; [|done].
  destruct (strLt a b) eqn:Hab'.
  - by rewrite (strLt_trans c a b) in Hbc.
  - rewrite (strLt_trichotomy a b) in Hca by done. by rewrite Hca in Hbc.
Qed.

Lemma strLt_le_trans (a b c : string) :
  strLt a b = true → strLt c b = false → strLt a c = true.
Proof.
  intros Hab Hbc. destruct (strLt a c) eqn:Hac; [done|].
  destruct (strLt b c) eqn:Hbc'.
  - by rewrite (strLt_trans a b c) in Hac.
  - rewrite (strLt_trichotomy b c) in Hab by done. by rewrite Hab in Hac.
Qed.

Lemma filter_ext_elem {A} (P Q : A → Prop) `{∀ x, Decision (P x)} `{∀ x, Decision (Q x)}
    (l : list A) :
  (∀ x, x ∈ l → P x ↔ Q x) → filter P l = filter Q l.
Proof.
  induction l as [|x l IH]; intros Hext; [done|].
  rewrite !filter_cons. rewrite IH by (intros y Hy; apply Hext; by right).
  destruct (decide (P x)) as [HP|HP], (decide (Q x)) as [HQ|HQ]; try done.
  - by apply (Hext x (list_elem_of_here _ _)) in HP.
  - by apply (Hext x (list_elem_of_here _ _)) in HQ.
Qed.

Lemma filter_all {A} (P : A → Prop) `{∀ x, Decision (P x)} (l : list A) :
  (∀ x, x ∈ l → P x) → filter P l = l.
Proof.
  induction l as [|x l IH]; intros Hall; [done|].
  rewrite filter_cons_True by apply Hall, list_elem_of_here.
  f_equal. apply IH. intros y Hy. apply Hall. by right.
Qed.

Section sorted_walks.
Context (Go : GoLib).

Lemma sortedBy_inv (key : JSON → string) (x : JSON) (l : list JSON) :
  sortedBy key (x :: l) →
  sortedBy key l ∧ ∀ y, y ∈ l → strLt (key y) (key x) = false.
Proof.
  intros Hs. apply StronglySorted_inv in Hs as [Hl Hx]. split; [done|].
  by rewrite Forall_forall in Hx.
Qed.

(** The loop of [deleteFromSlice] on two sorted lists keeps the elements of
    [current] whose printed value is that of no element to delete. *)
Lemma deleteFromSliceLoop_spec (steps : nat) (cs ds merged : list JSON) :
  sortedBy (Sprintf_v Go) cs → sortedBy (Sprintf_v Go) ds →
  (length cs + length ds ≤ steps)%nat →
  deleteFromSliceLoop Go steps cs ds merged
  = merged ++ filter (λ c, Sprintf_v Go c ∉ Sprintf_v Go <$> ds) cs.
Proof.
  revert cs ds merged. induction steps as [|n IH]; intros cs ds merged Hcs Hds Hlen.
  { destruct cs; [done|]. cbn in Hlen. lia. }
  cbn [deleteFromSliceLoop]. destruct cs as [|c cs]; [done|].
  destruct ds as [|d ds].
  { rewrite filter_all; [done|]. intros x _. cbn. apply not_elem_of_nil. }
  destruct (sortedBy_inv _ _ _ Hcs) as [Hcs' Hc].
  destruct (sortedBy_inv _ _ _ Hds) as [Hds' Hd].
  cbn in Hlen.
  destruct (strEq (Sprintf_v Go c) (Sprintf_v Go d)) eqn:Heq.
  - apply strEq_spec in Heq. rewrite IH by (done || cbn; lia).
    rewrite filter_cons_False; [done|]. intros Hn. apply Hn. rewrite Heq. cbn. by left.
  - assert (Sprintf_v Go c ≠ Sprintf_v Go d) as Hne.
    { intros Hcd. apply strEq_spec in Hcd. by rewrite Hcd in Heq. }
    destruct (strLt (Sprintf_v Go d) (Sprintf_v Go c)) eqn:Hlt.
    + rewrite IH by (done || cbn; lia). f_equal. apply filter_ext_elem.
      intros x Hx. cbn. rewrite elem_of_cons.
      assert (Sprintf_v Go x ≠ Sprintf_v Go d); [|tauto].
      intros Hxd. apply elem_of_cons in Hx as [->|Hx]; [done|].
      specialize (Hc x Hx). rewrite Hxd in Hc. by rewrite Hc in Hlt.
    + rewrite IH by (done || cbn in *; lia). rewrite <-app_assoc. cbn [app].
      rewrite filter_cons_True; [done|].
      cbn. rewrite elem_of_cons. intros [?|Hin]; [done|].
      apply list_elem_of_fmap in Hin as (y & Hy & Hin). specialize (Hd y Hin).
      rewrite <-Hy in Hd.
      assert (strLt (Sprintf_v Go c) (Sprintf_v Go d) = true) as Hcd.
      { destruct (strLt (Sprintf_v Go c) (Sprintf_v Go d)) eqn:Hcd; [done|].
        by destruct Hne; apply strLt_trichotomy. }
      by rewrite Hcd in Hd.
Qed.

Lemma uniqifyAndSortScalars_spec (s : list JSON) :
  SortPermutes Go → SortSorts Go → Forall (λ v, isScalar v = true) s →
  sortedBy (Sprintf_v Go) (uniqifyAndSortScalars Go s) ∧
  NoDup (uniqifyAndSortScalars Go s) ∧
  ∀ x, x ∈ uniqifyAndSortScalars Go s ↔ x ∈ s.
Proof.
  intros Hperm Hsorts Hs. unfold uniqifyAndSortScalars, sortScalars.
  destruct (uniqifyOuter_spec (length s) s Hs) as [Hnd Hin]; [done|].
  split; [apply Hsorts|]. split.
  - by rewrite (Hperm _ _).
  - intros x. by rewrite (Hperm _ _).
Qed.

(** X14. [deleteFromSlice] on lists of scalars (what [mergeSlice] calls it on)
    returns, without duplicates, the values of [current] whose printed
    form is that of no value to delete. *)
Theorem deleteFromSlice_spec (current toDelete : list JSON) :
  SortPermutes Go → SortSorts Go →
  Forall (λ v, isScalar v = true) (current ++ toDelete) →
  NoDup (deleteFromSlice Go current toDelete) ∧
  ∀ x, x ∈ deleteFromSlice Go current toDelete
       ↔ x ∈ current ∧ Sprintf_v Go x ∉ Sprintf_v Go <$> toDelete.
Proof.
  intros Hperm Hsorts Hscalars. apply Forall_app in Hscalars as [Hc Hd].
  destruct (uniqifyAndSortScalars_spec current Hperm Hsorts Hc) as (Hcs & Hcnd & Hcin).
  destruct (uniqifyAndSortScalars_spec toDelete Hperm Hsorts Hd) as (Hds & _ & Hdin).
  unfold deleteFromSlice. rewrite deleteFromSliceLoop_spec by done. cbn [app]. split.
  - by apply NoDup_filter.
  - intros x. rewrite list_elem_of_filter, Hcin.
    assert (Sprintf_v Go x ∈ Sprintf_v Go <$> uniqifyAndSortScalars Go toDelete
            ↔ Sprintf_v Go x ∈ Sprintf_v Go <$> toDelete) as Hkeys.
    { rewrite !list_elem_of_fmap. split; intros (y & Hy & Hin); exists y.
      - by rewrite <-Hdin.
      - by rewrite Hdin. }
    tauto.
Qed.

(** The loop of [diffListsOfScalars] on two lists sorted by pairwise
    different printed values. *)
Lemma diffScalarsLoop_spec (steps : nat) (iC iD : bool) (os ms addList deletionList : list JSON) :
  StronglySorted (λ a b, strLt (Sprintf_v Go a) (Sprintf_v Go b) = true) os →
  StronglySorted (λ a b, strLt (Sprintf_v Go a) (Sprintf_v Go b) = true) ms →
  (length os + length ms ≤ steps)%nat →
  diffScalarsLoop Go steps iC iD os ms addList deletionList
  = (if iC then addList
     else addList ++ filter (λ m, Sprintf_v Go m ∉ Sprintf_v Go <$> os) ms,
     if iD then deletionList
     else deletionList ++ filter (λ o, Sprintf_v Go o ∉ Sprintf_v Go <$> ms) os).
Proof.
  revert os ms addList deletionList.
  induction steps as [|n IH]; intros os ms addList deletionList Hos Hms Hlen.
  { destruct os, ms; cbn in Hlen; try lia. cbn. rewrite !app_nil_r.
    by destruct iC, iD. }
  cbn [diffScalarsLoop].
  assert (∀ (l : list JSON) x, StronglySorted
            (λ a b, strLt (Sprintf_v Go a) (Sprintf_v Go b) = true) (x :: l) →
          Sprintf_v Go x ∉ Sprintf_v Go <$> l) as Hfresh.
  { intros l x Hs Hin. apply StronglySorted_inv in Hs as [_ Hx].
    rewrite Forall_forall in Hx. apply list_elem_of_fmap in Hin as (y & Hy & Hin).
    specialize (Hx y Hin). rewrite <-Hy in Hx. by rewrite strLt_irrefl in Hx. }
  destruct os as [|o os], ms as [|m ms].
  - cbn. rewrite !app_nil_r. by destruct iC, iD.
  - apply StronglySorted_inv in Hms as [Hms' Hm]. cbn in Hlen.
    rewrite IH by (done || constructor || cbn; lia). cbn [fmap list_fmap filter].
    rewrite (filter_all _ (m :: ms)) by (intros; apply not_elem_of_nil).
    rewrite (filter_all _ ms) by (intros; apply not_elem_of_nil).
    destruct iC, iD; cbn; by rewrite <-?app_assoc.
  - apply StronglySorted_inv in Hos as [Hos' Ho]. cbn in Hlen.
    rewrite IH by (done || constructor || cbn; lia). cbn [fmap list_fmap filter].
    rewrite (filter_all _ (o :: os)) by (intros; apply not_elem_of_nil).
    rewrite (filter_all _ os) by (intros; apply not_elem_of_nil).
    destruct iC, iD; cbn; by rewrite <-?app_assoc.
  - pose proof (Hfresh _ _ Hos) as Hofresh. pose proof (Hfresh _ _ Hms) as Hmfresh.
    pose proof Hos as Hos0. pose proof Hms as Hms0.
    apply StronglySorted_inv in Hos as [Hos' Ho].
    apply StronglySorted_inv in Hms as [Hms' Hm].
    rewrite Forall_forall in Ho, Hm. cbn in Hlen.
    destruct (strEq (Sprintf_v Go o) (Sprintf_v Go m)) eqn:Heq.
    + apply strEq_spec in Heq. rewrite IH by (done || cbn; lia).
      rewrite (filter_cons_False _ m); cycle 1.
      { intros Hn. apply Hn. rewrite <-Heq. cbn. by left. }
      rewrite (filter_cons_False _ o); cycle 1.
      { intros Hn. apply Hn. rewrite Heq. cbn. by left. }
      rewrite (filter_ext_elem (λ m0, Sprintf_v Go m0 ∉ Sprintf_v Go <$> o :: os)
                 (λ m0, Sprintf_v Go m0 ∉ Sprintf_v Go <$> os) ms); cycle 1.
      { intros x Hx. cbn. rewrite elem_of_cons.
        assert (Sprintf_v Go x ≠ Sprintf_v Go o); [|tauto].
        intros Hxo. rewrite Heq in Hxo. apply Hmfresh. rewrite <-Hxo.
        apply list_elem_of_fmap. by exists x. }
      rewrite (filter_ext_elem (λ o0, Sprintf_v Go o0 ∉ Sprintf_v Go <$> m :: ms)
                 (λ o0, Sprintf_v Go o0 ∉ Sprintf_v Go <$> ms) os); cycle 1.
      { intros x Hx. cbn. rewrite elem_of_cons.
        assert (Sprintf_v Go x ≠ Sprintf_v Go m); [|tauto].
        intros Hxm. rewrite <-Heq in Hxm. apply Hofresh. rewrite <-Hxm.
        apply list_elem_of_fmap. by exists x. }
      done.
    + assert (Sprintf_v Go o ≠ Sprintf_v Go m) as Hne.
      { intros Hom. apply strEq_spec in Hom. by rewrite Hom in Heq. }
      destruct (strLt (Sprintf_v Go m) (Sprintf_v Go o)) eqn:Hlt.
      * (* modified has an additional scalar *)
        rewrite IH by (done || cbn; lia).
        assert (Sprintf_v Go m ∉ Sprintf_v Go <$> o :: os) as Hmo.
        { cbn. rewrite elem_of_cons. intros [?|Hin]; [done|].
          apply list_elem_of_fmap in Hin as (y & Hy & Hin). specialize (Ho y Hin).
          rewrite <-Hy in Ho. pose proof (strLt_trans _ _ _ Hlt Ho) as Hmm.
          by rewrite strLt_irrefl in Hmm. }
        rewrite (filter_cons_True _ m) by done.
        rewrite (filter_ext_elem (λ o0, Sprintf_v Go o0 ∉ Sprintf_v Go <$> m :: ms)
                   (λ o0, Sprintf_v Go o0 ∉ Sprintf_v Go <$> ms) (o :: os)); cycle 1.
        { intros x Hx. cbn. rewrite elem_of_cons.
          assert (Sprintf_v Go x ≠ Sprintf_v Go m); [|tauto].
          intros Hxm. apply Hmo. rewrite <-Hxm. apply list_elem_of_fmap. by exists x. }
        destruct iC, iD; cbn; by rewrite <-?app_assoc.
      * (* original has an additional scalar *)
        assert (strLt (Sprintf_v Go o) (Sprintf_v Go m) = true) as Hom.
        { destruct (strLt (Sprintf_v Go o) (Sprintf_v Go m)) eqn:Hom; [done|].
          by destruct Hne; apply strLt_trichotomy. }
        rewrite IH by (done || cbn in *; lia).
        assert (Sprintf_v Go o ∉ Sprintf_v Go <$> m :: ms) as How.
        { cbn. rewrite elem_of_cons. intros [?|Hin]; [done|].
          apply list_elem_of_fmap in Hin as (y & Hy & Hin). specialize (Hm y Hin).
          rewrite <-Hy in Hm. pose proof (strLt_trans _ _ _ Hom Hm) as Hoo.
          by rewrite strLt_irrefl in Hoo. }
        rewrite (filter_cons_True _ o) by done.
        rewrite (filter_ext_elem (λ m0, Sprintf_v Go m0 ∉ Sprintf_v Go <$> o :: os)
                   (λ m0, Sprintf_v Go m0 ∉ Sprintf_v Go <$> os) (m :: ms)); cycle 1.
        { intros x Hx. cbn. rewrite elem_of_cons.
          assert (Sprintf_v Go x ≠ Sprintf_v Go o); [|tauto].
          intros Hxo. apply How. rewrite <-Hxo. apply list_elem_of_fmap. by exists x. }
        destruct iC, iD; cbn; by rewrite <-?app_assoc.
Qed.

Lemma sortedBy_strict (key : JSON → string) (l : list JSON) :
  sortedBy key l → NoDup (key <$> l) →
  StronglySorted (λ a b, strLt (key a) (key b) = true) l.
Proof.
  induction 1 as [|x l Hl IH Hx]; intros Hnd; [constructor|].
  rewrite fmap_cons in Hnd. apply NoDup_cons in Hnd as [Hfresh Hnd].
  constructor; [by apply IH|]. rewrite Forall_forall in Hx |- *. intros y Hy.
  destruct (strLt (key x) (key y)) eqn:Hxy; [done|]. destruct Hfresh.
  rewrite (strLt_trichotomy (key x) (key y) Hxy (Hx y Hy)).
  apply list_elem_of_fmap. by exists y.
Qed.

(** X13. On lists whose values print differently, [diffListsOfScalars] reports
    as additions the values of [modified] that print like no value of
    [original], and as deletions the values of [original] that print like
    no value of [modified] - unless additions, or deletions, are ignored;
    a list differs in nothing from itself. *)
Theorem diffListsOfScalars_spec (original modified : list JSON) (iC iD : bool) :
  SortPermutes Go → SortSorts Go →
  NoDup (Sprintf_v Go <$> original) → NoDup (Sprintf_v Go <$> modified) →
  (∀ x, x ∈ (diffListsOfScalars Go original modified iC iD).1
        ↔ iC = false ∧ x ∈ modified ∧ Sprintf_v Go x ∉ Sprintf_v Go <$> original) ∧
  (∀ x, x ∈ (diffListsOfScalars Go original modified iC iD).2
        ↔ iD = false ∧ x ∈ original ∧ Sprintf_v Go x ∉ Sprintf_v Go <$> modified) ∧
  diffListsOfScalars Go original original iC iD = ([], []).
Proof.
  intros Hperm Hsorts Hon Hmn. unfold diffListsOfScalars, sortScalars.
  assert (∀ l x, Sprintf_v Go x ∈ Sprintf_v Go <$> sort_Sort Go (lessScalars Go) l
                 ↔ Sprintf_v Go x ∈ Sprintf_v Go <$> l) as Hkeys.
  { intros l x. by rewrite (Hperm _ l). }
  rewrite diffScalarsLoop_spec; [| | |done].
  - cbn [fst snd]. split; [|split; [|apply diffScalarsLoop_same]].
    + intros x. destruct iC.
      * rewrite elem_of_nil. split; [done|]. by intros [? _].
      * cbn [app]. rewrite list_elem_of_filter, Hkeys, (Hperm _ modified). tauto.
    + intros x. destruct iD.
      * rewrite elem_of_nil. split; [done|]. by intros [? _].
      * cbn [app]. rewrite list_elem_of_filter, Hkeys, (Hperm _ original). tauto.
  - apply sortedBy_strict; [apply Hsorts|]. by rewrite (Hperm _ original).
  - apply sortedBy_strict; [apply Hsorts|]. by rewrite (Hperm _ modified).
Qed.

End sorted_walks.

(** The insertion sort of the model leaves the slice sorted. *)
Lemma insertionStep_sorted (key : JSON → string) (x : JSON) (r : list JSON) :
  StronglySorted (λ a b, strLt (key a) (key b) = false) r →
  StronglySorted (λ a b, strLt (key a) (key b) = false)
    (insertionStep (λ x y, StringsAreSorted2 (key x) (key y)) x r).
Proof.
  induction 1 as [|y r Hr IH Hy]; cbn [insertionStep].
  { repeat constructor. }
  unfold StringsAreSorted2 at 1. destruct (strLt (key y) (key x)) eqn:Hyx; cbn [negb].
  - constructor; [by constructor|]. constructor; [by apply strLt_asym|].
    rewrite Forall_forall in Hy |- *. intros b Hb.
    destruct (strLt (key x) (key b)) eqn:Hxb; [|done].
    specialize (Hy b Hb). by rewrite (strLt_trans _ _ _ Hyx Hxb) in Hy.
  - constructor; [done|]. rewrite insertionStep_perm. by constructor.
Qed.

Lemma goLib_SortSorts : SortSorts goLib.
Proof.
  intros key l. cbn. unfold insertionSort, sortedBy.
  set (less := λ x y, StringsAreSorted2 (key x) (key y)).
  assert (∀ acc, StronglySorted (λ a b, strLt (key a) (key b) = false) acc →
            StronglySorted (λ a b, strLt (key a) (key b) = false)
              (foldl (λ acc x, insertionStep less x acc) acc l)) as Hacc.
  { induction l as [|x l IH]; intros acc Hs; [exact Hs|].
    cbn [foldl]. apply IH. by apply insertionStep_sorted. }
  specialize (Hacc [] (SSorted_nil _)). revert Hacc.
  generalize (foldl (λ acc x, insertionStep less x acc) [] l). clear. intros r.
  induction 1 as [|y r Hr IH Hy]; [constructor|].
  rewrite reverse_cons. apply StronglySorted_app_2; [|done|repeat constructor].
  intros a b Ha Hb. apply list_elem_of_singleton in Hb as ->.
  rewrite Forall_forall in Hy. apply Hy. by apply elem_of_reverse.
Qed.

Lemma deleteFromSlice_spec_witness :
  let current := [JString "b"; JString "a"; JString "b"] in
  let toDelete := [JString "a"] in
  NoDup (deleteFromSlice goLib current toDelete) ∧
  ∀ x, x ∈ deleteFromSlice goLib current toDelete
       ↔ x ∈ current ∧ Sprintf_v goLib x ∉ Sprintf_v goLib <$> toDelete.
Proof.
  cbv zeta. apply deleteFromSlice_spec.
  - exact goLib_SortPermutes.
  - exact goLib_SortSorts.
  - repeat constructor.
Defined.

Lemma diffListsOfScalars_spec_witness :
  let original := [JString "b"; JString "a"] in
  let modified := [JString "c"; JString "b"] in
  (∀ x, x ∈ (diffListsOfScalars goLib original modified false false).1
        ↔ false = false ∧ x ∈ modified ∧
          Sprintf_v goLib x ∉ Sprintf_v goLib <$> original) ∧
  (∀ x, x ∈ (diffListsOfScalars goLib original modified false false).2
        ↔ false = false ∧ x ∈ original ∧
          Sprintf_v goLib x ∉ Sprintf_v goLib <$> modified) ∧
  diffListsOfScalars goLib original original false false = ([], []).
Proof.
  cbv zeta. apply diffListsOfScalars_spec.
  - exact goLib_SortPermutes.
  - exact goLib_SortSorts.
  - apply (bool_decide_unpack (NoDup (Sprintf_v goLib <$> [JString "b"; JString "a"]))).
    vm_compute. exact I.
  - apply (bool_decide_unpack (NoDup (Sprintf_v goLib <$> [JString "c"; JString "b"]))).
    vm_compute. exact I.
Defined.

(** The two runs, computed. *)
Lemma scalar_list_runs :
  deleteFromSlice goLib [JString "b"; JString "a"; JString "b"] [JString "a"]
    = [JString "b"] ∧
  diffListsOfScalars goLib [JString "b"; JString "a"] [JString "c"; JString "b"] false false
    = ([JString "c"], [JString "a"]).
Proof. split; by vm_compute. Qed.

End StrategicPatchSpec.
